(** * rimworld-mcp-server: definition registry, patch engine, inheritance
      resolver and cycle detector

    A shallow embedding of [DefParser.processDefsFile],
    [PatchManager.applyPatches] and its helpers,
    [ReferenceAnalyzer.resolveInheritance] / [mergeWithParent],
    [ConflictDetector.detectCircularDependencies] and
    [ToolHandlers.handleGetDef], followed by the properties of the
    registry that the specification states about them.

    Modelling conventions.
    - JavaScript objects that the program shares and mutates (definition
      records, patch operations) live in two arenas, [objs] and
      [patchObjs]; every map, bucket and history holds arena indices, so
      that a mutation made through one alias is seen through all of them.
    - A JavaScript [Map] whose iteration order the program uses ([defs])
      is an insertion-ordered association list; the other maps are
      [gmap]s, and a [Set<string>] is a [gset string].
    - Strings are [string]s whose characters stand for code units
      0..255. *)

From Stdlib Require Import ZArith Ascii String.
From stdpp Require Import base option list strings gmap.

Local Open Scope string_scope.
Local Open Scope list_scope.
Local Open Scope Z_scope.

(** ** Parsed XML values

    What the XML parser hands over ([parseTagValue: false]): text is a
    string, repeated elements are an array, an element with children or
    attributes is an object.  [JUndef] and [JNull] are the two empty
    values the program compares against. *)

#[warnings="-register-all"]
Inductive JsVal : Type :=
| JUndef
| JNull
| JStr (s : string)
| JArr (items : list JsVal)
| JObj (props : list (string * JsVal)).

Definition truthy (v : JsVal) : bool :=
  match v with
  | JUndef | JNull => false
  | JStr s => negb (String.eqb s "")
  | JArr _ | JObj _ => true
  end.

Definition nullish (v : JsVal) : bool :=
  match v with JUndef | JNull => true | _ => false end.

Definition isArray (v : JsVal) : bool :=
  match v with JArr _ => true | _ => false end.

(** [typeof v === 'object' && !Array.isArray(v) && v !== null] *)
Definition isPlainObject (v : JsVal) : bool :=
  match v with JObj _ => true | _ => false end.

Definition isStr (s : string) (v : JsVal) : bool :=
  match v with JStr t => String.eqb t s | _ => false end.

(** [a || b] on values. *)
Definition js_or (a b : JsVal) : JsVal := if truthy a then a else b.

(** *** Own properties of an object, in insertion order *)

Fixpoint props_get (ps : list (string * JsVal)) (k : string) : JsVal :=
  match ps with
  | [] => JUndef
  | (k', v) :: ps' => if String.eqb k' k then v else props_get ps' k
  end.

(** [o[k] = v]: an existing key keeps its place, a new key goes last. *)
Fixpoint props_set (ps : list (string * JsVal)) (k : string) (v : JsVal)
  : list (string * JsVal) :=
  match ps with
  | [] => [(k, v)]
  | (k', v') :: ps' =>
      if String.eqb k' k then (k', v) :: ps' else (k', v') :: props_set ps' k v
  end.

(** [delete o[k]] *)
Definition props_delete (ps : list (string * JsVal)) (k : string)
  : list (string * JsVal) :=
  filter (fun kv => negb (String.eqb (fst kv) k)) ps.

(** [v[k]] for a value that is neither [undefined] nor [null] and a
    name [k] that is not one an array or a piece of text owns itself
    ([length], an index; see [ownKey] below): the names the program
    spells out ([defName], [@_Name], [li], ...) and, in the walks of the
    patch engine, the path segments that have passed the test of
    [ownKey].  A read of a name the value does not own gives
    [undefined].  Names that JavaScript resolves on a prototype
    ([constructor], [toString], [__proto__], ...) are not modelled,
    here and in the writes and deletions below: content keys are XML
    element and attribute names. *)
Definition js_get (v : JsVal) (k : string) : JsVal :=
  match v with
  | JObj ps => props_get ps k
  | _ => JUndef
  end.

(** ** Records of [types.ts] *)

Record ModInfo := {
  packageId : string;
  name : string;
  loadOrder : Z;
  isCore : bool;
  isDLC : bool
}.

Inductive ReferenceType :=
| RefParent | RefThingDef | RefRecipe | RefResearch | RefBuilding | RefWeapon
| RefApparel | RefHediff | RefTrait | RefWorkGiver | RefJob | RefThought
| RefInteraction | RefOther.

Record DefReference := {
  fromDef : string;
  toDef : string;
  referenceType : ReferenceType;
  ref_path : string
}.

Inductive ConflictType :=
| override | patch_collision | missing_dependency
| circular_dependency | incompatible_patch | xpath_conflict.

Inductive Severity := sev_error | sev_warning | sev_info.

Record DefConflict := {
  conflict_type : ConflictType;
  severity : Severity;
  conflict_defName : option string;
  conflict_xpath : option string;
  conflict_mods : list ModInfo;
  description : string;
  resolution : option string
}.

Record PatchConditions := {
  modLoaded : option (list string);
  modNotLoaded : option (list string)
}.

Record PatchOperation := {
  patch_id : string;
  patch_mod : ModInfo;
  patch_filePath : string;
  operation : string;
  xpath : string;
  value : JsVal;
  success : option bool;
  error : option string;
  targetDef : option string;
  order : Z;
  conditions : option PatchConditions;
  appliedTo : gset string
}.

(** [patchHistory] holds indices into the patch arena. *)
Record RimWorldDef := {
  defName : string;
  type : string;
  parent : option string;
  abstract : bool;
  content : JsVal;
  originalContent : option JsVal;
  filePath : string;
  mod_ : ModInfo;
  outgoingRefs : list DefReference;
  incomingRefs : list DefReference;
  patchHistory : list nat;
  def_conflicts : list DefConflict
}.

Record ServerData := {
  objs : list RimWorldDef;
  patchObjs : list PatchOperation;
  defs : list (string * nat);
  defsByType : gmap string (list nat);
  defsByMod : gmap string (list nat);
  mods : gmap string ModInfo;
  patches : gmap string (list nat);
  globalPatches : list nat;
  conflicts : list DefConflict;
  abstractDefs : gmap string nat
}.

#[global] Instance ModInfo_eq_dec : EqDecision ModInfo.
Proof. solve_decision. Defined.
#[global] Instance ConflictType_eq_dec : EqDecision ConflictType.
Proof. solve_decision. Defined.
#[global] Instance Severity_eq_dec : EqDecision Severity.
Proof. solve_decision. Defined.

(** *** The insertion-ordered [Map] behind [data.defs] *)

Fixpoint omap_get {A} (m : list (string * A)) (k : string) : option A :=
  match m with
  | [] => None
  | (k', v) :: m' => if String.eqb k' k then Some v else omap_get m' k
  end.

(** [m.set(k, v)]: a key already present keeps its position. *)
Fixpoint omap_set {A} (m : list (string * A)) (k : string) (v : A)
  : list (string * A) :=
  match m with
  | [] => [(k, v)]
  | (k', v') :: m' =>
      if String.eqb k' k then (k', v) :: m' else (k', v') :: omap_set m' k v
  end.

Definition omap_keys {A} (m : list (string * A)) : list string := m.*1.

(** A name that JavaScript treats as present: [if (defName)],
    [if (def.parent)], [patch.targetDef || ...]. *)
Definition nonempty (s : string) : bool := negb (String.eqb s "").

Definition present (o : option string) : bool :=
  match o with Some s => nonempty s | None => false end.

(** *** Field updates *)

Definition with_objs (f : list RimWorldDef -> list RimWorldDef) (d : ServerData) :=
  {| objs := f (objs d); patchObjs := patchObjs d; defs := defs d;
     defsByType := defsByType d; defsByMod := defsByMod d; mods := mods d;
     patches := patches d; globalPatches := globalPatches d;
     conflicts := conflicts d; abstractDefs := abstractDefs d |}.

Definition with_patchObjs (f : list PatchOperation -> list PatchOperation) (d : ServerData) :=
  {| objs := objs d; patchObjs := f (patchObjs d); defs := defs d;
     defsByType := defsByType d; defsByMod := defsByMod d; mods := mods d;
     patches := patches d; globalPatches := globalPatches d;
     conflicts := conflicts d; abstractDefs := abstractDefs d |}.

Definition with_globalPatches (f : list nat -> list nat) (d : ServerData) :=
  {| objs := objs d; patchObjs := patchObjs d; defs := defs d;
     defsByType := defsByType d; defsByMod := defsByMod d; mods := mods d;
     patches := patches d; globalPatches := f (globalPatches d);
     conflicts := conflicts d; abstractDefs := abstractDefs d |}.

Definition with_conflicts (f : list DefConflict -> list DefConflict) (d : ServerData) :=
  {| objs := objs d; patchObjs := patchObjs d; defs := defs d;
     defsByType := defsByType d; defsByMod := defsByMod d; mods := mods d;
     patches := patches d; globalPatches := globalPatches d;
     conflicts := f (conflicts d); abstractDefs := abstractDefs d |}.

Definition def_with_content (c : JsVal) (d : RimWorldDef) :=
  {| defName := defName d; type := type d; parent := parent d;
     abstract := abstract d; content := c;
     originalContent := originalContent d; filePath := filePath d;
     mod_ := mod_ d; outgoingRefs := outgoingRefs d;
     incomingRefs := incomingRefs d; patchHistory := patchHistory d;
     def_conflicts := def_conflicts d |}.

Definition def_with_originalContent (o : option JsVal) (d : RimWorldDef) :=
  {| defName := defName d; type := type d; parent := parent d;
     abstract := abstract d; content := content d;
     originalContent := o; filePath := filePath d;
     mod_ := mod_ d; outgoingRefs := outgoingRefs d;
     incomingRefs := incomingRefs d; patchHistory := patchHistory d;
     def_conflicts := def_conflicts d |}.

Definition def_with_patchHistory (h : list nat) (d : RimWorldDef) :=
  {| defName := defName d; type := type d; parent := parent d;
     abstract := abstract d; content := content d;
     originalContent := originalContent d; filePath := filePath d;
     mod_ := mod_ d; outgoingRefs := outgoingRefs d;
     incomingRefs := incomingRefs d; patchHistory := h;
     def_conflicts := def_conflicts d |}.

Definition def_with_conflicts (cs : list DefConflict) (d : RimWorldDef) :=
  {| defName := defName d; type := type d; parent := parent d;
     abstract := abstract d; content := content d;
     originalContent := originalContent d; filePath := filePath d;
     mod_ := mod_ d; outgoingRefs := outgoingRefs d;
     incomingRefs := incomingRefs d; patchHistory := patchHistory d;
     def_conflicts := cs |}.

Definition patch_with_result (s : option bool) (e : option string) (p : PatchOperation) :=
  {| patch_id := patch_id p; patch_mod := patch_mod p;
     patch_filePath := patch_filePath p; operation := operation p;
     xpath := xpath p; value := value p; success := s; error := e;
     targetDef := targetDef p; order := order p; conditions := conditions p;
     appliedTo := appliedTo p |}.

Definition patch_with_appliedTo (a : gset string) (p : PatchOperation) :=
  {| patch_id := patch_id p; patch_mod := patch_mod p;
     patch_filePath := patch_filePath p; operation := operation p;
     xpath := xpath p; value := value p; success := success p; error := error p;
     targetDef := targetDef p; order := order p; conditions := conditions p;
     appliedTo := a |}.

(** ** The definition registry: [DefParser.processDefsFile]

    [CombinedScanner.processDefsFile] repeats the same statements. *)

Module Registry.

(** [data.defs.get(defName)]: the arena index of the holder and the
    record behind it. *)
Definition existingDef (data : ServerData) (defName : string)
  : option (nat * RimWorldDef) :=
  id ← omap_get (defs data) defName;
  d ← objs data !! id;
  Some (id, d).

(** [typeList.findIndex(d => d.defName === defName)] *)
Fixpoint findIndex (heap : list RimWorldDef) (defName0 : string)
  (typeList : list nat) : option nat :=
  match typeList with
  | [] => None
  | id :: rest =>
      if match heap !! id with
         | Some d => String.eqb (defName d) defName0
         | None => false
         end
      then Some 0%nat
      else S <$> findIndex heap defName0 rest
  end.

Definition overrideConflict (existing : RimWorldDef) (rimDef : RimWorldDef)
  : DefConflict :=
  let m := mod_ rimDef in
  {| conflict_type := override;
     severity := sev_warning;
     conflict_defName := Some (defName rimDef);
     conflict_xpath := None;
     conflict_mods := [mod_ existing; m];
     description :=
       name m +:+ " overrides " +:+ defName rimDef +:+ " from "
         +:+ name (mod_ existing);
     resolution :=
       Some (if loadOrder (mod_ existing) <? loadOrder m
             then name m +:+ " wins due to load order"
             else name (mod_ existing) +:+ " wins due to load order") |}.

(** [existing && existing.mod.packageId !== mod.packageId]: the
    override conflict of lines 113-127, if one is recorded. *)
Definition clashOf (data : ServerData) (rimDef : RimWorldDef) : option DefConflict :=
  match existingDef data (defName rimDef) with
  | Some (_, e) =>
      if String.eqb (packageId (mod_ e)) (packageId (mod_ rimDef)) then None
      else Some (overrideConflict e rimDef)
  | None => None
  end.

(** [!existing || existing.mod.loadOrder < mod.loadOrder] *)
Definition installs (data : ServerData) (rimDef : RimWorldDef) : bool :=
  match existingDef data (defName rimDef) with
  | Some (_, e) => loadOrder (mod_ e) <? loadOrder (mod_ rimDef)
  | None => true
  end.

(** [rimDef] after [rimDef.conflicts.push(conflict)]. *)
Definition stored (data : ServerData) (rimDef : RimWorldDef) : RimWorldDef :=
  match clashOf data rimDef with
  | Some c => def_with_conflicts (def_conflicts rimDef ++ [c]) rimDef
  | None => rimDef
  end.

(** [typeList.splice(index, 1)] when [findIndex] found the name. *)
Definition dropNamed (heap : list RimWorldDef) (defName0 : string)
  (typeList : list nat) : list nat :=
  match findIndex heap defName0 typeList with
  | Some index => delete index typeList
  | None => typeList
  end.

(** [if (!m.has(k)) m.set(k, [])] *)
Definition ensureBucket (k : string) (m : gmap string (list nat))
  : gmap string (list nat) :=
  match m !! k with
  | Some _ => m
  | None => <[k := []]> m
  end.

(** Lines 112-154 for one freshly built [rimDef]; [length (objs data)]
    is the identity of the new record. *)
Definition registerDef (rimDef : RimWorldDef) (data : ServerData) : ServerData :=
  let defName0 := defName rimDef in
  let defType := type rimDef in
  let m := mod_ rimDef in
  let id := length (objs data) in
  let existing := existingDef data defName0 in
  let wins := installs data rimDef in
  let heap := objs data ++ [stored data rimDef] in
  {| objs := heap;
     patchObjs := patchObjs data;
     (* if (!existing || ...) data.defs.set(defName, rimDef) *)
     defs := if wins then omap_set (defs data) defName0 id else defs data;
     defsByType :=
       if wins then
         let byType := ensureBucket defType (defsByType data) in
         (* if (existing) { ... typeList.splice(index, 1) } *)
         let byType :=
           match existing with
           | Some _ => alter (dropNamed heap defName0) defType byType
           | None => byType
           end in
         alter (fun l => l ++ [id]) defType byType
       else defsByType data;
     defsByMod :=
       if wins then
         alter (fun l => l ++ [id]) (packageId m)
           (ensureBucket (packageId m) (defsByMod data))
       else defsByMod data;
     mods := mods data;
     patches := patches data;
     globalPatches := globalPatches data;
     (* data.conflicts.push(conflict) *)
     conflicts :=
       match clashOf data rimDef with
       | Some c => conflicts data ++ [c]
       | None => conflicts data
       end;
     (* if (isAbstract) data.abstractDefs.set(defName, rimDef) *)
     abstractDefs :=
       if abstract rimDef then <[defName0 := id]> (abstractDefs data)
       else abstractDefs data |}.

(** The record built at lines 97-110. *)
Definition mkRimDef (m : ModInfo) (relPath defType defName0 : string)
  (par : option string) (isAbstract : bool) (def : JsVal) : RimWorldDef :=
  {| defName := defName0; type := defType; parent := par;
     abstract := isAbstract; content := def; originalContent := None;
     filePath := relPath; mod_ := m; outgoingRefs := []; incomingRefs := [];
     patchHistory := []; def_conflicts := [] |}.

(** One element of [defArray].  [None] stands for input outside the
    model: a [defName] or parent that is not text. *)
Definition processDef (m : ModInfo) (relPath defType : string) (def : JsVal)
  (data : ServerData) : option ServerData :=
  (* if (!def || typeof def !== 'object') continue *)
  match def with
  | JUndef | JNull | JStr _ => Some data
  | JArr _ | JObj _ =>
      let nameV := js_or (js_get def "defName") (js_get def "@_Name") in
      let isAbstract :=
        isStr "True" (js_get def "@_Abstract") || isStr "True" (js_get def "Abstract") in
      let parentV := js_or (js_get def "@_ParentName") (js_get def "ParentName") in
      if truthy nameV then
        match nameV, parentV with
        | JStr defName0, JStr p =>
            Some (registerDef (mkRimDef m relPath defType defName0 (Some p) isAbstract def) data)
        | JStr defName0, JUndef =>
            Some (registerDef (mkRimDef m relPath defType defName0 None isAbstract def) data)
        | _, _ => None
        end
      else Some data
  end.

Fixpoint processDefArray (m : ModInfo) (relPath defType : string)
  (defArray : list JsVal) (data : ServerData) : option ServerData :=
  match defArray with
  | [] => Some data
  | def :: rest =>
      data' ← processDef m relPath defType def data;
      processDefArray m relPath defType rest data'
  end.

(** [for (const [defType, defs] of Object.entries(defsData))] over the
    children of the [Defs] element. *)
Fixpoint processDefsEntries (m : ModInfo) (relPath : string)
  (entries : list (string * JsVal)) (data : ServerData) : option ServerData :=
  match entries with
  | [] => Some data
  | (defType, defsV) :: rest =>
      data' ←
        match defsV with
        | JUndef | JStr _ => Some data        (* typeof defs !== 'object' *)
        | JArr items => processDefArray m relPath defType items data
        | JNull | JObj _ => processDefArray m relPath defType [defsV] data
        end;
      processDefsEntries m relPath rest data'
  end.

(** [defsData] is [parsed.Defs], which the caller has found truthy.
    The entries of text are its characters, all skipped; the entries
    of an array are keyed by index, which is outside the model. *)
Definition processDefsFile (defsData : JsVal) (relPath : string) (m : ModInfo)
  (data : ServerData) : option ServerData :=
  match defsData with
  | JObj entries => processDefsEntries m relPath entries data
  | JStr _ => Some data
  | JUndef | JNull | JArr _ => None
  end.

End Registry.

(** ** [ToolHandlers.handleGetDef]: lookup by name

    [data.defs.get(name) || data.abstractDefs.get(name)]; [None] is the
    "not found" answer. *)
Definition lookupDefId (data : ServerData) (defName0 : string) : option nat :=
  match omap_get (defs data) defName0 with
  | Some id => Some id
  | None => abstractDefs data !! defName0
  end.

Definition handleGetDef (data : ServerData) (defName0 : string) : option RimWorldDef :=
  id ← lookupDefId data defName0;
  objs data !! id.

Definition emptyData : ServerData :=
  {| objs := []; patchObjs := []; defs := []; defsByType := ∅; defsByMod := ∅;
     mods := ∅; patches := ∅; globalPatches := []; conflicts := [];
     abstractDefs := ∅ |}.

(** ** String primitives used by the patch engine *)

(** [s.includes(t)] *)
Fixpoint includes (s t : string) : bool :=
  String.prefix t s ||
  match s with
  | EmptyString => false
  | String _ s' => includes s' t
  end.

(** [s.endsWith(t)] *)
Definition endsWith (s t : string) : bool :=
  let n := String.length s in
  let k := String.length t in
  (k <=? n)%nat && String.eqb (String.substring (n - k) k s) t.

(** [s.slice(0, -k)] *)
Definition dropLast (k : nat) (s : string) : string :=
  String.substring 0 (String.length s - k) s.

(** [s.split(c)] as its first piece and the pieces after it; the
    result of [split] is never empty. *)
Fixpoint splitOn (c : ascii) (s : string) : string * list string :=
  match s with
  | EmptyString => (EmptyString, [])
  | String a s' =>
      let '(h, t) := splitOn c s' in
      if Ascii.eqb a c then (EmptyString, h :: t) else (String a h, t)
  end.

Definition split (c : ascii) (s : string) : list string :=
  let '(h, t) := splitOn c s in h :: t.

(** [parts.join(sep)] *)
Fixpoint join (sep : string) (parts : list string) : string :=
  match parts with
  | [] => ""
  | [p] => p
  | p :: rest => p +:+ sep +:+ join sep rest
  end.

Definition codeOf (c : ascii) : N := N_of_ascii c.

(** The characters [.] does not match. *)
Definition isLineTerminator (c : ascii) : bool :=
  (codeOf c =? 10)%N || (codeOf c =? 13)%N.

(** The characters [\s] matches, among code units 0..255. *)
Definition isWhitespace (c : ascii) : bool :=
  ((9 <=? codeOf c) && (codeOf c <=? 13))%N
  || (codeOf c =? 32)%N || (codeOf c =? 160)%N.

(** ** Names an array or a piece of text owns

    An array owns [length] and the indices below its length; text owns
    [length] and the indices of its characters.  An index is spelled
    in decimal digits with no leading zero. *)

Definition isDigit (c : ascii) : bool :=
  ((48 <=? codeOf c) && (codeOf c <=? 57))%N.

Fixpoint digitsValue (acc : N) (s : string) : option N :=
  match s with
  | EmptyString => Some acc
  | String c rest =>
      if isDigit c then digitsValue (10 * acc + (codeOf c - 48))%N rest
      else None
  end.

Definition asIndex (k : string) : option N :=
  match k with
  | EmptyString => None
  | String c rest =>
      if Ascii.eqb c "0" && negb (String.eqb rest "") then None
      else digitsValue 0%N k
  end.

Definition ownsAt (len : nat) (k : string) : bool :=
  String.eqb k "length"
  || match asIndex k with
     | Some i => (i <? N.of_nat len)%N
     | None => false
     end.

Definition ownKey (v : JsVal) (k : string) : bool :=
  match v with
  | JArr items => ownsAt (length items) k
  | JStr s => ownsAt (String.length s) k
  | JUndef | JNull | JObj _ => false
  end.

(** ** The patch engine: [PatchManager] *)

Module PatchManager.

(** How a statement that mutates a content tree, or the call
    [applyPatch], ends.
    - [Done]: normally, and the trees show what it left.
    - [Thrown]: with an error, whose [error.message] it carries.
    - [Unkept]: normally, but these trees cannot show what it left: it
      stored a property on an array, or stored one object or array in
      a second definition, which the two now share.
    - [UnkeptThrown]: [applyPatch] raised on one definition after its
      work on an earlier one had ended [Unkept].
    - [Beyond]: the statement is not followed.  It reads, writes or
      deletes a name that an array or a piece of text owns, where
      JavaScript finds a number, an element or a character; or it
      meets an arena index that has no record. *)
Inductive status :=
| Done
| Thrown (message : string)
| Unkept
| UnkeptThrown (message : string)
| Beyond.

(** The end of a loop whose earlier round ended [Unkept]. *)
Definition afterUnkept (st : status) : status :=
  match st with
  | Done => Unkept
  | Thrown message => UnkeptThrown message
  | other => other
  end.

(** Run [k] on the tree left by [r] when [r] ended normally; a throw
    keeps what had been written before it. *)
Definition thenS (r : JsVal * status) (k : JsVal -> JsVal * status)
  : JsVal * status :=
  match r with
  | (v, Done) => k v
  | other => other
  end.

Notation "r >>> k" := (thenS r k) (at level 50, left associativity).

(** [.replace(/^\/+/, '')] *)
Fixpoint stripLeadingSlashes (s : string) : string :=
  match s with
  | String a s' => if Ascii.eqb a "/" then stripLeadingSlashes s' else s
  | EmptyString => EmptyString
  end.

(** Length of the shortest [.*?] after an opening bracket: the number
    of characters before the first ["]"], provided no line terminator
    comes before it. *)
Fixpoint bracketBody (s : string) : option nat :=
  match s with
  | EmptyString => None
  | String a s' =>
      if Ascii.eqb a "]" then Some 0%nat
      else if isLineTerminator a then None
      else S <$> bracketBody s'
  end.

(** [.replace(/\[.*?\]/g, '')]; [skip] counts the characters of the
    current match that are still to be dropped. *)
Fixpoint removeBrackets (skip : nat) (s : string) : string :=
  match s with
  | EmptyString => EmptyString
  | String a s' =>
      match skip with
      | S k => removeBrackets k s'
      | O =>
          if Ascii.eqb a "[" then
            match bracketBody s' with
            | Some n => removeBrackets (S n) s'
            | None => String a (removeBrackets 0 s')
            end
          else String a (removeBrackets 0 s')
      end
  end.

(** [.replace(/\//g, '.')] *)
Fixpoint slashesToDots (s : string) : string :=
  match s with
  | EmptyString => EmptyString
  | String a s' =>
      String (if Ascii.eqb a "/" then "."%char else a) (slashesToDots s')
  end.

(** [.replace(/\s+/g, '')] *)
Fixpoint removeWhitespace (s : string) : string :=
  match s with
  | EmptyString => EmptyString
  | String a s' =>
      if isWhitespace a then removeWhitespace s'
      else String a (removeWhitespace s')
  end.

Definition xpathToPath (xp : string) : string :=
  removeWhitespace (slashesToDots (removeBrackets 0 (stripLeadingSlashes xp))).

(** [path.split('.')] as the parts before the last one and the last. *)
Definition pathParts (path : string) : list string * string :=
  let ps := split "." path in
  (removelast ps, List.last ps "").

Definition cannotCreate (k s : string) : string :=
  "Cannot create property '" +:+ k +:+ "' on string '" +:+ s +:+ "'".

(** How an error message names [undefined] and [null]. *)
Definition emptyName (current : JsVal) : string :=
  match current with
  | JNull => "null"
  | _ => "undefined"
  end.

Definition cannotSet (current : JsVal) (k : string) : string :=
  "Cannot set properties of " +:+ emptyName current
    +:+ " (setting '" +:+ k +:+ "')".

Definition cannotRead (current : JsVal) (k : string) : string :=
  "Cannot read properties of " +:+ emptyName current
    +:+ " (reading '" +:+ k +:+ "')".

(** [current[k] = v] in strict mode (class bodies are strict).  On
    text that does not own [k] the write raises; on an array it ends
    normally for every name but [length]. *)
Definition js_set (current : JsVal) (k : string) (v : JsVal) : JsVal * status :=
  match current with
  | JObj ps => (JObj (props_set ps k v), Done)
  | JStr s =>
      if ownKey current k then (current, Beyond)
      else (current, Thrown (cannotCreate k s))
  | JArr _ =>
      if String.eqb k "length" then (current, Beyond) else (current, Unkept)
  | JUndef | JNull => (current, Thrown (cannotSet current k))
  end.

(** [if (!current[k]) current[k] = fresh] *)
Definition ensure (k : string) (fresh : JsVal) (current : JsVal) : JsVal * status :=
  if nullish current then (current, Thrown (cannotRead current k))
  else if ownKey current k then (current, Beyond)
  else if truthy (js_get current k) then (current, Done)
  else js_set current k fresh.

(** Run [f] on the value held under [k].  When that value is an object
    or an array, [current[k]] is a reference to it and shows what [f]
    wrote; text is copied and stays as it was. *)
Definition inside (k : string) (f : JsVal -> JsVal * status) (current : JsVal)
  : JsVal * status :=
  let '(child, st) := f (js_get current k) in
  match current with
  | JObj ps => (JObj (props_set ps k child), st)
  | _ => (current, st)
  end.

(** [current[k].push(v)] where [current[k]] has just been made an array. *)
Definition pushInto (v : JsVal) (arr : JsVal) : JsVal * status :=
  match arr with
  | JArr items => (JArr (items ++ [v]), Done)
  | _ => (arr, Thrown "current[arrayName].li.push is not a function")
  end.

(** The branch of [addToContent] taken after the loop. *)
Definition addLast (lastPart : string) (v : JsVal) (current : JsVal)
  : JsVal * status :=
  if endsWith lastPart "[]" then
    let arrayName := dropLast 2 lastPart in
    ensure arrayName (JObj [("li", JArr [])]) current >>>
    inside arrayName (fun holder =>
      ensure "li" (JArr []) holder >>>
      (fun holder =>
         if isArray (js_get holder "li") then (holder, Done)
         else js_set holder "li" (JArr [js_get holder "li"])) >>>
      inside "li" (pushInto v))
  else js_set current lastPart v.

(** The loop shared by [addToContent] and [replaceInContent], followed
    by [last] on the node it stops at. *)
Fixpoint walkCreating (parts : list string) (last : JsVal -> JsVal * status)
  (current : JsVal) : JsVal * status :=
  match parts with
  | [] => last current
  | k :: rest =>
      ensure k (JObj []) current >>> inside k (walkCreating rest last)
  end.

Definition addToContent (c : JsVal) (xp : string) (v : JsVal) : JsVal * status :=
  let '(parts, lastPart) := pathParts (xpathToPath xp) in
  walkCreating parts (addLast lastPart v) c.

Definition replaceInContent (c : JsVal) (xp : string) (v : JsVal) : JsVal * status :=
  let '(parts, lastPart) := pathParts (xpathToPath xp) in
  walkCreating parts (fun current => js_set current lastPart v) c.

(** [delete current[k]]: of a name the value does not own, nothing
    is deleted. *)
Definition js_delete (current : JsVal) (k : string) : JsVal * status :=
  match current with
  | JObj ps => (JObj (props_delete ps k), Done)
  | JUndef | JNull => (current, Thrown "Cannot convert undefined or null to object")
  | JStr _ | JArr _ =>
      if ownKey current k then (current, Beyond) else (current, Done)
  end.

Fixpoint walkExisting (parts : list string) (lastPart : string) (current : JsVal)
  : JsVal * status :=
  match parts with
  | [] => js_delete current lastPart
  | k :: rest =>
      if nullish current then (current, Thrown (cannotRead current k))
      else if ownKey current k then (current, Beyond)
      else if truthy (js_get current k)
      then inside k (walkExisting rest lastPart) current
      else (current, Done)
  end.

Definition removeFromContent (c : JsVal) (xp : string) : JsVal * status :=
  let '(parts, lastPart) := pathParts (xpathToPath xp) in
  walkExisting parts lastPart c.

(** [[x].filter(Boolean)] *)
Definition filterBoolean (l : list JsVal) : list JsVal := filter (fun v => truthy v) l.

(** The [AddModExtension] case. *)
Definition addModExtension (c : JsVal) (v : JsVal) : JsVal * status :=
  ensure "modExtensions" (JObj [("li", JArr [])]) c >>>
  inside "modExtensions" (fun ext =>
    (if isArray (js_get ext "li") then (ext, Done)
     else js_set ext "li" (JArr (filterBoolean [js_get ext "li"]))) >>>
    inside "li" (pushInto v)).

(** The [switch (patch.operation)] of [applyPatchToDef]. *)
Definition mutateContent (p : PatchOperation) (c : JsVal) : JsVal * status :=
  let op := operation p in
  if String.eqb op "Add" || String.eqb op "PatchOperationAdd"
  then addToContent c (xpath p) (value p)
  else if String.eqb op "Remove" || String.eqb op "PatchOperationRemove"
  then removeFromContent c (xpath p)
  else if String.eqb op "Replace" || String.eqb op "PatchOperationReplace"
  then replaceInContent c (xpath p) (value p)
  else if String.eqb op "AddModExtension"
  then addModExtension c (value p)
  else (c, Done).

(** [JSON.parse(JSON.stringify(v))] for a [v] inside a tree: an
    [undefined] array element comes back as [null], an [undefined]
    property is dropped. *)
Fixpoint jsonCopy (v : JsVal) : JsVal :=
  match v with
  | JUndef | JNull => JNull
  | JStr s => JStr s
  | JArr items => JArr (List.map jsonCopy items)
  | JObj ps =>
      JObj ((fix copyProps (ps : list (string * JsVal)) :=
               match ps with
               | [] => []
               | (k, JUndef) :: rest => copyProps rest
               | (k, x) :: rest => (k, jsonCopy x) :: copyProps rest
               end) ps)
  end.

(** At the root [JSON.stringify(undefined)] is [undefined], which
    [JSON.parse] rejects: [None]. *)
Definition jsonRoundTrip (v : JsVal) : option JsVal :=
  match v with
  | JUndef => None
  | _ => Some (jsonCopy v)
  end.

Definition notValidJson : string :=
  String (ascii_of_N 34) "undefined" +:+ String (ascii_of_N 34) " is not valid JSON".

Definition set_obj (did : nat) (d : RimWorldDef) (data : ServerData) :=
  with_objs (fun h => <[did := d]> h) data.

Definition set_patch (pid : nat) (p : PatchOperation) (data : ServerData) :=
  with_patchObjs (fun h => <[pid := p]> h) data.

(** [applyPatchToDef(def, patch)] on the records [did] and [pid] of the
    two arenas.  The content tree takes a copy of [patch.value] where
    the program stores the value itself; see [scanDefs] for an
    operation that reaches several definitions. *)
Definition applyPatchToDef (did pid : nat) (data : ServerData)
  : ServerData * status :=
  match objs data !! did, patchObjs data !! pid with
  | Some d, Some p =>
      (* if (!def.originalContent) def.originalContent = JSON.parse(...) *)
      let snapshot :=
        if match originalContent d with
           | Some o => truthy o
           | None => false
           end
        then Some (originalContent d)
        else Some <$> jsonRoundTrip (content d) in
      match snapshot with
      | None => (data, Thrown notValidJson)
      | Some o =>
          let d := def_with_originalContent o d in
          (* def.patchHistory.push(patch); patch.appliedTo?.add(def.defName) *)
          let d := def_with_patchHistory (patchHistory d ++ [pid]) d in
          let p' := patch_with_appliedTo (appliedTo p ∪ {[defName d]}) p in
          (* switch (patch.operation) *)
          let '(c, st) := mutateContent p (content d) in
          (set_patch pid p' (set_obj did (def_with_content c d) data), st)
      end
  | _, _ => (data, Beyond)
  end.

Definition dquote : string := String (ascii_of_N 34) EmptyString.

Definition matchesXPath (d : RimWorldDef) (xp : string) : bool :=
  includes xp (type d)
  || includes xp (defName d)
  || includes xp ("defName=" +:+ dquote +:+ defName d +:+ dquote)
  || includes xp ("defName='" +:+ defName d +:+ "'").

(** The operation stores [patch.value], and the value is an object or
    an array: the definitions it is stored in share it. *)
Definition storesComposite (p : PatchOperation) : bool :=
  let op := operation p in
  (isArray (value p) || isPlainObject (value p))
  && (String.eqb op "Add" || String.eqb op "PatchOperationAdd"
      || String.eqb op "Replace" || String.eqb op "PatchOperationReplace"
      || String.eqb op "AddModExtension").

(** [for (const [defName, def] of data.defs.entries())] of [applyPatch];
    a throw leaves the loop.  [composite] is [storesComposite] of the
    operation, [held] says that an earlier definition of the loop
    holds the value already. *)
Fixpoint scanDefs (entries : list (string * nat)) (xp : string) (pid : nat)
  (composite held : bool) (data : ServerData) : ServerData * status :=
  match entries with
  | [] => (data, Done)
  | (_, did) :: rest =>
      match objs data !! did with
      | Some d =>
          if matchesXPath d xp then
            match applyPatchToDef did pid data with
            | (data', Done) =>
                let '(data'', st) :=
                  scanDefs rest xp pid composite (held || composite) data' in
                (data'', if held && composite then afterUnkept st else st)
            | (data', Unkept) =>
                let '(data'', st) := scanDefs rest xp pid composite held data' in
                (data'', afterUnkept st)
            | stopped => stopped
            end
          else scanDefs rest xp pid composite held data
      | None => (data, Beyond)
      end
  end.

Definition applyPatch (pid : nat) (data : ServerData) : ServerData * status :=
  match patchObjs data !! pid with
  | Some p =>
      match targetDef p with
      | Some t =>
          if nonempty t then
            match omap_get (defs data) t with
            | Some did => applyPatchToDef did pid data
            | None => (data, Done)
            end
          else scanDefs (defs data) (xpath p) pid (storesComposite p) false data
      | None => scanDefs (defs data) (xpath p) pid (storesComposite p) false data
      end
  | None => (data, Beyond)
  end.

Definition modsHas (data : ServerData) (modId : string) : bool :=
  bool_decide (is_Some (mods data !! modId)).

Definition checkPatchConditions (p : PatchOperation) (data : ServerData) : bool :=
  match conditions p with
  | None => true
  | Some c =>
      match modLoaded c with
      | Some ids => forallb (modsHas data) ids
      | None => true
      end
      &&
      match modNotLoaded c with
      | Some ids => forallb (fun modId => negb (modsHas data modId)) ids
      | None => true
      end
  end.

Definition incompatibleConflict (p : PatchOperation) (message : string)
  : DefConflict :=
  {| conflict_type := incompatible_patch;
     severity := sev_error;
     conflict_defName := None;
     conflict_xpath := Some (xpath p);
     conflict_mods := [patch_mod p];
     description := "Patch failed: " +:+ message;
     resolution := Some "Check patch xpath and target def existence" |}.

(** How one round of the loop of [applyPatches] ends.
    - [Next]: the registry it leaves.
    - [Lost]: the round ended and left the marks, histories and
      conflicts the registry shows, but the content of a definition it
      reached is no longer what these trees show ([Unkept]); the run
      is not followed further.
    - [Stuck]: the round is not followed ([Beyond]). *)
Inductive step :=
| Next (data : ServerData)
| Lost (data : ServerData)
| Stuck.

(** The registry a round ended with. *)
Definition reached (s : step) : option ServerData :=
  match s with
  | Next data | Lost data => Some data
  | Stuck => None
  end.

(** [patch.success = true] *)
Definition markSucceeded (pid : nat) (data : ServerData) : option ServerData :=
  p' ← patchObjs data !! pid;
  Some (set_patch pid (patch_with_result (Some true) (error p') p') data).

(** The [catch] block. *)
Definition markFailed (pid : nat) (message : string) (data : ServerData)
  : option ServerData :=
  p' ← patchObjs data !! pid;
  Some (with_conflicts (fun cs => cs ++ [incompatibleConflict p' message])
          (set_patch pid (patch_with_result (Some false) (Some message) p') data)).

Definition stepOf (shown : bool) (o : option ServerData) : step :=
  match o with
  | Some data => if shown then Next data else Lost data
  | None => Stuck
  end.

(** The body of the [for (const patch of data.globalPatches)] loop of
    [applyPatches]. *)
Definition patchStep (pid : nat) (data : ServerData) : step :=
  match patchObjs data !! pid with
  | None => Stuck
  | Some p =>
      if negb (checkPatchConditions p data) then Next data
      else
        match applyPatch pid data with
        | (data', Done) => stepOf true (markSucceeded pid data')
        | (data', Unkept) => stepOf false (markSucceeded pid data')
        | (data', Thrown message) => stepOf true (markFailed pid message data')
        | (data', UnkeptThrown message) =>
            stepOf false (markFailed pid message data')
        | (_, Beyond) => Stuck
        end
  end.

(** [None]: the run is not followed to its end. *)
Fixpoint patchLoop (pids : list nat) (data : ServerData) : option ServerData :=
  match pids with
  | [] => Some data
  | pid :: rest =>
      match patchStep pid data with
      | Next data' => patchLoop rest data'
      | Lost _ | Stuck => None
      end
  end.

(** The comparator handed to [sort]. *)
Definition patchCompare (a b : PatchOperation) : Z :=
  if negb (loadOrder (patch_mod a) =? loadOrder (patch_mod b))
  then loadOrder (patch_mod a) - loadOrder (patch_mod b)
  else order a - order b.

Definition comesBefore (heap : list PatchOperation) (x y : nat) : bool :=
  match heap !! x, heap !! y with
  | Some a, Some b => patchCompare a b <? 0
  | _, _ => false
  end.

(** [Array.prototype.sort] is stable: an element goes in front of the
    later elements that do not come strictly before it. *)
Fixpoint insertPatch (heap : list PatchOperation) (x : nat) (sorted : list nat)
  : list nat :=
  match sorted with
  | [] => [x]
  | y :: rest =>
      if comesBefore heap y x then y :: insertPatch heap x rest
      else x :: y :: rest
  end.

Definition sortPatches (heap : list PatchOperation) (pids : list nat) : list nat :=
  foldr (insertPatch heap) [] pids.

(** [if (!m.has(k)) m.set(k, []); m.get(k).push(x)] on an ordered map. *)
Fixpoint groupPush {A} (m : list (string * list A)) (k : string) (x : A)
  : list (string * list A) :=
  match m with
  | [] => [(k, [x])]
  | (k', l) :: rest =>
      if String.eqb k' k then (k', l ++ [x]) :: rest
      else (k', l) :: groupPush rest k x
  end.

(** [[...new Set(l)]]: first occurrences, in order.  Sources are
    compared as records; the program compares references, and the
    sources it holds differ in [packageId]. *)
Definition distinct (l : list ModInfo) : list ModInfo :=
  foldl (fun acc x => if bool_decide (x ∈ acc) then acc else acc ++ [x]) [] l.

Definition collisionKey (p : PatchOperation) : string :=
  match targetDef p with
  | Some t => if nonempty t then t else xpath p
  | None => xpath p
  end.

Definition xpathKey (p : PatchOperation) : string :=
  xpath p +:+ ":" +:+ operation p.

Definition lastName (l : list ModInfo) : string :=
  match List.last (Some <$> l) None with
  | Some m => name m
  | None => EmptyString
  end.

Definition collisionConflict (key : string) (xpathPatches : list PatchOperation)
  : list DefConflict :=
  match xpathPatches with
  | first :: _ :: _ =>
      let ms := distinct (patch_mod <$> xpathPatches) in
      [ {| conflict_type := patch_collision;
           severity := sev_warning;
           conflict_defName := targetDef first;
           conflict_xpath := Some (xpath first);
           conflict_mods := ms;
           description := "Multiple mods patch the same location: " +:+ key;
           resolution :=
             Some ("Last patch wins (" +:+ lastName ms
                   +:+ "). Consider load order adjustments.") |} ]
  | _ => []
  end.

(** The conflicts [detectPatchCollisions] pushes for the patches in
    application order. *)
Definition collisions (ps : list PatchOperation) : list DefConflict :=
  let successful := filter (fun p => success p = Some true) ps in
  let patchesByTarget :=
    foldl (fun m p => groupPush m (collisionKey p) p) [] successful in
  '(_, group) ← patchesByTarget;
  match group with
  | _ :: _ :: _ =>
      let byXPath := foldl (fun m p => groupPush m (xpathKey p) p) [] group in
      '(key, xpathPatches) ← byXPath;
      collisionConflict key xpathPatches
  | _ => []
  end.

Definition detectPatchCollisions (data : ServerData) : ServerData :=
  let ps := omap (fun pid => patchObjs data !! pid) (globalPatches data) in
  with_conflicts (fun cs => cs ++ collisions ps) data.

Definition applyPatches (data : ServerData) : option ServerData :=
  let data := with_globalPatches (sortPatches (patchObjs data)) data in
  data' ← patchLoop (globalPatches data) data;
  Some (detectPatchCollisions data').

End PatchManager.

(** ** Results of the recursive passes

    [resolve] and [hasCycle] recurse with no bound in the source, so
    they are given fuel here: the number of nested calls the run may
    make.  [Starved] says that number was not enough; [Outside] marks
    input outside the modelled fragment. *)
Inductive run (A : Type) :=
| Ret (a : A)
| Starved
| Outside.
Arguments Ret {A} a.
Arguments Starved {A}.
Arguments Outside {A}.

(** ** The inheritance resolver: [ReferenceAnalyzer] *)

Module ReferenceAnalyzer.

Definition sentinel : string := "Inherit.Remove".

(** [for (const key in child)] of [mergeWithParent], [merged] being the
    copy of the parent's own properties; [rec] is [mergeWithParent]. *)
Fixpoint mergeKeys (rec : JsVal -> JsVal -> option JsVal)
  (childProps merged : list (string * JsVal)) : option (list (string * JsVal)) :=
  match childProps with
  | [] => Some merged
  | (key, cv) :: rest =>
      if isStr sentinel cv then mergeKeys rec rest (props_delete merged key)
      else if isPlainObject cv then
        m ← rec (js_or (props_get merged key) (JObj [])) cv;
        mergeKeys rec rest (props_set merged key m)
      else mergeKeys rec rest (props_set merged key cv)
  end.

(** [None]: a [for ... in] over the indices of text or of an array,
    which these trees do not name. *)
Fixpoint mergeWithParent (parent child : JsVal) {struct child} : option JsVal :=
  match child with
  | JUndef | JNull => Some parent
  | JStr s =>
      if String.eqb s sentinel then Some JUndef
      else
        match parent with
        | JArr _ => Some parent
        | JObj pps => if String.eqb s EmptyString then Some (JObj pps) else None
        | JUndef | JNull | JStr _ => Some child
        end
  | JArr items =>
      match parent with
      | JArr _ => Some child
      | JObj pps => match items with [] => Some (JObj pps) | _ => None end
      | JUndef | JNull | JStr _ => Some child
      end
  | JObj cps =>
      match parent with
      | JArr _ => Some parent
      | JObj pps => JObj <$> mergeKeys mergeWithParent cps pps
      | JUndef | JNull | JStr _ => Some child
      end
  end.

(** The closure [resolve] of [resolveInheritance]; the state is the
    registry and the [resolved] set. *)
Fixpoint resolve (fuel : nat) (defName0 : string) (st : ServerData * gset string)
  : run (ServerData * gset string * JsVal) :=
  match fuel with
  | O => Starved
  | S fuel' =>
      let '(data, resolved) := st in
      if bool_decide (defName0 ∈ resolved) then
        (* return data.defs.get(defName)?.content *)
        Ret (data, resolved,
             match Registry.existingDef data defName0 with
             | Some (_, d) => content d
             | None => JUndef
             end)
      else
        match lookupDefId data defName0 with
        | None => Ret (data, resolved, JNull)
        | Some did =>
            match objs data !! did with
            | None => Outside
            | Some def =>
                match parent def with
                | Some p =>
                    if nonempty p then
                      match resolve fuel' p (data, resolved) with
                      | Ret (data1, resolved1, parentContent) =>
                          match objs data1 !! did with
                          | None => Outside
                          | Some def1 =>
                              if truthy parentContent then
                                match mergeWithParent parentContent (content def1) with
                                | Some c =>
                                    Ret (PatchManager.set_obj did (def_with_content c def1) data1,
                                         resolved1 ∪ {[defName0]}, c)
                                | None => Outside
                                end
                              else Ret (data1, resolved1 ∪ {[defName0]}, content def1)
                          end
                      | Starved => Starved
                      | Outside => Outside
                      end
                    else Ret (data, resolved ∪ {[defName0]}, content def)
                | None => Ret (data, resolved ∪ {[defName0]}, content def)
                end
            end
        end
  end.

(** [for (const defName of data.defs.keys()) resolve(defName)] *)
Fixpoint resolveAll (fuel : nat) (keys : list string) (st : ServerData * gset string)
  : run (ServerData * gset string) :=
  match keys with
  | [] => Ret st
  | k :: rest =>
      match resolve fuel k st with
      | Ret (data, resolved, _) => resolveAll fuel rest (data, resolved)
      | Starved => Starved
      | Outside => Outside
      end
  end.

Definition resolveInheritance (fuel : nat) (data : ServerData) : run ServerData :=
  match resolveAll fuel (omap_keys (defs data)) (data, ∅) with
  | Ret (data', _) => Ret data'
  | Starved => Starved
  | Outside => Outside
  end.

End ReferenceAnalyzer.

(** ** The cycle detector: [ConflictDetector] *)

Module ConflictDetector.

(** The registry with the two sets of [detectCircularDependencies].
    [visits] is not in the source: it logs every execution of
    [visited.add(defName)], that is every full visit, in order. *)
Record DfsState := {
  data : ServerData;
  visited : gset string;
  recursionStack : gset string;
  visits : list string
}.

(** [path.indexOf(x)] *)
Fixpoint indexOf (path : list string) (x : string) : option nat :=
  match path with
  | [] => None
  | y :: rest => if String.eqb y x then Some 0%nat else S <$> indexOf rest x
  end.

(** [path.slice(path.indexOf(x))]; [slice(-1)] keeps the last element. *)
Definition sliceFromIndexOf (path : list string) (x : string) : list string :=
  match indexOf path x with
  | Some i => drop i path
  | None => drop (length path - 1) path
  end.

Definition cycleConflict (def : RimWorldDef) (defName0 : string)
  (cycle : list string) : DefConflict :=
  {| conflict_type := circular_dependency;
     severity := sev_error;
     conflict_defName := Some defName0;
     conflict_xpath := None;
     conflict_mods := [mod_ def];
     description := "Circular dependency: " +:+ join " -> " cycle;
     resolution := Some "Review and break the dependency cycle" |}.

Fixpoint hasCycle (fuel : nat) (defName0 : string) (path : list string)
  (st : DfsState) : run (DfsState * bool) :=
  match fuel with
  | O => Starved
  | S fuel' =>
      if bool_decide (defName0 ∈ recursionStack st) then
        let cycle := sliceFromIndexOf path defName0 ++ [defName0] in
        Ret (match Registry.existingDef (data st) defName0 with
             | Some (_, def) =>
                 {| data := with_conflicts
                              (fun cs => cs ++ [cycleConflict def defName0 cycle])
                              (data st);
                    visited := visited st;
                    recursionStack := recursionStack st;
                    visits := visits st |}
             | None => st
             end, true)
      else if bool_decide (defName0 ∈ visited st) then Ret (st, false)
      else
        let st :=
          {| data := data st;
             visited := visited st ∪ {[defName0]};
             recursionStack := recursionStack st ∪ {[defName0]};
             visits := visits st ++ [defName0] |} in
        let leave (st : DfsState) :=
          {| data := data st;
             visited := visited st;
             recursionStack := recursionStack st ∖ {[defName0]};
             visits := visits st |} in
        match Registry.existingDef (data st) defName0 with
        | Some (_, def) =>
            (fix each (refs : list DefReference) (st : DfsState) : run (DfsState * bool) :=
               match refs with
               | [] => Ret (leave st, false)
               | ref :: rest =>
                   match hasCycle fuel' (toDef ref) (path ++ [defName0]) st with
                   | Ret (st', true) => Ret (st', true)
                   | Ret (st', false) => each rest st'
                   | Starved => Starved
                   | Outside => Outside
                   end
               end) (outgoingRefs def) st
        | None => Ret (leave st, false)
        end
  end.

(** [for (const defName of data.defs.keys())] *)
Fixpoint detectFrom (fuel : nat) (keys : list string) (st : DfsState) : run DfsState :=
  match keys with
  | [] => Ret st
  | k :: rest =>
      if bool_decide (k ∈ visited st) then detectFrom fuel rest st
      else
        match hasCycle fuel k [] st with
        | Ret (st', _) => detectFrom fuel rest st'
        | Starved => Starved
        | Outside => Outside
        end
  end.

Definition detectCircularDependencies (fuel : nat) (d : ServerData) : run DfsState :=
  detectFrom fuel (omap_keys (defs d))
    {| data := d; visited := ∅; recursionStack := ∅; visits := [] |}.

End ConflictDetector.

(** ** Notions used in the statements *)

(** Every definition record holds an object as content, as the records
    built by [processDefsFile] do. *)
Definition allObjects (data : ServerData) : bool :=
  forallb (fun d => isPlainObject (content d)) (objs data).


(** The registry [d] has the definitions of [data0]: same holders, same
    records. *)
Definition sameRegistry (data0 d : ServerData) : Prop :=
  defs d = defs data0 ∧ objs d = objs data0.

(** The log of full visits is duplicate-free and lists visited names
    only. *)
Definition visitsOnce (st : ConflictDetector.DfsState) : Prop :=
  NoDup (ConflictDetector.visits st)
  ∧ ∀ n, n ∈ ConflictDetector.visits st → n ∈ ConflictDetector.visited st.

(** A conflict that reports a cycle through [a], [b] and [c]. *)
Definition reportsCycle (a b c : string) (k : DefConflict) : Prop :=
  conflict_type k = circular_dependency ∧ severity k = sev_error
  ∧ includes (description k) a = true
  ∧ includes (description k) b = true
  ∧ includes (description k) c = true.

(** The pass over a registry whose only edges are [a -> b -> c -> a],
    before it has met one of the three names ... *)
Definition searching (data0 : ServerData) (a b c : string)
  (st : ConflictDetector.DfsState) : Prop :=
  ConflictDetector.data st = data0
  ∧ ConflictDetector.recursionStack st = ∅
  ∧ (a ∉ ConflictDetector.visited st)
  ∧ (b ∉ ConflictDetector.visited st)
  ∧ (c ∉ ConflictDetector.visited st)
  ∧ visitsOnce st.

(** ... and after it has. *)
Definition reported (data0 : ServerData) (a b c : string)
  (st : ConflictDetector.DfsState) : Prop :=
  sameRegistry data0 (ConflictDetector.data st)
  ∧ (∃ k, conflicts (ConflictDetector.data st) = conflicts data0 ++ [k]
          ∧ reportsCycle a b c k)
  ∧ a ∈ ConflictDetector.visited st
  ∧ b ∈ ConflictDetector.visited st
  ∧ c ∈ ConflictDetector.visited st
  ∧ (∀ n, n ∈ ConflictDetector.recursionStack st → n = a ∨ n = b ∨ n = c)
  ∧ visitsOnce st.

(** ** Sample registries used to exercise the model *)

Definition modA : ModInfo :=
  {| packageId := "author.a"; name := "Mod A"; loadOrder := 1;
     isCore := false; isDLC := false |}.
Definition modB : ModInfo :=
  {| packageId := "author.b"; name := "Mod B"; loadOrder := 2;
     isCore := false; isDLC := false |}.

(** [<Defs><ThingDef Name="BaseThing" Abstract="True">...</ThingDef></Defs>] *)
Definition baseThingFile : JsVal :=
  JObj [("ThingDef",
         JObj [("@_Name", JStr "BaseThing"); ("@_Abstract", JStr "True");
               ("label", JStr "thing")])].

(** Two files, from two sources, that use the name [Foo] for
    definitions of two different types. *)
Definition thingFooFile : JsVal :=
  JObj [("ThingDef", JObj [("defName", JStr "Foo"); ("label", JStr "foo")])].

Definition recipeFooFile : JsVal :=
  JObj [("RecipeDef", JObj [("defName", JStr "Foo"); ("label", JStr "make foo")])].

Definition afterBothFoo : option ServerData :=
  data ← Registry.processDefsFile thingFooFile "Defs/Things.xml" modA emptyData;
  Registry.processDefsFile recipeFooFile "Defs/Recipes.xml" modB data.


Definition mkPatch (m : ModInfo) (op xp : string) (v : JsVal)
  (target : option string) (ord : Z) : PatchOperation :=
  {| patch_id :=
       packageId m +:+ "_Patch.xml_"
         +:+ String (ascii_of_N (48 + Z.to_N ord)) EmptyString;
     patch_mod := m;
     patch_filePath := "Patches/Patch.xml"; operation := op; xpath := xp;
     value := v; success := None; error := None; targetDef := target;
     order := ord; conditions := None; appliedTo := ∅ |}.

Definition fooSelector : string :=
  "Defs/ThingDef[defName=" +:+ PatchManager.dquote +:+ "Foo"
    +:+ PatchManager.dquote +:+ "]".


Definition registryWith (d : RimWorldDef) (ps : list PatchOperation) : ServerData :=
  with_globalPatches (fun _ => seq 0 (length ps))
    (with_patchObjs (fun _ => ps) (Registry.registerDef d emptyData)).

(** A definition with a [comps] list, and an [Add] operation whose
    location ends with the array marker. *)
Definition fooWithComps : RimWorldDef :=
  Registry.mkRimDef modA "Defs/Things.xml" "ThingDef" "Foo" None false
    (JObj [("defName", JStr "Foo"); ("comps", JObj [("li", JArr [JStr "A"])])]).

Definition appendPatch : PatchOperation :=
  mkPatch modB "Add" (fooSelector +:+ "/comps[]") (JStr "X") (Some "Foo") 0.

(** Two [Add] operations of one source at one location of [Foo]. *)
Definition labelPatch (m : ModInfo) (v : string) (ord : Z) : PatchOperation :=
  mkPatch m "Add" (fooSelector +:+ "/label") (JStr v) (Some "Foo") ord.

(** Two definitions that name each other as parent. *)
Definition cyclicParents : ServerData :=
  Registry.registerDef
    (Registry.mkRimDef modA "Defs/Things.xml" "ThingDef" "B" (Some "A") false
       (JObj [("defName", JStr "B"); ("@_ParentName", JStr "A")]))
    (Registry.registerDef
       (Registry.mkRimDef modA "Defs/Things.xml" "ThingDef" "A" (Some "B") false
          (JObj [("defName", JStr "A"); ("@_ParentName", JStr "B")]))
       emptyData).

(** Three definitions with the reference edges [A -> B], [B -> C] and
    [C -> A], as [extractReferences] would leave them. *)
Definition edge (from to : string) : DefReference :=
  {| fromDef := from; toDef := to; referenceType := RefOther;
     ref_path := "comps.li" |}.

Definition triangleDef (n target : string) : RimWorldDef :=
  {| defName := n; type := "ThingDef"; parent := None; abstract := false;
     content := JObj [("defName", JStr n); ("comps", JObj [("li", JStr target)])];
     originalContent := None; filePath := "Defs/Things.xml"; mod_ := modA;
     outgoingRefs := [edge n target]; incomingRefs := []; patchHistory := [];
     def_conflicts := [] |}.

Definition triangleRegistry : ServerData :=
  Registry.registerDef (triangleDef "C" "A")
    (Registry.registerDef (triangleDef "B" "C")
       (Registry.registerDef (triangleDef "A" "B") emptyData)).

(** [Child] declares the parent [Base]. *)
Definition baseAndChild : ServerData :=
  Registry.registerDef
    (Registry.mkRimDef modA "Defs/Things.xml" "ThingDef" "Child" (Some "Base") false
       (JObj [("defName", JStr "Child"); ("hp", JStr "20")]))
    (Registry.registerDef
       (Registry.mkRimDef modA "Defs/Things.xml" "ThingDef" "Base" None false
          (JObj [("defName", JStr "Base"); ("hp", JStr "10");
                 ("tags", JArr [JStr "x"; JStr "y"])]))
       emptyData).

Definition lineFeed : string := String (ascii_of_N 10) EmptyString.

From Stdlib Require Import Sorted DecimalString.

(** ** Ingestion of several files

    [processDefsFile] has no [await] in its body, so the calls made for
    the files of all sources run one after the other in some order;
    [ingest] is such a run, each file given as its [Defs] element, its
    path and its source. *)
Fixpoint ingest (files : list (JsVal * string * ModInfo)) (data : ServerData)
  : option ServerData :=
  match files with
  | [] => Some data
  | (defsData, relPath, m) :: rest =>
      data' ← Registry.processDefsFile defsData relPath m data;
      ingest rest data'
  end.

(** The registrations of [rs], first to last. *)
Definition registerAll (rs : list RimWorldDef) (data : ServerData) : ServerData :=
  foldl (fun acc r => Registry.registerDef r acc) data rs.

(** What the maps of a registry say about the records they point to. *)
Record registryOk (data : ServerData) : Prop := {
  holder_named : ∀ n id,
    omap_get (defs data) n = Some id →
    ∃ d, objs data !! id = Some d ∧ defName d = n;
  abstract_named : ∀ n id,
    abstractDefs data !! n = Some id →
    ∃ d, objs data !! id = Some d ∧ defName d = n ∧ abstract d = true;
  abstract_has_holder : ∀ n,
    is_Some (abstractDefs data !! n) → is_Some (omap_get (defs data) n);
  bucket_typed : ∀ t l id,
    defsByType data !! t = Some l → id ∈ l →
    ∃ d, objs data !! id = Some d ∧ type d = t;
  bucket_owned : ∀ m l id,
    defsByMod data !! m = Some l → id ∈ l →
    ∃ d, objs data !! id = Some d ∧ packageId (mod_ d) = m;
  holder_in_type_bucket : ∀ n id d,
    omap_get (defs data) n = Some id → objs data !! id = Some d →
    ∃ l, defsByType data !! type d = Some l ∧ id ∈ l;
  holder_in_mod_bucket : ∀ n id d,
    omap_get (defs data) n = Some id → objs data !! id = Some d →
    ∃ l, defsByMod data !! packageId (mod_ d) = Some l ∧ id ∈ l
}.

(** Three files of two sources: [Foo] as a thing, [Foo] as a recipe, an
    abstract base. *)
Definition sampleFiles : list (JsVal * string * ModInfo) :=
  [ (thingFooFile, "Defs/Things.xml", modA);
    (recipeFooFile, "Defs/Recipes.xml", modB);
    (baseThingFile, "Defs/Base.xml", modA) ].

(** ** Notions for the content mutators *)


(** The segments [path.split('.')] of the path of a location. *)
Definition segments (xp : string) : list string :=
  split "." (PatchManager.xpathToPath xp).

(** A segment that no array and no piece of text owns: not [length]
    and not an index. *)
Definition plainKey (k : string) : bool :=
  match asIndex k with
  | Some _ => false
  | None => negb (String.eqb k "length")
  end.

(** The names the mutators read, write or delete along the location
    [xp]: the segments of its path and, where the last one ends with
    the array marker, the name before the marker. *)
Definition namesRead (xp : string) : list string :=
  let '(parts, lastPart) := PatchManager.pathParts (PatchManager.xpathToPath xp) in
  parts ++ lastPart
    :: (if endsWith lastPart "[]" then [dropLast 2 lastPart] else []).

Definition plainPath (xp : string) : bool := forallb plainKey (namesRead xp).





(** No line feed and no carriage return occurs in [s]. *)
Fixpoint noLineBreak (s : string) : bool :=
  match s with
  | EmptyString => true
  | String a s' => negb (isLineTerminator a) && noLineBreak s'
  end.

(** ["]"] occurs in [s]. *)
Fixpoint hasClose (s : string) : bool :=
  match s with
  | EmptyString => false
  | String a s' => Ascii.eqb a "]" || hasClose s'
  end.

(** Some ["["] of [s] has a ["]"] after it. *)
Fixpoint openThenClose (s : string) : bool :=
  match s with
  | EmptyString => false
  | String a s' => (Ascii.eqb a "[" && hasClose s') || openThenClose s'
  end.

(** No [undefined] occurs in the tree [v]. *)
Fixpoint defined (v : JsVal) : bool :=
  match v with
  | JUndef => false
  | JNull | JStr _ => true
  | JArr items => forallb defined items
  | JObj ps => forallb (fun kv => defined kv.2) ps
  end.

(** The order [applyPatches] sorts by: load order of the source first,
    declared order second. *)
Definition keyLe (a b : PatchOperation) : Prop :=
  loadOrder (patch_mod a) < loadOrder (patch_mod b)
  ∨ (loadOrder (patch_mod a) = loadOrder (patch_mod b) ∧ order a ≤ order b).

Definition mayPrecede (heap : list PatchOperation) (x y : nat) : Prop :=
  ∃ a b, heap !! x = Some a ∧ heap !! y = Some b ∧ keyLe a b.

Definition sameKey (heap : list PatchOperation) (x y : nat) : Prop :=
  ∃ a b, heap !! x = Some a ∧ heap !! y = Some b
         ∧ loadOrder (patch_mod a) = loadOrder (patch_mod b) ∧ order a = order b.

(** [x] occurs at a position of [l] before one of [y]. *)
Definition occursBefore (x y : nat) (l : list nat) : Prop :=
  ∃ i j, (i < j)%nat ∧ l !! i = Some x ∧ l !! j = Some y.

(** A [Remove] operation on [Foo]. *)
Definition removePatch : PatchOperation :=
  mkPatch modB "Remove" (fooSelector +:+ "/comps") JUndef (Some "Foo") 0.

(** A [Replace] operation on [Foo] whose location leads through the
    list under [comps], and a [Remove] operation that names the
    [length] of that list. *)
Definition listPatch : PatchOperation :=
  mkPatch modB "Replace" "/comps/li/glowRadius" (JStr "9") (Some "Foo") 0.

Definition lengthPatch : PatchOperation :=
  mkPatch modB "Remove" "/comps/li/length" JUndef (Some "Foo") 0.

(** The operations [data.globalPatches] holds, in its order. *)
Definition patchesInOrder (data : ServerData) : list PatchOperation :=
  omap (fun pid => patchObjs data !! pid) (globalPatches data).

(** A [Replace] operation that names [Bar], which no file declares. *)
Definition strayPatch : PatchOperation :=
  mkPatch modB "Replace" "Defs/ThingDef[defName='Bar']/label" (JStr "bar")
    (Some "Bar") 0.

(** ** Notions for the recursive passes *)

(** Every name the registry answers leads to a record of the arena. *)
Definition closedArena (data : ServerData) : Prop :=
  ∀ n did, lookupDefId data n = Some did → is_Some (objs data !! did).



(** The names the cycle detector can meet: the registered names and
    the targets of the reference edges of the records. *)
Definition refNames (data : ServerData) : gset string :=
  list_to_set (omap_keys (defs data))
  ∪ list_to_set (d ← objs data; toDef <$> outgoingRefs d).

(** [rank] goes down along every reference edge of a registered
    definition: the edges form no cycle. *)
Definition refsDescend (rank : string → nat) (data : ServerData) : Prop :=
  ∀ n id d ref,
    Registry.existingDef data n = Some (id, d) → ref ∈ outgoingRefs d →
    (rank (toDef ref) < rank n)%nat.

(** Two definitions with the edges [A -> B] and [B -> C], [C] not
    being registered, and a rank for them. *)
Definition chainRegistry : ServerData :=
  Registry.registerDef (triangleDef "B" "C")
    (Registry.registerDef (triangleDef "A" "B") emptyData).

Definition chainRank (n : string) : nat :=
  if String.eqb n "A" then 2%nat else if String.eqb n "B" then 1%nat else 0%nat.

(** The conflict list of [d'] is the one of [d] followed by reports of
    circular dependencies; with [strict], by at least one. *)
Definition reportsMore (strict : bool) (d d' : ServerData) : Prop :=
  ∃ added,
    conflicts d' = conflicts d ++ added
    ∧ Forall (fun c => conflict_type c = circular_dependency
                       ∧ severity c = sev_error) added
    ∧ (strict = true → added ≠ []).

(** What the detector's sets keep between calls: the definitions are
    the given ones, and a name on the recursion stack is registered
    and visited. *)
Definition stackOk (data0 : ServerData) (st : ConflictDetector.DfsState) : Prop :=
  sameRegistry data0 (ConflictDetector.data st)
  ∧ (∀ x, x ∈ ConflictDetector.recursionStack st →
          is_Some (Registry.existingDef data0 x))
  ∧ ConflictDetector.recursionStack st ⊆ ConflictDetector.visited st.

(** ** Conflict queries: the rest of [ConflictDetector] *)

Definition conflictTypeName (t : ConflictType) : string :=
  match t with
  | override => "override"
  | patch_collision => "patch_collision"
  | missing_dependency => "missing_dependency"
  | circular_dependency => "circular_dependency"
  | incompatible_patch => "incompatible_patch"
  | xpath_conflict => "xpath_conflict"
  end.

(** [getConflictsByType(data, type?)]; [None] is an omitted argument. *)
Definition getConflictsByType (data : ServerData) (type0 : option string)
  : list DefConflict :=
  match type0 with
  | Some t =>
      if nonempty t
      then filter (fun c => conflictTypeName (conflict_type c) = t) (conflicts data)
      else conflicts data
  | None => conflicts data
  end.

(** [x || 0] on a count read from a record. *)
Definition orZero (o : option Z) : Z :=
  match o with
  | Some n => if n =? 0 then 0 else n
  | None => 0
  end.

(** [getConflictStats]: the record of counts, keyed by type name. *)
Definition getConflictStats (data : ServerData) : gmap string Z :=
  foldl (fun stats c =>
           let k := conflictTypeName (conflict_type c) in
           <[k := orZero (stats !! k) + 1]> stats)
        ∅ (conflicts data).

(** ** [ToolHandlers.handleGetDependencyChain]

    [maxDepth] is taken as an integer when given; [referenceTypes], an
    array of type names, as the list of the types it names. *)
#[global] Instance ReferenceType_eq_dec : EqDecision ReferenceType.
Proof. solve_decision. Defined.

Record ChainParams := {
  chain_defName : string;
  maxDepth : option Z;
  referenceTypes : option (list ReferenceType)
}.

Record ChainNode := {
  node_defName : string;
  node_mod : string;
  node_type : string;
  node_depth : Z;
  dependencies : list string
}.

(** [params.maxDepth || 10] *)
Definition depthLimit (params : ChainParams) : Z :=
  match maxDepth params with
  | Some z => if z =? 0 then 10 else z
  | None => 10
  end.

(** [!params.referenceTypes || params.referenceTypes.includes(ref.referenceType)] *)
Definition wanted (params : ChainParams) (ref : DefReference) : bool :=
  match referenceTypes params with
  | Some ts => bool_decide (referenceType ref ∈ ts)
  | None => true
  end.

(** [for (const ref of def.outgoingRefs)] inside [traverse], then
    [chain.push(node)]; [rec] is the nested call [traverse(ref.toDef,
    depth + 1)] and [node] builds the entry from its [dependencies]. *)
Fixpoint eachRef (rec : string → gset string * list ChainNode
                        → run (gset string * list ChainNode))
  (params : ChainParams) (node : list string → ChainNode)
  (refs : list DefReference) (deps : list string)
  (st : gset string * list ChainNode) : run (gset string * list ChainNode) :=
  match refs with
  | [] => Ret (st.1, st.2 ++ [node deps])
  | ref :: rest =>
      if wanted params ref then
        match rec (toDef ref) st with
        | Ret st' => eachRef rec params node rest (deps ++ [toDef ref]) st'
        | Starved => Starved
        | Outside => Outside
        end
      else eachRef rec params node rest deps st
  end.

(** The closure [traverse]; the state is the [visited] set and the
    [chain] array.  The recursion has no bound but [depth] in the
    source; [fuel] is the number of nested calls the run may make. *)
Fixpoint traverse (fuel : nat) (data : ServerData) (params : ChainParams)
  (defName0 : string) (depth : Z) (st : gset string * list ChainNode)
  : run (gset string * list ChainNode) :=
  match fuel with
  | O => Starved
  | S fuel' =>
      let '(visited, chain) := st in
      if bool_decide (defName0 ∈ visited) || (depthLimit params <? depth) then Ret st
      else
        let visited := visited ∪ {[defName0]} in
        match handleGetDef data defName0 with
        | None => Ret (visited, chain)
        | Some def =>
            eachRef (fun n st => traverse fuel' data params n (depth + 1) st)
              params
              (fun deps => {| node_defName := defName0;
                              node_mod := name (mod_ def);
                              node_type := type def;
                              node_depth := depth;
                              dependencies := deps |})
              (outgoingRefs def) [] (visited, chain)
        end
  end.

Definition handleGetDependencyChain (fuel : nat) (data : ServerData)
  (params : ChainParams) : run (list ChainNode) :=
  match traverse fuel data params (chain_defName params) 0 (∅, []) with
  | Ret (_, chain) => Ret chain
  | Starved => Starved
  | Outside => Outside
  end.

(** The chain from [A] in the triangle, with the defaults. *)
Definition chainFromA : ChainParams :=
  {| chain_defName := "A"; maxDepth := None; referenceTypes := None |}.

(** ** The reference graph: the rest of [ReferenceAnalyzer]

    [ServerData] of [types.ts] carries [referenceGraph] among its
    fields; here it is kept beside the registry. *)
Record RefState := {
  rs_data : ServerData;
  referenceGraph : gmap string (list DefReference)
}.

Definition def_with_outgoingRefs (rs : list DefReference) (d : RimWorldDef) :=
  {| defName := defName d; type := type d; parent := parent d;
     abstract := abstract d; content := content d;
     originalContent := originalContent d; filePath := filePath d;
     mod_ := mod_ d; outgoingRefs := rs;
     incomingRefs := incomingRefs d; patchHistory := patchHistory d;
     def_conflicts := def_conflicts d |}.

Definition def_with_incomingRefs (rs : list DefReference) (d : RimWorldDef) :=
  {| defName := defName d; type := type d; parent := parent d;
     abstract := abstract d; content := content d;
     originalContent := originalContent d; filePath := filePath d;
     mod_ := mod_ d; outgoingRefs := outgoingRefs d;
     incomingRefs := rs; patchHistory := patchHistory d;
     def_conflicts := def_conflicts d |}.

(** [addReference]: the sets hold objects, and [ref] is a new one, so
    every [add] appends. *)
Definition addReference (fromDef0 toDef0 : string) (type0 : ReferenceType)
  (path : string) (st : RefState) : RefState :=
  let ref := {| fromDef := fromDef0; toDef := toDef0; referenceType := type0;
                ref_path := path |} in
  let data := rs_data st in
  (* const sourceDef = data.defs.get(fromDef) *)
  let data :=
    match Registry.existingDef data fromDef0 with
    | Some (id, sourceDef) =>
        PatchManager.set_obj id
          (def_with_outgoingRefs (outgoingRefs sourceDef ++ [ref]) sourceDef) data
    | None => data
    end in
  (* const targetDef = data.defs.get(toDef) || data.abstractDefs.get(toDef) *)
  let data :=
    match lookupDefId data toDef0 with
    | Some id =>
        match objs data !! id with
        | Some targetDef =>
            PatchManager.set_obj id
              (def_with_incomingRefs (incomingRefs targetDef ++ [ref]) targetDef) data
        | None => data
        end
    | None => data
    end in
  {| rs_data := data;
     referenceGraph :=
       <[fromDef0 := default [] (referenceGraph st !! fromDef0) ++ [ref]]>
         (referenceGraph st) |}.

(** Letters of a key as [/.../i] compares them: the patterns are
    ASCII, and without the [u] flag a character outside ASCII matches
    no ASCII letter. *)
Definition lowerAscii (c : ascii) : ascii :=
  let n := N_of_ascii c in
  if ((65 <=? n) && (n <=? 90))%N then ascii_of_N (n + 32) else c.

Fixpoint lowerCase (s : string) : string :=
  match s with
  | EmptyString => EmptyString
  | String c rest => String (lowerAscii c) (lowerCase rest)
  end.

(** The first of [referencePatterns] whose [key] matches, or
    ['other']. *)
Definition referenceTypeOf (key : string) : ReferenceType :=
  let k := lowerCase key in
  if endsWith k "thingdef" then RefThingDef
  else if endsWith k "recipe" then RefRecipe
  else if includes k "researchprerequisite" then RefResearch
  else if endsWith k "building" then RefBuilding
  else if endsWith k "weapon" then RefWeapon
  else if endsWith k "apparel" then RefApparel
  else if endsWith k "hediff" then RefHediff
  else if endsWith k "trait" then RefTrait
  else if includes k "workgiver" then RefWorkGiver
  else if endsWith k "job" then RefJob
  else if endsWith k "thought" then RefThought
  else if endsWith k "interaction" then RefInteraction
  else RefOther.

(** [data.defs.has(name) || data.abstractDefs.has(name)] *)
Definition registered (data : ServerData) (name0 : string) : bool :=
  bool_decide (is_Some (omap_get (defs data) name0))
  || bool_decide (is_Some (abstractDefs data !! name0)).

(** An index as a template literal prints it. *)
Definition indexText (i : nat) : string :=
  NilEmpty.string_of_uint (Nat.to_uint i).

(** [path ? `${path}.${key}` : key] *)
Definition joinPath (path key : string) : string :=
  if nonempty path then path +:+ "." +:+ key else key.

(** [for (const item of liArray)] under a key [li]. *)
Fixpoint scanLi (liArray : list JsVal) (fromDef0 currentPath : string)
  (st : RefState) : RefState :=
  match liArray with
  | [] => st
  | item :: rest =>
      scanLi rest fromDef0 currentPath
        match item with
        | JStr s =>
            if registered (rs_data st) s
            then addReference fromDef0 s RefOther currentPath st
            else st
        | _ => st
        end
  end.

(** [for (let i = 0; i < value.length; i++)] over the items of an
    array value; [rec] is [scanObjectForReferences]. *)
Fixpoint scanItems (rec : JsVal → string → string → RefState → RefState)
  (fromDef0 currentPath : string) (items : list JsVal) (i : nat)
  (st : RefState) : RefState :=
  match items with
  | [] => st
  | item :: rest =>
      scanItems rec fromDef0 currentPath rest (S i)
        match item with
        | JStr s =>
            if registered (rs_data st) s
            then addReference fromDef0 s RefOther
                   (currentPath +:+ "[" +:+ indexText i +:+ "]") st
            else st
        | JArr _ | JObj _ =>
            rec item fromDef0 (currentPath +:+ "[" +:+ indexText i +:+ "]") st
        | JUndef | JNull => st
        end
  end.

(** The body of [for (const [key, value] of Object.entries(obj))]. *)
Definition scanEntry (rec : JsVal → string → string → RefState → RefState)
  (fromDef0 path key : string) (value : JsVal) (st : RefState) : RefState :=
  let currentPath := joinPath path key in
  match value with
  | JStr s =>
      if nonempty s && registered (rs_data st) s
      then addReference fromDef0 s (referenceTypeOf key) currentPath st
      else st
  | JArr items => scanItems rec fromDef0 currentPath items 0%nat st
  | JObj _ =>
      (* const liArray = Array.isArray(value) ? value : [value], and
         [value] is no array in this branch *)
      if String.eqb key "li" then scanLi [value] fromDef0 currentPath st
      else rec value fromDef0 currentPath st
  | JUndef | JNull => st
  end.

(** The entries of an object. *)
Fixpoint scanEntries (rec : JsVal → string → string → RefState → RefState)
  (fromDef0 path : string) (ps : list (string * JsVal)) (st : RefState)
  : RefState :=
  match ps with
  | [] => st
  | (key, value) :: rest =>
      scanEntries rec fromDef0 path rest (scanEntry rec fromDef0 path key value st)
  end.

(** The entries of an array: its elements under their indices. *)
Fixpoint scanIndexed (rec : JsVal → string → string → RefState → RefState)
  (fromDef0 path : string) (items : list JsVal) (i : nat) (st : RefState)
  : RefState :=
  match items with
  | [] => st
  | value :: rest =>
      scanIndexed rec fromDef0 path rest (S i)
        (scanEntry rec fromDef0 path (indexText i) value st)
  end.

(** [scanObjectForReferences]: [if (!obj || typeof obj !== 'object')
    return], then the loop over the entries. *)
Fixpoint scanObjectForReferences (obj : JsVal) (fromDef0 path : string)
  (st : RefState) {struct obj} : RefState :=
  match obj with
  | JObj ps => scanEntries scanObjectForReferences fromDef0 path ps st
  | JArr items => scanIndexed scanObjectForReferences fromDef0 path items 0%nat st
  | JUndef | JNull | JStr _ => st
  end.

(** The body of the loop of [extractReferences] for the record [id]
    that [data.defs.values()] yields. *)
Definition extractFrom (id : nat) (st : RefState) : RefState :=
  match objs (rs_data st) !! id with
  | Some def =>
      let st :=
        if present (parent def)
        then addReference (defName def) (default "" (parent def)) RefParent
               "@ParentName" st
        else st in
      scanObjectForReferences (content def) (defName def) "" st
  | None => st
  end.

Definition extractReferences (st : RefState) : RefState :=
  foldl (fun st kv => extractFrom kv.2 st) st (defs (rs_data st)).

(** [d'] is [d] with possibly more references: name, content and
    parent are the same. *)
Definition keeps (d d' : RimWorldDef) : Prop :=
  defName d' = defName d ∧ content d' = content d ∧ parent d' = parent d
  ∧ outgoingRefs d ⊆ outgoingRefs d'
  ∧ incomingRefs d ⊆ incomingRefs d'.

(** The registry [data'] has the names and records of [data], the
    records with possibly more references. *)
Definition grows (data data' : ServerData) : Prop :=
  defs data' = defs data
  ∧ abstractDefs data' = abstractDefs data
  ∧ conflicts data' = conflicts data
  ∧ ∀ id d, objs data !! id = Some d →
      ∃ d', objs data' !! id = Some d' ∧ keeps d d'.

(** A registry as ingestion leaves it, with no reference graph yet. *)
Definition afterIngestion (files : list (JsVal * string * ModInfo)) : RefState :=
  {| rs_data := default emptyData (ingest files emptyData);
     referenceGraph := ∅ |}.

(** The sample registry with its references extracted. *)
Definition sampleWithReferences : ServerData :=
  rs_data (extractReferences (afterIngestion sampleFiles)).

(** A definition with a parent and a single list element that names
    [Foo], as the parser gives it. *)
Definition barFile : JsVal :=
  JObj [("ThingDef",
         JObj [("defName", JStr "Bar"); ("@_ParentName", JStr "BaseThing");
               ("comps", JObj [("li", JObj [("thingDef", JStr "Foo")])])])].

Definition withBar : list (JsVal * string * ModInfo) :=
  sampleFiles ++ [(barFile, "Defs/Bar.xml", modB)].

(** * Properties *)

Local Set Warnings "-clear-no-such-hyp".

(** ** Ordered maps and arenas *)

Section OrderedMap.
Context {A : Type}.
Implicit Types (m : list (string * A)) (k : string) (v : A).

Lemma omap_get_set_eq m k v : omap_get (omap_set m k v) k = Some v.
Proof.
  induction m as [|[k' v'] m IH]; simpl.
  - by rewrite String.eqb_refl.
  - destruct (String.eqb k' k) eqn:E; simpl; rewrite E; [done | apply IH].
Qed.

Lemma omap_get_set_ne m k k' v :
  k ≠ k' → omap_get (omap_set m k v) k' = omap_get m k'.
Proof.
  intros Hne. induction m as [|[k0 v0] m IH]; simpl.
  - destruct (String.eqb k k') eqn:E; [|done].
    by apply String.eqb_eq in E.
  - destruct (String.eqb k0 k) eqn:E; simpl.
    + apply String.eqb_eq in E as ->.
      destruct (String.eqb k k') eqn:E'; [|done].
      by apply String.eqb_eq in E'.
    + by rewrite IH.
Qed.
End OrderedMap.

Lemma omap_get_elem {A} (m : list (string * A)) k v :
  omap_get m k = Some v → (k, v) ∈ m.
Proof.
  induction m as [|[k' v'] m IH]; cbn [omap_get]; [done|].
  destruct (String.eqb k' k) eqn:E.
  - apply String.eqb_eq in E as ->. intros [= ->]. by left.
  - intros H. right. by apply IH.
Qed.

Lemma arena_lookup_new {A} (h : list A) (x : A) : (h ++ [x]) !! length h = Some x.
Proof. by rewrite lookup_app_r, Nat.sub_diag. Qed.

Lemma arena_lookup_old {A} (h : list A) (x : A) i y :
  h !! i = Some y → (h ++ [x]) !! i = Some y.
Proof. intros H. by rewrite lookup_app_l_Some with (x := y). Qed.

Import Registry.

(** ** The definition registry *)

Lemma existingDef_absent data k :
  omap_get (defs data) k = None → existingDef data k = None.
Proof. unfold existingDef. by intros ->. Qed.

Lemma existingDef_Some data k id d :
  omap_get (defs data) k = Some id → objs data !! id = Some d →
  existingDef data k = Some (id, d).
Proof. unfold existingDef. intros -> ?. simpl. by simplify_option_eq. Qed.

Lemma existingDef_inv data k id d :
  existingDef data k = Some (id, d) →
  omap_get (defs data) k = Some id ∧ objs data !! id = Some d.
Proof.
  unfold existingDef. intros H.
  destruct (omap_get (defs data) k) as [i|]; simpl in H; [|done].
  destruct (objs data !! i) as [x|] eqn:E; simpl in H; [|done].
  by simplify_eq.
Qed.

(** Registering into a registry that has no holder for the name. *)
Lemma registerDef_fresh data r :
  omap_get (defs data) (defName r) = None →
  objs (registerDef r data) = objs data ++ [r]
  ∧ defs (registerDef r data) = omap_set (defs data) (defName r) (length (objs data))
  ∧ conflicts (registerDef r data) = conflicts data.
Proof.
  intros Hnone. apply existingDef_absent in Hnone.
  unfold registerDef, stored, clashOf, installs. simpl. by rewrite Hnone.
Qed.

Lemma stored_fields data r :
  defName (stored data r) = defName r ∧ type (stored data r) = type r
  ∧ mod_ (stored data r) = mod_ r ∧ abstract (stored data r) = abstract r
  ∧ content (stored data r) = content r ∧ parent (stored data r) = parent r.
Proof. unfold stored. by destruct (clashOf data r). Qed.

Lemma ensureBucket_lookup k m t :
  ensureBucket k m !! t
  = if decide (k = t) then Some (default [] (m !! k)) else m !! t.
Proof.
  unfold ensureBucket. destruct (m !! k) as [l|] eqn:E; case_decide; subst;
    rewrite ?E, ?lookup_insert_eq, ?lookup_insert_ne; done.
Qed.

(** The type buckets after an installing registration. *)
Lemma registerDef_type_bucket data r t :
  installs data r = true →
  defsByType (registerDef r data) !! t
  = if decide (type r = t)
    then Some (match existingDef data (defName r) with
               | Some _ => dropNamed (objs data ++ [stored data r]) (defName r)
                             (default [] (defsByType data !! t))
               | None => default [] (defsByType data !! t)
               end ++ [length (objs data)])
    else defsByType data !! t.
Proof.
  intros Hw. unfold registerDef. cbn [defsByType]. rewrite Hw.
  case_decide as Ht.
  - subst t. rewrite lookup_alter_eq.
    destruct (existingDef data (defName r)).
    + rewrite lookup_alter_eq, ensureBucket_lookup. by case_decide.
    + rewrite ensureBucket_lookup. by case_decide.
  - rewrite lookup_alter_ne by done.
    destruct (existingDef data (defName r)).
    + rewrite lookup_alter_ne by done. rewrite ensureBucket_lookup. by case_decide.
    + rewrite ensureBucket_lookup. by case_decide.
Qed.

Lemma registerDef_mod_bucket data r m :
  installs data r = true →
  defsByMod (registerDef r data) !! m
  = if decide (packageId (mod_ r) = m)
    then Some (default [] (defsByMod data !! m) ++ [length (objs data)])
    else defsByMod data !! m.
Proof.
  intros Hw. unfold registerDef. cbn [defsByMod]. rewrite Hw.
  case_decide as Hm.
  - subst m. rewrite lookup_alter_eq, ensureBucket_lookup. by case_decide.
  - rewrite lookup_alter_ne by done. rewrite ensureBucket_lookup. by case_decide.
Qed.

(** C1. When two definitions of one name come from two different
    sources and are registered one after the other into a registry that
    has no holder for that name, the holder afterwards is the second
    one exactly when its source has the strictly greater load order,
    and the first one otherwise (equal ranks keep the first seen); the
    two registrations record exactly one conflict, an override conflict
    of severity warning naming both sources. *)
Theorem override_pair_holder data d1 d2 :
  defName d1 = defName d2 →
  packageId (mod_ d1) ≠ packageId (mod_ d2) →
  omap_get (defs data) (defName d1) = None →
  let id1 := length (objs data) in
  let id2 := S id1 in
  let data' := registerDef d2 (registerDef d1 data) in
  let c := overrideConflict d1 d2 in
  conflict_type c = override ∧ severity c = sev_warning
  ∧ conflict_mods c = [mod_ d1; mod_ d2]
  ∧ conflicts data' = conflicts data ++ [c]
  ∧ objs data' !! id1 = Some d1
  ∧ objs data' !! id2 = Some (def_with_conflicts (def_conflicts d2 ++ [c]) d2)
  ∧ omap_get (defs data') (defName d1) =
      Some (if loadOrder (mod_ d1) <? loadOrder (mod_ d2) then id2 else id1).
Proof.
  intros Hname Hpkg Hnone id1 id2 data' c.
  destruct (registerDef_fresh data d1 Hnone) as (Hobjs & Hdefs & Hconf).
  set (data1 := registerDef d1 data) in *.
  assert (Hex : existingDef data1 (defName d2) = Some (id1, d1)).
  { apply existingDef_Some.
    - rewrite Hdefs, <- Hname. apply omap_get_set_eq.
    - rewrite Hobjs. apply arena_lookup_new. }
  assert (Hlen : length (objs data1) = id2).
  { rewrite Hobjs, length_app. simpl. unfold id2, id1. lia. }
  assert (Hpk : String.eqb (packageId (mod_ d1)) (packageId (mod_ d2)) = false)
    by by apply String.eqb_neq.
  do 3 (split; [done|]).
  subst data'. unfold registerDef, stored, clashOf, installs.
  rewrite Hex, Hlen, Hpk. cbn [objs defs conflicts].
  rewrite Hconf, Hobjs, Hdefs. split; [done|].
  split; [by apply arena_lookup_old, arena_lookup_new|].
  split.
  { replace id2 with (length (objs data ++ [d1])); [apply arena_lookup_new|].
    rewrite length_app. simpl. unfold id2, id1. lia. }
  rewrite <- Hname.
  destruct (loadOrder (mod_ d1) <? loadOrder (mod_ d2)); apply omap_get_set_eq.
Qed.

Lemma override_pair_holder_witness :
  let d1 := mkRimDef modA "Defs/A.xml" "ThingDef" "Foo" None false (JObj [("defName", JStr "Foo"); ("a", JStr "1")]) in
  let d2 := mkRimDef modB "Defs/B.xml" "ThingDef" "Foo" None false (JObj [("defName", JStr "Foo"); ("a", JStr "2")]) in
  conflicts (registerDef d2 (registerDef d1 emptyData)) = [overrideConflict d1 d2]
  ∧ omap_get (defs (registerDef d2 (registerDef d1 emptyData))) "Foo" = Some 1%nat.
Proof.
  intros d1 d2.
  pose proof (override_pair_holder emptyData d1 d2 eq_refl ltac:(done) eq_refl)
    as (_ & _ & _ & Hc & _ & _ & Hd).
  split; [exact Hc | exact Hd].
Defined.

(** C6, as stated, fails: a definition ingested with the abstract flag
    into an empty registry becomes the current holder of its name and
    sits in its type bucket, besides being in the abstract lookup. *)
Lemma abstract_def_becomes_current_holder :
  ∃ data',
    processDefsFile baseThingFile "Defs/Base.xml" modA emptyData = Some data'
    ∧ omap_get (defs data') "BaseThing" = Some 0%nat
    ∧ abstract <$> objs data' !! 0%nat = Some true
    ∧ defsByType data' !! "ThingDef" = Some [0%nat]
    ∧ abstractDefs data' !! "BaseThing" = Some 0%nat.
Proof. eexists. split; [reflexivity|]. by vm_compute. Qed.

(** C6, amended. A definition registered with the abstract flag is
    always entered in the abstract lookup, the entry of its name
    there being the new record, which carries the flag. Besides, it
    follows the rule of every definition: when its name has no holder,
    or the holder's source has a strictly lower load order, it becomes
    the current holder of its name, a lookup of its name returns it,
    and it is listed last in the bucket of its type and in the bucket
    of its source; when the holder's source has the same or a higher
    load order, the holder stays, a lookup of the name returns the
    holder, and no bucket changes. In any registry, a lookup by name
    returns the current holder of the name and, when the name has
    none, the entry of the abstract lookup, if there is one. *)
Theorem abstract_def_registration data r :
  abstract r = true →
  let id := length (objs data) in
  let data' := registerDef r data in
  abstractDefs data' !! defName r = Some id
  ∧ objs data' !! id = Some (stored data r)
  ∧ abstract (stored data r) = true
  ∧ defName (stored data r) = defName r
  ∧ (existingDef data (defName r) = None
     ∨ (∃ i e, existingDef data (defName r) = Some (i, e)
               ∧ loadOrder (mod_ e) < loadOrder (mod_ r)) →
     omap_get (defs data') (defName r) = Some id
     ∧ handleGetDef data' (defName r) = Some (stored data r)
     ∧ (∃ l, defsByType data' !! type r = Some (l ++ [id]))
     ∧ (∃ l, defsByMod data' !! packageId (mod_ r) = Some (l ++ [id])))
  ∧ (∀ i e, existingDef data (defName r) = Some (i, e) →
            loadOrder (mod_ r) ≤ loadOrder (mod_ e) →
            omap_get (defs data') (defName r) = Some i
            ∧ handleGetDef data' (defName r) = Some e
            ∧ defsByType data' = defsByType data
            ∧ defsByMod data' = defsByMod data)
  ∧ (∀ registry n,
       (∀ i d, existingDef registry n = Some (i, d) →
               handleGetDef registry n = Some d)
       ∧ (omap_get (defs registry) n = None →
          handleGetDef registry n
          = i ← abstractDefs registry !! n; objs registry !! i)).
Proof.
  intros Habs id data'.
  pose proof (stored_fields data r) as (Sn & _ & _ & Sa & _).
  assert (Hnew : objs data' !! id = Some (stored data r)) by apply arena_lookup_new.
  split; [|split; [done|split; [congruence|split; [done|split; [|split]]]]].
  - subst data'. unfold registerDef. cbn [abstractDefs]. rewrite Habs.
    apply lookup_insert_eq.
  - intros Hrule.
    assert (Hw : installs data r = true).
    { unfold installs. destruct Hrule as [->|(i & e & -> & Hlt)]; [done|].
      by apply Z.ltb_lt. }
    assert (Hdefs : omap_get (defs data') (defName r) = Some id).
    { subst data'. unfold registerDef. cbn [defs]. rewrite Hw.
      apply omap_get_set_eq. }
    split; [done|]. split.
    { unfold handleGetDef, lookupDefId. by rewrite Hdefs. }
    split.
    + subst data'. rewrite registerDef_type_bucket by done.
      rewrite decide_True by done. eauto.
    + subst data'. rewrite registerDef_mod_bucket by done.
      rewrite decide_True by done. eauto.
  - intros i e Hex Hle.
    assert (Hw : installs data r = false).
    { unfold installs. rewrite Hex. apply Z.ltb_ge. lia. }
    apply existingDef_inv in Hex as [Hi He].
    assert (Hdefs : omap_get (defs data') (defName r) = Some i).
    { subst data'. unfold registerDef. cbn [defs]. by rewrite Hw. }
    split; [done|]. split.
    { unfold handleGetDef, lookupDefId. rewrite Hdefs. simpl.
      by apply arena_lookup_old. }
    subst data'. unfold registerDef. cbn [defsByType defsByMod].
    by rewrite Hw.
  - intros registry n. split.
    + intros i d [Hi Hd]%existingDef_inv.
      unfold handleGetDef, lookupDefId. by rewrite Hi.
    + intros Hn. unfold handleGetDef, lookupDefId. by rewrite Hn.
Qed.

Lemma abstract_def_registration_witness :
  let r := mkRimDef modA "Defs/Base.xml" "ThingDef" "BaseThing" None true
             (JObj [("@_Name", JStr "BaseThing"); ("@_Abstract", JStr "True")]) in
  abstract r = true
  ∧ abstractDefs (registerDef r emptyData) !! "BaseThing" = Some 0%nat
  ∧ handleGetDef (registerDef r emptyData) "BaseThing" = Some r
  ∧ ∃ l, defsByType (registerDef r emptyData) !! "ThingDef" = Some (l ++ [0%nat]).
Proof.
  intros r.
  pose proof (abstract_def_registration emptyData r eq_refl)
    as (Ha & _ & _ & _ & Hrule & _).
  destruct (Hrule (or_introl eq_refl)) as (_ & Hg & Ht & _).
  split; [reflexivity|]. split; [exact Ha|]. split; [exact Hg | exact Ht].
Defined.

(** C7, at a failing input. Source A (load order 1) defines [Foo] as a
    [ThingDef], source B (load order 2) defines [Foo] as a [RecipeDef].
    B's record displaces A's as holder of [Foo], yet A's record (arena
    index 0) is still listed in the [ThingDef] bucket: the removal
    looks in the bucket of the new type. *)
Theorem displaced_def_stays_in_old_bucket :
  ∃ data',
    afterBothFoo = Some data'
    ∧ omap_get (defs data') "Foo" = Some 1%nat
    ∧ type <$> objs data' !! 0%nat = Some "ThingDef"
    ∧ defsByType data' !! "ThingDef" = Some [0%nat]
    ∧ defsByType data' !! "RecipeDef" = Some [1%nat].
Proof. eexists. split; [reflexivity|]. by vm_compute. Qed.

(** When both definitions have the same type, the displaced record does
    leave the bucket. *)
Example displaced_def_leaves_shared_bucket :
  let d1 := mkRimDef modA "Defs/A.xml" "ThingDef" "Foo" None false (JObj []) in
  let d2 := mkRimDef modB "Defs/B.xml" "ThingDef" "Foo" None false (JObj []) in
  defsByType (registerDef d2 (registerDef d1 emptyData)) !! "ThingDef"
  = Some [1%nat].
Proof. by vm_compute. Qed.

(** C10. Ingesting a definition marked abstract always makes it the
    entry of the abstract lookup for its name, whatever entry was there
    and whatever the two load orders are, and no other entry of that
    lookup changes. The map of current holders, in contrast, takes
    the entry of the source with the strictly greater load order: the
    newcomer becomes the holder of its name when the name has no
    holder or the holder's load order is strictly lower, and the
    holder stays when the newcomer's load order is not strictly
    greater; the holders of other names stay. *)
Theorem abstract_lookup_last_writer_wins data r :
  abstract r = true →
  let id := length (objs data) in
  let data' := registerDef r data in
  abstractDefs data' !! defName r = Some id
  ∧ objs data' !! id = Some (stored data r)
  ∧ (∀ n, n ≠ defName r → abstractDefs data' !! n = abstractDefs data !! n)
  ∧ (∀ i e, omap_get (defs data) (defName r) = Some i →
            objs data !! i = Some e →
            loadOrder (mod_ r) ≤ loadOrder (mod_ e) →
            omap_get (defs data') (defName r) = Some i)
  ∧ (∀ i e, omap_get (defs data) (defName r) = Some i →
            objs data !! i = Some e →
            loadOrder (mod_ e) < loadOrder (mod_ r) →
            omap_get (defs data') (defName r) = Some id)
  ∧ (omap_get (defs data) (defName r) = None →
     omap_get (defs data') (defName r) = Some id)
  ∧ (∀ n, n ≠ defName r → omap_get (defs data') n = omap_get (defs data) n).
Proof.
  intros Habs id data'. subst data'. unfold registerDef.
  cbn [abstractDefs objs defs]. rewrite Habs.
  split; [apply lookup_insert_eq|].
  split; [apply arena_lookup_new|].
  split; [intros n Hn; by apply lookup_insert_ne|].
  split; [|split; [|split]].
  - intros i e Hi He Hle. unfold installs.
    rewrite (existingDef_Some _ _ _ _ Hi He).
    destruct (loadOrder (mod_ e) <? loadOrder (mod_ r)) eqn:Hlt; [|done].
    apply Z.ltb_lt in Hlt. lia.
  - intros i e Hi He Hlt. unfold installs.
    rewrite (existingDef_Some _ _ _ _ Hi He).
    apply Z.ltb_lt in Hlt as ->. apply omap_get_set_eq.
  - intros Hnone. unfold installs. rewrite (existingDef_absent _ _ Hnone).
    apply omap_get_set_eq.
  - intros n Hn. destruct (installs data r); [|done].
    by apply omap_get_set_ne.
Qed.

Lemma abstract_lookup_last_writer_wins_witness :
  let low := mkRimDef modA "Defs/Base.xml" "ThingDef" "BaseThing" None true (JObj []) in
  let high := mkRimDef modB "Defs/Base.xml" "ThingDef" "BaseThing" None true (JObj []) in
  let data := registerDef high emptyData in
  abstract low = true
  ∧ abstractDefs (registerDef low data) !! "BaseThing" = Some 1%nat
  ∧ omap_get (defs (registerDef low data)) "BaseThing" = Some 0%nat.
Proof.
  intros low high data.
  pose proof (abstract_lookup_last_writer_wins data low eq_refl)
    as (Ha & _ & _ & Hd & _).
  split; [reflexivity|]. split; [exact Ha|].
  apply (Hd 0%nat high); [reflexivity | reflexivity | vm_compute; discriminate].
Defined.

(** ** The patch engine *)

Import PatchManager.

(** *** Mutations keep an object an object *)






(** *** Locations that name no [length] and no index are followed *)














(** *** One application to one definition *)








(** *** The scan over all definitions *)








(** A [Replace] that stores a property on a list ends normally: the
    operation is marked succeeded and is in the history of its target,
    and no conflict is recorded; the trees do not show the property. *)
Example replace_through_list_is_marked_succeeded :
  plainPath (xpath listPatch) = true
  ∧ ∃ data' d p,
      patchStep 0 (registryWith fooWithComps [listPatch]) = Lost data'
      ∧ objs data' !! 0%nat = Some d ∧ patchObjs data' !! 0%nat = Some p
      ∧ success p = Some true ∧ error p = None
      ∧ patchHistory d = [0%nat]
      ∧ conflicts data' = [].
Proof.
  split; [by vm_compute|]. eexists _, _, _. split; [by vm_compute|].
  split; [by vm_compute|]. split; [by vm_compute|]. done.
Qed.

(** A location that names the [length] of a list is not followed. *)
Example remove_of_length_is_not_followed :
  plainPath (xpath lengthPatch) = false
  ∧ patchStep 0 (registryWith fooWithComps [lengthPatch]) = Stuck.
Proof. split; by vm_compute. Qed.

(** C4, at a failing input. Two [Add] operations of the single source
    B at one location of [Foo] both succeed; the collision pass then
    reports a patch-collision conflict for them, naming B alone under
    the description "Multiple mods patch the same location". *)
Theorem single_source_group_is_reported :
  ∃ data' c,
    applyPatches
      (registryWith fooWithComps [labelPatch modB "one" 0; labelPatch modB "two" 1])
      = Some data'
    ∧ (success <$> patchObjs data') = [Some true; Some true]
    ∧ conflicts data' = [c]
    ∧ conflict_type c = patch_collision
    ∧ severity c = sev_warning
    ∧ conflict_mods c = [modB].
Proof.
  eexists _, _. split; [by vm_compute|]. by vm_compute.
Qed.

(** Two sources at one location: one conflict, naming both, in
    application order. *)
Example two_source_group_is_reported :
  ∃ data' c,
    applyPatches
      (registryWith fooWithComps [labelPatch modB "one" 0; labelPatch modA "two" 0])
      = Some data'
    ∧ globalPatches data' = [1%nat; 0%nat]
    ∧ conflicts data' = [c]
    ∧ conflict_type c = patch_collision
    ∧ conflict_mods c = [modA; modB].
Proof. eexists _, _. split; [by vm_compute|]. by vm_compute. Qed.

(** The branch that appends is reached only when the brackets enclose
    a line break, which [.] does not match and [\s] then removes. *)
Example marker_kept_across_line_break :
  xpathToPath ("/comps[" +:+ lineFeed +:+ "]") = "comps[]"
  ∧ addToContent (content fooWithComps) ("/comps[" +:+ lineFeed +:+ "]") (JStr "X")
    = (JObj [("defName", JStr "Foo");
             ("comps", JObj [("li", JArr [JStr "A"; JStr "X"])])], Done).
Proof. by vm_compute. Qed.

(** C5, at a failing input. The location of the [Add] operation ends
    with the array marker, but [xpathToPath] deletes every bracket
    pair, the marker included, before [addToContent] looks for it. The
    operation succeeds and stores the bare value under the last path
    segment, creating no sequence; where a sequence was there, the
    value replaces it instead of joining it. *)
Theorem trailing_marker_is_stripped :
  endsWith (xpath appendPatch) "[]" = true
  ∧ xpathToPath (xpath appendPatch) = "Defs.ThingDef.comps"
  ∧ (∃ data',
       applyPatches (registryWith fooWithComps [appendPatch]) = Some data'
       ∧ success <$> patchObjs data' !! 0%nat = Some (Some true)
       ∧ content <$> objs data' !! 0%nat
         = Some (JObj [("defName", JStr "Foo");
                       ("comps", JObj [("li", JArr [JStr "A"])]);
                       ("Defs", JObj [("ThingDef", JObj [("comps", JStr "X")])])]))
  ∧ addToContent (content fooWithComps) "/comps[]" (JStr "X")
    = (JObj [("defName", JStr "Foo"); ("comps", JStr "X")], Done).
Proof.
  split; [by vm_compute|]. split; [by vm_compute|]. split; [|by vm_compute].
  eexists. split; [by vm_compute|]. by vm_compute.
Qed.

(** ** The inheritance resolver *)

Import ReferenceAnalyzer.

(** Two definitions that are each other's parent: no amount of fuel
    lets [resolve] return on either of them. *)
Lemma resolve_two_cycle data a b ida idb da db :
  lookupDefId data a = Some ida → objs data !! ida = Some da →
  parent da = Some b → nonempty b = true →
  lookupDefId data b = Some idb → objs data !! idb = Some db →
  parent db = Some a → nonempty a = true →
  ∀ fuel resolved, a ∉ resolved → b ∉ resolved →
    resolve fuel a (data, resolved) = Starved
    ∧ resolve fuel b (data, resolved) = Starved.
Proof.
  intros Ha Hda Hpa Hnb Hb Hdb Hpb Hna fuel.
  induction fuel as [|fuel IH]; intros resolved Hra Hrb; [done|].
  destruct (IH resolved Hra Hrb) as [IHa IHb].
  split; cbn [resolve].
  - rewrite bool_decide_eq_false_2 by done.
    by rewrite Ha, Hda, Hpa, Hnb, IHb.
  - rewrite bool_decide_eq_false_2 by done.
    by rewrite Hb, Hdb, Hpb, Hna, IHa.
Qed.

(** C2, at a failing input. [A] declares parent [B] and [B] declares
    parent [A]. [resolve] marks a name as resolved only after the call
    for its parent has returned, so the calls nest without end:
    whatever depth is allowed, the pass does not return. *)
Theorem cyclic_parents_never_resolve :
  ∀ fuel, resolveInheritance fuel cyclicParents = Starved.
Proof.
  intros fuel. unfold resolveInheritance.
  change (omap_keys (defs cyclicParents)) with ["A"; "B"].
  cbn [resolveAll].
  assert (H : resolve fuel "A" (cyclicParents, ∅) = Starved).
  { eapply (resolve_two_cycle cyclicParents "A" "B" 0 1); try done. }
  by rewrite H.
Qed.

(** Without a cycle the pass returns: the child takes over the
    parent's fields it does not set. *)
Example child_inherits_from_base :
  ∃ data',
    resolveInheritance 2 baseAndChild = Ret data'
    ∧ content <$> handleGetDef data' "Child"
      = Some (JObj [("defName", JStr "Child"); ("hp", JStr "20");
                    ("tags", JArr [JStr "x"; JStr "y"])]).
Proof. eexists. split; [by vm_compute|]. by vm_compute. Qed.

(** *** Merging *)




(** ** The cycle detector *)

Import ConflictDetector.

Lemma prefix_append t s : String.prefix t (t +:+ s) = true.
Proof.
  induction t as [|ch t IH]; simpl; [by destruct s|].
  by destruct (ascii_dec ch ch).
Qed.

Lemma includes_prefix s t : String.prefix t s = true → includes s t = true.
Proof. intros H. destruct s; cbn [includes]; by rewrite H. Qed.

Lemma includes_here t s : includes (t +:+ s) t = true.
Proof. apply includes_prefix, prefix_append. Qed.

Lemma includes_later p s t : includes s t = true → includes (p +:+ s) t = true.
Proof.
  intros H. induction p as [|ch p IH]; simpl; [done|].
  rewrite IH. apply orb_true_r.
Qed.

(** The description of a three-step cycle names its three members. *)
Lemma cycle_description_names x y z d :
  let text := description (cycleConflict d x [x; y; z; x]) in
  includes text x = true ∧ includes text y = true ∧ includes text z = true.
Proof.
  cbn [description cycleConflict join].
  split; [|split].
  - apply includes_later, includes_here.
  - do 3 apply includes_later. apply includes_here.
  - do 5 apply includes_later. apply includes_here.
Qed.

(** *** A registry whose only edges form one cycle of three *)

Section Triangle.
Variables (data0 : ServerData).

Lemma existingDef_key n i d :
  Registry.existingDef data0 n = Some (i, d) → n ∈ omap_keys (defs data0).
Proof.
  intros [H _]%existingDef_inv. unfold omap_keys.
  induction (defs data0) as [|[k v] m IH]; simpl in *; [done|].
  destruct (String.eqb k n) eqn:E.
  - apply String.eqb_eq in E as ->. set_solver.
  - set_solver.
Qed.

Lemma existingDef_same d n :
  sameRegistry data0 d → Registry.existingDef d n = Registry.existingDef data0 n.
Proof. intros [Hd Ho]. unfold Registry.existingDef. by rewrite Hd, Ho. Qed.

Lemma hasCycle_leaf fuel n path st :
  sameRegistry data0 (data st) →
  match Registry.existingDef data0 n with
  | Some (_, d) => outgoingRefs d = []
  | None => True
  end →
  n ∉ visited st → n ∉ recursionStack st →
  hasCycle (S fuel) n path st
  = Ret ({| data := data st; visited := visited st ∪ {[n]};
            recursionStack := recursionStack st;
            visits := visits st ++ [n] |}, false).
Proof.
  intros Hsame Hleaf Hv Hr. cbn [hasCycle].
  rewrite !bool_decide_eq_false_2 by done.
  cbn [data visited recursionStack visits].
  rewrite (existingDef_same _ _ Hsame).
  assert (Hs : (recursionStack st ∪ {[n]}) ∖ {[n]} = recursionStack st)
    by set_solver.
  destruct (Registry.existingDef data0 n) as [[i d]|].
  - rewrite Hleaf. cbn [data visited recursionStack visits]. by rewrite Hs.
  - cbn [data visited recursionStack visits]. by rewrite Hs.
Qed.

Section Cycle.
Variables (x y z : string) (ix iy iz : nat) (dx dy dz : RimWorldDef)
          (rx ry rz : DefReference).
Hypothesis Hx : Registry.existingDef data0 x = Some (ix, dx).
Hypothesis Hy : Registry.existingDef data0 y = Some (iy, dy).
Hypothesis Hz : Registry.existingDef data0 z = Some (iz, dz).
Hypothesis Hrx : outgoingRefs dx = [rx].
Hypothesis Hry : outgoingRefs dy = [ry].
Hypothesis Hrz : outgoingRefs dz = [rz].
Hypothesis Hxy : toDef rx = y.
Hypothesis Hyz : toDef ry = z.
Hypothesis Hzx : toDef rz = x.
Hypothesis Dxy : x ≠ y.
Hypothesis Dyz : y ≠ z.
Hypothesis Dzx : z ≠ x.

Lemma hasCycle_around fuel st :
  sameRegistry data0 (data st) →
  x ∉ visited st → y ∉ visited st → z ∉ visited st →
  x ∉ recursionStack st → y ∉ recursionStack st → z ∉ recursionStack st →
  hasCycle (S (S (S (S fuel)))) x [] st
  = Ret ({| data := with_conflicts
                      (fun cs => cs ++ [cycleConflict dx x [x; y; z; x]])
                      (data st);
            visited := visited st ∪ {[x]} ∪ {[y]} ∪ {[z]};
            recursionStack := recursionStack st ∪ {[x]} ∪ {[y]} ∪ {[z]};
            visits := ((visits st ++ [x]) ++ [y]) ++ [z] |}, true).
Proof.
  intros Hsame Hvx Hvy Hvz Hsx Hsy Hsz.
  cbn [hasCycle].
  rewrite !bool_decide_eq_false_2 by done.
  cbn [data visited recursionStack visits].
  rewrite (existingDef_same _ _ Hsame), Hx, Hrx, Hxy.
  rewrite !bool_decide_eq_false_2 by set_solver.
  cbn [data visited recursionStack visits].
  rewrite (existingDef_same _ _ Hsame), Hy, Hry, Hyz.
  rewrite !bool_decide_eq_false_2 by set_solver.
  cbn [data visited recursionStack visits].
  rewrite (existingDef_same _ _ Hsame), Hz, Hrz, Hzx.
  rewrite bool_decide_eq_true_2 by set_solver.
  cbn [data visited recursionStack visits].
  rewrite (existingDef_same _ _ Hsame), Hx.
  unfold sliceFromIndexOf. cbn [app indexOf]. rewrite String.eqb_refl.
  cbn [drop app]. done.
Qed.
End Cycle.

Lemma visitsOnce_add st n st' :
  visitsOnce st → n ∉ visited st →
  visits st' = visits st ++ [n] → visited st' = visited st ∪ {[n]} →
  visitsOnce st'.
Proof.
  intros [Hnd Hsub] Hn Hvs Hvd. unfold visitsOnce. rewrite Hvs, Hvd. split.
  - apply NoDup_app. split; [done|]. split; [|apply NoDup_singleton].
    intros m Hm ->%list_elem_of_singleton. by apply Hn, Hsub.
  - intros m [Hm| ->%list_elem_of_singleton]%elem_of_app; [|set_solver].
    apply Hsub in Hm. set_solver.
Qed.

Variables (a b c : string) (ia ib ic : nat) (da db dc : RimWorldDef)
          (ra rb rc : DefReference).
Hypothesis Ha : Registry.existingDef data0 a = Some (ia, da).
Hypothesis Hb : Registry.existingDef data0 b = Some (ib, db).
Hypothesis Hc : Registry.existingDef data0 c = Some (ic, dc).
Hypothesis Hra : outgoingRefs da = [ra].
Hypothesis Hrb : outgoingRefs db = [rb].
Hypothesis Hrc : outgoingRefs dc = [rc].
Hypothesis Hab : toDef ra = b.
Hypothesis Hbc : toDef rb = c.
Hypothesis Hca : toDef rc = a.
Hypothesis Dab : a ≠ b.
Hypothesis Dbc : b ≠ c.
Hypothesis Dca : c ≠ a.
Hypothesis Hleaf : ∀ n i d,
  Registry.existingDef data0 n = Some (i, d) →
  n ≠ a → n ≠ b → n ≠ c → outgoingRefs d = [].

Lemma leaf_condition n :
  n ≠ a → n ≠ b → n ≠ c →
  match Registry.existingDef data0 n with
  | Some (_, d) => outgoingRefs d = []
  | None => True
  end.
Proof.
  intros. destruct (Registry.existingDef data0 n) as [[i d]|] eqn:E; [|done].
  by eapply Hleaf.
Qed.

Lemma detectFrom_reported fuel keys : ∀ st,
  reported data0 a b c st →
  ∃ st', detectFrom (S fuel) keys st = Ret st' ∧ reported data0 a b c st'.
Proof.
  induction keys as [|k rest IH]; intros st Hrep; [by exists st|].
  cbn [detectFrom]. case_bool_decide as Hk; [by apply IH|].
  destruct Hrep as (Hsame & Hconf & Hva & Hvb & Hvc & Hstack & Honce).
  assert (k ≠ a ∧ k ≠ b ∧ k ≠ c) as (Hka & Hkb & Hkc)
    by (repeat split; intros ->; done).
  rewrite hasCycle_leaf; [|done|by apply leaf_condition|done|].
  2:{ intros Hin. destruct (Hstack _ Hin) as [?|[?|?]]; done. }
  apply IH. unfold reported. cbn [data visited recursionStack visits].
  split; [done|]. split; [done|].
  split; [set_solver|]. split; [set_solver|]. split; [set_solver|].
  split; [done|]. by eapply visitsOnce_add.
Qed.

Lemma reported_after_cycle x y z dx st :
  (x = a ∨ x = b ∨ x = c) → (y = a ∨ y = b ∨ y = c) → (z = a ∨ z = b ∨ z = c) →
  x ≠ y → y ≠ z → z ≠ x →
  searching data0 a b c st →
  reported data0 a b c
    {| data := with_conflicts
                 (fun cs => cs ++ [cycleConflict dx x [x; y; z; x]]) (data st);
       visited := visited st ∪ {[x]} ∪ {[y]} ∪ {[z]};
       recursionStack := recursionStack st ∪ {[x]} ∪ {[y]} ∪ {[z]};
       visits := ((visits st ++ [x]) ++ [y]) ++ [z] |}.
Proof.
  intros Hx Hy Hz Dxy Dyz Dzx (Hdata & Hstack & Hva & Hvb & Hvc & Honce).
  assert (Hvx : x ∉ visited st) by (destruct Hx as [->|[->| ->]]; done).
  assert (Hvy : y ∉ visited st) by (destruct Hy as [->|[->| ->]]; done).
  assert (Hvz : z ∉ visited st) by (destruct Hz as [->|[->| ->]]; done).
  assert (Hall : ∀ n, n = a ∨ n = b ∨ n = c → n = x ∨ n = y ∨ n = z).
  { intros n Hn.
    destruct Hx as [->|[->| ->]], Hy as [->|[->| ->]], Hz as [->|[->| ->]];
      try done; naive_solver. }
  unfold reported. cbn [data visited recursionStack visits].
  split; [by rewrite Hdata|]. split.
  { eexists. rewrite Hdata. split; [done|].
    destruct (cycle_description_names x y z dx) as (Ix & Iy & Iz).
    unfold reportsCycle. split; [done|]. split; [done|].
    repeat split;
      match goal with
      | |- includes _ ?n = true =>
          destruct (Hall n) as [->|[->| ->]]; [by auto|done..]
      end. }
  split; [destruct (Hall a) as [->|[->| ->]]; [by auto|set_solver..]|].
  split; [destruct (Hall b) as [->|[->| ->]]; [by auto|set_solver..]|].
  split; [destruct (Hall c) as [->|[->| ->]]; [by auto|set_solver..]|].
  split.
  { rewrite Hstack. intros n Hn.
    assert (n = x ∨ n = y ∨ n = z) as [->|[->| ->]] by set_solver; done. }
  eapply (visitsOnce_add {| data := data st;
                            visited := visited st ∪ {[x]} ∪ {[y]};
                            recursionStack := ∅;
                            visits := (visits st ++ [x]) ++ [y] |} z);
    [|set_solver|done|done].
  eapply (visitsOnce_add {| data := data st;
                            visited := visited st ∪ {[x]};
                            recursionStack := ∅;
                            visits := visits st ++ [x] |} y);
    [|set_solver|done|done].
  by eapply (visitsOnce_add st x).
Qed.

Lemma detectFrom_searching fuel keys : ∀ st,
  searching data0 a b c st →
  ∃ st',
    detectFrom (S (S (S (S fuel)))) keys st = Ret st'
    ∧ (reported data0 a b c st'
       ∨ (searching data0 a b c st' ∧ (a ∉ keys) ∧ (b ∉ keys) ∧ (c ∉ keys))).
Proof.
  induction keys as [|k rest IH]; intros st Hs.
  { exists st. split; [done|]. right. split; [done|]. set_solver. }
  pose proof Hs as (Hdata & Hstack & Hva & Hvb & Hvc & Honce).
  assert (Hsame : sameRegistry data0 (data st)) by by rewrite Hdata.
  assert (Hempty : ∀ n, n ∉ recursionStack st) by (rewrite Hstack; set_solver).
  cbn [detectFrom]. case_bool_decide as Hk.
  { assert (k ≠ a ∧ k ≠ b ∧ k ≠ c) as (Hka & Hkb & Hkc)
      by (repeat split; intros ->; done).
    destruct (IH st Hs) as (st' & Hrun & [Hrep|(Hs' & Hna & Hnb & Hnc)]);
      exists st'; (split; [done|]); [by left|].
    right. split; [done|]. set_solver. }
  destruct (decide (k = a)) as [->|Hka].
  { rewrite (hasCycle_around a b c ia ib ic da db dc ra rb rc) by done.
    destruct (detectFrom_reported (S (S (S fuel))) rest _
                (reported_after_cycle a b c da st
                   ltac:(auto) ltac:(auto) ltac:(auto) Dab Dbc Dca Hs))
      as (st' & Hrun & Hrep).
    exists st'. split; [done|]. by left. }
  destruct (decide (k = b)) as [->|Hkb].
  { rewrite (hasCycle_around b c a ib ic ia db dc da rb rc ra) by done.
    destruct (detectFrom_reported (S (S (S fuel))) rest _
                (reported_after_cycle b c a db st
                   ltac:(auto) ltac:(auto) ltac:(auto) Dbc Dca Dab Hs))
      as (st' & Hrun & Hrep).
    exists st'. split; [done|]. by left. }
  destruct (decide (k = c)) as [->|Hkc].
  { rewrite (hasCycle_around c a b ic ia ib dc da db rc ra rb) by done.
    destruct (detectFrom_reported (S (S (S fuel))) rest _
                (reported_after_cycle c a b dc st
                   ltac:(auto) ltac:(auto) ltac:(auto) Dca Dab Dbc Hs))
      as (st' & Hrun & Hrep).
    exists st'. split; [done|]. by left. }
  rewrite hasCycle_leaf; [|done|by apply leaf_condition|done|done].
  destruct (IH {| data := data st; visited := visited st ∪ {[k]};
                  recursionStack := recursionStack st;
                  visits := visits st ++ [k] |})
    as (st' & Hrun & [Hrep|(Hs' & Hna & Hnb & Hnc)]).
  { unfold searching. cbn [data visited recursionStack visits].
    split; [done|]. split; [done|].
    split; [set_solver|]. split; [set_solver|]. split; [set_solver|].
    by eapply visitsOnce_add. }
  - exists st'. split; [done|]. by left.
  - exists st'. split; [done|]. right. split; [done|]. set_solver.
Qed.

End Triangle.

(** *** Full visits in any registry

    Whatever the registry and the edges, a run of the pass that
    returns has fully visited each name at most once. *)

Lemma hasCycle_visitsOnce fuel : ∀ n path st st' b,
  hasCycle fuel n path st = Ret (st', b) → visitsOnce st → visitsOnce st'.
Proof.
  induction fuel as [|fuel IH]; intros n path st st' b Hrun Honce; [done|].
  cbn [hasCycle] in Hrun.
  case_bool_decide as Hstack.
  { destruct (Registry.existingDef (data st) n) as [[i d]|]; by simplify_eq. }
  case_bool_decide as Hvisited; [by simplify_eq|].
  set (st1 := {| data := data st; visited := visited st ∪ {[n]};
                 recursionStack := recursionStack st ∪ {[n]};
                 visits := visits st ++ [n] |}) in *.
  assert (Honce1 : visitsOnce st1) by by eapply (visitsOnce_add st n).
  destruct (Registry.existingDef (data st1) n) as [[i d]|]; [|by simplify_eq].
  revert Hrun. generalize (outgoingRefs d). clearbody st1. clear Honce.
  intros refs. revert st1 Honce1.
  induction refs as [|ref rest IHrefs]; intros st1 Honce1 Hrun.
  - by simplify_eq.
  - destruct (hasCycle fuel (toDef ref) (path ++ [n]) st1)
      as [[st2 [|]]| |] eqn:Hinner; try done.
    + simplify_eq. by eapply IH.
    + eapply IHrefs; [|done]. by eapply IH.
Qed.

Lemma detectFrom_visitsOnce fuel keys : ∀ st st',
  detectFrom fuel keys st = Ret st' → visitsOnce st → visitsOnce st'.
Proof.
  induction keys as [|k rest IH]; intros st st' Hrun Honce;
    cbn [detectFrom] in Hrun; [by simplify_eq|].
  case_bool_decide; [by eapply IH|].
  destruct (hasCycle fuel k [] st) as [[st1 b]| |] eqn:Hk; try done.
  eapply IH; [done|]. by eapply hasCycle_visitsOnce.
Qed.

Lemma detection_visits_once fuel d st :
  detectCircularDependencies fuel d = Ret st → visitsOnce st.
Proof.
  intros Hrun. eapply detectFrom_visitsOnce; [done|].
  split; [apply NoDup_nil_2 | set_solver].
Qed.

(** C9. In a registry whose outgoing reference edges are exactly
    [a -> b], [b -> c] and [c -> a], with [a], [b], [c] three different
    names, the detection pass returns, adds exactly one conflict to the
    list, a circular-dependency conflict of severity error whose
    description contains the three names, and performs the full visit
    of a definition at most once. *)
Theorem triangle_cycle_reported_once
  data0 a b c ia ib ic da db dc ra rb rc fuel :
  Registry.existingDef data0 a = Some (ia, da) →
  Registry.existingDef data0 b = Some (ib, db) →
  Registry.existingDef data0 c = Some (ic, dc) →
  outgoingRefs da = [ra] → outgoingRefs db = [rb] → outgoingRefs dc = [rc] →
  toDef ra = b → toDef rb = c → toDef rc = a →
  a ≠ b → b ≠ c → c ≠ a →
  (∀ n i d, Registry.existingDef data0 n = Some (i, d) →
            n ≠ a → n ≠ b → n ≠ c → outgoingRefs d = []) →
  ∃ st k,
    detectCircularDependencies (S (S (S (S fuel)))) data0 = Ret st
    ∧ conflicts (data st) = conflicts data0 ++ [k]
    ∧ reportsCycle a b c k
    ∧ visitsOnce st.
Proof.
  intros Ha Hb Hc Hra Hrb Hrc Hab Hbc Hca Dab Dbc Dca Hleaf.
  unfold detectCircularDependencies.
  destruct (detectFrom_searching data0 a b c ia ib ic da db dc ra rb rc
              Ha Hb Hc Hra Hrb Hrc Hab Hbc Hca Dab Dbc Dca Hleaf
              fuel (omap_keys (defs data0))
              {| data := data0; visited := ∅; recursionStack := ∅; visits := [] |})
    as (st' & Hrun & [Hrep|(_ & Hna & _)]).
  { unfold searching, visitsOnce. cbn [data visited recursionStack visits].
    repeat split; try done; try set_solver. apply NoDup_nil_2. }
  - destruct Hrep as (_ & (k & Hk & Hcyc) & _ & _ & _ & _ & Honce).
    by exists st', k.
  - exfalso. apply Hna. by eapply existingDef_key.
Qed.

Lemma triangle_cycle_reported_once_witness :
  ∃ st k,
    detectCircularDependencies 4 triangleRegistry = Ret st
    ∧ conflicts (data st) = conflicts triangleRegistry ++ [k]
    ∧ reportsCycle "A" "B" "C" k
    ∧ visitsOnce st.
Proof.
  apply (triangle_cycle_reported_once triangleRegistry "A" "B" "C" 0 1 2
           (triangleDef "A" "B") (triangleDef "B" "C") (triangleDef "C" "A")
           (edge "A" "B") (edge "B" "C") (edge "C" "A") 0); try done.
  intros n i d [Hk Ho]%existingDef_inv Hna Hnb Hnc.
  change (defs triangleRegistry)
    with [("A", 0%nat); ("B", 1%nat); ("C", 2%nat)] in Hk.
  cbn [omap_get] in Hk.
  destruct (String.eqb_spec "A" n); [done|].
  destruct (String.eqb_spec "B" n); [done|].
  destruct (String.eqb_spec "C" n); done.
Defined.

(** * Further properties *)

(** ** The registry kept by [processDefsFile] *)

Lemma omap_get_set_is_Some {A} (m : list (string * A)) k v n :
  is_Some (omap_get m n) → is_Some (omap_get (omap_set m k v) n).
Proof.
  intros H. destruct (decide (k = n)) as [->|Hne].
  - rewrite omap_get_set_eq. eauto.
  - by rewrite omap_get_set_ne.
Qed.

Lemma installs_false_holder data r :
  installs data r = false → is_Some (omap_get (defs data) (defName r)).
Proof.
  unfold installs. destruct (existingDef data (defName r)) as [[i e]|] eqn:E; [|done].
  apply existingDef_inv in E as [-> _]. eauto.
Qed.

Lemma findIndex_Some heap n l i :
  findIndex heap n l = Some i →
  ∃ id d, l !! i = Some id ∧ heap !! id = Some d ∧ defName d = n.
Proof.
  revert i. induction l as [|id l IH]; intros i H; simpl in H; [done|].
  destruct (heap !! id) as [d|] eqn:Hd.
  - destruct (String.eqb (defName d) n) eqn:E.
    + simplify_eq. apply String.eqb_eq in E. by exists id, d.
    + destruct (findIndex heap n l) as [j|] eqn:Hj; simplify_eq/=.
      by apply IH.
  - destruct (findIndex heap n l) as [j|] eqn:Hj; simplify_eq/=.
    by apply IH.
Qed.

Lemma dropNamed_subset heap n l id : id ∈ dropNamed heap n l → id ∈ l.
Proof.
  unfold dropNamed. destruct (findIndex heap n l) as [i|]; [|done].
  apply list_elem_of_delete_inv.
Qed.

Lemma dropNamed_keeps heap n l id d :
  id ∈ l → heap !! id = Some d → defName d ≠ n → id ∈ dropNamed heap n l.
Proof.
  intros Hin Hd Hne. unfold dropNamed.
  destruct (findIndex heap n l) as [i|] eqn:Hi; [|done].
  destruct (findIndex_Some _ _ _ _ Hi) as (id' & d' & Hl & Hd' & Hn').
  apply list_elem_of_lookup in Hin as [j Hj].
  assert (i ≠ j) by (intros ->; congruence).
  apply list_elem_of_lookup.
  destruct (decide (j < i)%nat).
  - exists j. by rewrite list_lookup_delete_lt.
  - exists (pred j). rewrite list_lookup_delete_ge by lia.
    by replace (S (pred j)) with j by lia.
Qed.

Lemma registerDef_defs_lookup data r n :
  omap_get (defs (registerDef r data)) n
  = if installs data r && bool_decide (defName r = n)
    then Some (length (objs data))
    else omap_get (defs data) n.
Proof.
  unfold registerDef. cbn [defs]. destruct (installs data r); simpl; [|done].
  case_bool_decide as Hn.
  - subst n. apply omap_get_set_eq.
  - by apply omap_get_set_ne.
Qed.

Lemma registerDef_ok data r : registryOk data → registryOk (registerDef r data).
Proof.
  intros Hok.
  pose proof (stored_fields data r) as (Sn & St & Sm & Sa & _).
  assert (Hnew : objs (registerDef r data) !! length (objs data)
                 = Some (stored data r)) by apply arena_lookup_new.
  assert (Hold : ∀ i d, objs data !! i = Some d →
                        objs (registerDef r data) !! i = Some d)
    by (intros; by apply arena_lookup_old).
  assert (Holder : ∀ n id, omap_get (defs (registerDef r data)) n = Some id →
            (id = length (objs data) ∧ defName r = n ∧ installs data r = true)
            ∨ (omap_get (defs data) n = Some id
               ∧ (installs data r = true → defName r ≠ n))).
  { intros n id. rewrite registerDef_defs_lookup.
    destruct (installs data r); simpl; [|by right].
    case_bool_decide; intros ?; simplify_eq; [by left | by right]. }
  split.
  - intros n id [(-> & <- & _)|[Hn _]]%Holder; [by eauto|].
    destruct (holder_named _ Hok _ _ Hn) as (d & Hd & Hdn). eauto.
  - intros n id. unfold registerDef. cbn [abstractDefs].
    destruct (abstract r) eqn:Ha.
    + destruct (decide (defName r = n)) as [<-|Hne].
      * rewrite lookup_insert_eq. intros ?; simplify_eq.
        exists (stored data r). by rewrite Sa.
      * rewrite lookup_insert_ne by done. intros Hn.
        destruct (abstract_named _ Hok _ _ Hn) as (d & Hd & ?). eauto.
    + intros Hn. destruct (abstract_named _ Hok _ _ Hn) as (d & Hd & ?). eauto.
  - intros n Hn. rewrite registerDef_defs_lookup.
    destruct (installs data r && bool_decide (defName r = n)) eqn:E; [by eauto|].
    unfold registerDef in Hn. cbn [abstractDefs] in Hn.
    destruct (abstract r); [|by apply (abstract_has_holder _ Hok)].
    destruct (decide (defName r = n)) as [<-|Hne].
    + rewrite bool_decide_eq_true_2, andb_true_r in E by done.
      by apply installs_false_holder.
    + rewrite lookup_insert_ne in Hn by done. by apply (abstract_has_holder _ Hok).
  - intros t l id Hl Hid.
    destruct (installs data r) eqn:Hw.
    2:{ unfold registerDef in Hl. cbn [defsByType] in Hl. rewrite Hw in Hl.
        destruct (bucket_typed _ Hok _ _ _ Hl Hid) as (d & Hd & ?). eauto. }
    rewrite registerDef_type_bucket in Hl by done.
    case_decide as Ht.
    2:{ destruct (bucket_typed _ Hok _ _ _ Hl Hid) as (d & Hd & ?). eauto. }
    simplify_eq. apply elem_of_app in Hid as [Hid| ->%list_elem_of_singleton].
    2:{ exists (stored data r). by rewrite St. }
    assert (id ∈ default [] (defsByType data !! type r)) as Hin.
    { destruct (existingDef data (defName r)); [by eapply dropNamed_subset|done]. }
    destruct (defsByType data !! type r) as [l0|] eqn:E; [|set_solver].
    destruct (bucket_typed _ Hok _ _ _ E Hin) as (d & Hd & ?). eauto.
  - intros m l id Hl Hid.
    destruct (installs data r) eqn:Hw.
    2:{ unfold registerDef in Hl. cbn [defsByMod] in Hl. rewrite Hw in Hl.
        destruct (bucket_owned _ Hok _ _ _ Hl Hid) as (d & Hd & ?). eauto. }
    rewrite registerDef_mod_bucket in Hl by done.
    case_decide as Hm.
    2:{ destruct (bucket_owned _ Hok _ _ _ Hl Hid) as (d & Hd & ?). eauto. }
    simplify_eq. apply elem_of_app in Hid as [Hin| ->%list_elem_of_singleton].
    2:{ exists (stored data r). by rewrite Sm. }
    destruct (defsByMod data !! packageId (mod_ r)) as [l0|] eqn:E; [|set_solver].
    destruct (bucket_owned _ Hok _ _ _ E Hin) as (d & Hd & ?). eauto.
  - intros n id d [(-> & <- & Hw)|[Hn Hne]]%Holder Hd.
    + rewrite Hnew in Hd. simplify_eq. rewrite St.
      rewrite registerDef_type_bucket by done. rewrite decide_True by done.
      eexists. split; [done|]. set_solver.
    + destruct (holder_named _ Hok _ _ Hn) as (d0 & Hd0 & Hdn).
      rewrite (Hold _ _ Hd0) in Hd. simplify_eq.
      destruct (holder_in_type_bucket _ Hok _ _ _ Hn Hd0) as (l & Hl & Hin).
      destruct (installs data r) eqn:Hw.
      2:{ unfold registerDef. cbn [defsByType]. rewrite Hw. eauto. }
      rewrite registerDef_type_bucket by done. case_decide as Ht; [|eauto].
      eexists. split; [done|]. rewrite Hl. simpl.
      apply elem_of_app. left.
      destruct (existingDef data (defName r)); [|done].
      eapply dropNamed_keeps; [done|by apply arena_lookup_old|].
      intros Heq. by apply Hne.
  - intros n id d [(-> & <- & Hw)|[Hn Hne]]%Holder Hd.
    + rewrite Hnew in Hd. simplify_eq. rewrite Sm.
      rewrite registerDef_mod_bucket by done. rewrite decide_True by done.
      eexists. split; [done|]. set_solver.
    + destruct (holder_named _ Hok _ _ Hn) as (d0 & Hd0 & Hdn).
      rewrite (Hold _ _ Hd0) in Hd. simplify_eq.
      destruct (holder_in_mod_bucket _ Hok _ _ _ Hn Hd0) as (l & Hl & Hin).
      destruct (installs data r) eqn:Hw.
      2:{ unfold registerDef. cbn [defsByMod]. rewrite Hw. eauto. }
      rewrite registerDef_mod_bucket by done. case_decide as Ht; [|eauto].
      eexists. split; [done|]. rewrite Hl. simpl.
      set_solver.
Qed.

Lemma processDef_ok m relPath defType def data data' :
  registryOk data → processDef m relPath defType def data = Some data' →
  registryOk data'.
Proof.
  intros Hok H. unfold processDef in H.
  repeat case_match; simplify_eq; try done; by apply registerDef_ok.
Qed.

Lemma processDefArray_ok m relPath defType defArray : ∀ data data',
  registryOk data → processDefArray m relPath defType defArray data = Some data' →
  registryOk data'.
Proof.
  induction defArray as [|def rest IH]; intros data data' Hok H; simpl in H;
    [by simplify_eq|].
  destruct (processDef m relPath defType def data) as [data1|] eqn:E; [|done].
  simpl in H. eapply IH; [|done]. by eapply processDef_ok.
Qed.

Lemma processDefsFile_ok defsData relPath m data data' :
  registryOk data → processDefsFile defsData relPath m data = Some data' →
  registryOk data'.
Proof.
  intros Hok H. destruct defsData as [| | s |items|entries]; simplify_eq/=; [done|].
  revert data data' Hok H.
  induction entries as [|[defType defsV] rest IH]; intros data data' Hok H;
    simpl in H; [by simplify_eq|].
  match type of H with (?x ≫= _) = _ => destruct x as [data1|] eqn:E end; [|done].
  simpl in H. eapply IH; [|done].
  destruct defsV as [| | s |items|ps].
  - by simplify_eq.
  - by apply (processDefArray_ok m relPath defType [JNull] data).
  - by simplify_eq.
  - by apply (processDefArray_ok m relPath defType items data).
  - by apply (processDefArray_ok m relPath defType [JObj ps] data).
Qed.

Lemma emptyData_ok : registryOk emptyData.
Proof. split; intros *; try done; by intros [? ?]. Qed.

Lemma ingest_ok files : ∀ data data',
  registryOk data → ingest files data = Some data' → registryOk data'.
Proof.
  induction files as [|[[defsData relPath] m] rest IH]; intros data data' Hok H;
    simpl in H; [by simplify_eq|].
  destruct (processDefsFile defsData relPath m data) as [data1|] eqn:E; [|done].
  simpl in H. eapply IH; [|done]. by eapply processDefsFile_ok.
Qed.

(** X1. After any run of ingestion from the empty registry, a lookup
    by name answers with a definition of that name. *)
Theorem lookup_answers_with_that_name files data n d :
  ingest files emptyData = Some data →
  handleGetDef data n = Some d →
  defName d = n.
Proof.
  intros Hrun Hget. pose proof (ingest_ok _ _ _ emptyData_ok Hrun) as Hok.
  unfold handleGetDef, lookupDefId in Hget.
  destruct (omap_get (defs data) n) as [id|] eqn:Hn; simpl in Hget.
  - destruct (holder_named _ Hok _ _ Hn) as (d' & Hd' & ?). congruence.
  - destruct (abstractDefs data !! n) as [id|] eqn:Ha; simpl in Hget; [|done].
    destruct (abstract_named _ Hok _ _ Ha) as (d' & Hd' & ? & _). congruence.
Qed.

Lemma lookup_answers_with_that_name_witness :
  ∃ data d,
    ingest sampleFiles emptyData = Some data
    ∧ handleGetDef data "Foo" = Some d ∧ defName d = "Foo".
Proof.
  eexists _, _. split; [by vm_compute|]. split; [by vm_compute|].
  eapply (lookup_answers_with_that_name sampleFiles _ "Foo"); by vm_compute.
Defined.

(** X2. After any run of ingestion from the empty registry, every name
    of the abstract lookup also has a current holder, so the lookup by
    name is decided by the map of current holders alone: its fallback
    to the abstract lookup never answers. *)
Theorem abstract_fallback_is_never_used files data :
  ingest files emptyData = Some data →
  ∀ n,
    (is_Some (abstractDefs data !! n) → is_Some (omap_get (defs data) n))
    ∧ lookupDefId data n = omap_get (defs data) n.
Proof.
  intros Hrun n. pose proof (ingest_ok _ _ _ emptyData_ok Hrun) as Hok.
  split; [apply (abstract_has_holder _ Hok)|].
  unfold lookupDefId. destruct (omap_get (defs data) n) eqn:Hn; [done|].
  destruct (abstractDefs data !! n) eqn:Ha; [|done].
  destruct (abstract_has_holder _ Hok n) as [? ?]; [eauto|congruence].
Qed.

Lemma abstract_fallback_is_never_used_witness :
  ∃ data,
    ingest sampleFiles emptyData = Some data
    ∧ is_Some (abstractDefs data !! "BaseThing")
    ∧ lookupDefId data "BaseThing" = omap_get (defs data) "BaseThing".
Proof.
  eexists. split; [by vm_compute|].
  split; [by vm_compute; eauto|].
  eapply (abstract_fallback_is_never_used sampleFiles). by vm_compute.
Defined.

(** X3. After any run of ingestion from the empty registry, the
    current holder of a name is listed in the bucket of its own type
    and in the bucket of its own source. *)
Theorem holder_is_listed_in_its_buckets files data n id :
  ingest files emptyData = Some data →
  omap_get (defs data) n = Some id →
  ∃ d byType byMod,
    objs data !! id = Some d
    ∧ defsByType data !! type d = Some byType ∧ id ∈ byType
    ∧ defsByMod data !! packageId (mod_ d) = Some byMod ∧ id ∈ byMod.
Proof.
  intros Hrun Hn. pose proof (ingest_ok _ _ _ emptyData_ok Hrun) as Hok.
  destruct (holder_named _ Hok _ _ Hn) as (d & Hd & _).
  destruct (holder_in_type_bucket _ Hok _ _ _ Hn Hd) as (l & ? & ?).
  destruct (holder_in_mod_bucket _ Hok _ _ _ Hn Hd) as (l' & ? & ?).
  by exists d, l, l'.
Qed.

Lemma holder_is_listed_in_its_buckets_witness :
  ∃ data d byType byMod,
    ingest sampleFiles emptyData = Some data
    ∧ objs data !! 1%nat = Some d
    ∧ defsByType data !! type d = Some byType ∧ 1%nat ∈ byType
    ∧ defsByMod data !! packageId (mod_ d) = Some byMod ∧ 1%nat ∈ byMod.
Proof.
  destruct (holder_is_listed_in_its_buckets sampleFiles
              (default emptyData (ingest sampleFiles emptyData)) "Foo" 1%nat)
    as (d & l & l' & H); [by vm_compute..|].
  by exists (default emptyData (ingest sampleFiles emptyData)), d, l, l'.
Defined.

(** X4. After any run of ingestion from the empty registry, a type
    bucket lists only records of that type and a source bucket only
    records of that source. *)
Theorem buckets_hold_their_own_kind files data :
  ingest files emptyData = Some data →
  (∀ t l id, defsByType data !! t = Some l → id ∈ l →
             ∃ d, objs data !! id = Some d ∧ type d = t)
  ∧ (∀ m l id, defsByMod data !! m = Some l → id ∈ l →
               ∃ d, objs data !! id = Some d ∧ packageId (mod_ d) = m).
Proof.
  intros Hrun. pose proof (ingest_ok _ _ _ emptyData_ok Hrun) as Hok.
  split; [apply (bucket_typed _ Hok) | apply (bucket_owned _ Hok)].
Qed.

Lemma buckets_hold_their_own_kind_witness :
  ∃ data d,
    ingest sampleFiles emptyData = Some data
    ∧ objs data !! 0%nat = Some d ∧ type d = "ThingDef".
Proof.
  destruct (buckets_hold_their_own_kind sampleFiles
              (default emptyData (ingest sampleFiles emptyData)))
    as [Hty _]; [by vm_compute|].
  destruct (Hty "ThingDef" [0%nat; 2%nat] 0%nat) as (d & Hd & Ht);
    [by vm_compute | set_solver |].
  by exists (default emptyData (ingest sampleFiles emptyData)), d.
Defined.

(** *** Any number of registrations *)

Lemma registerAll_snoc rs r data :
  registerAll (rs ++ [r]) data = registerDef r (registerAll rs data).
Proof. unfold registerAll. by rewrite foldl_app. Qed.

Lemma registerAll_arena rs :
  length (objs (registerAll rs emptyData)) = length rs
  ∧ ∀ i r, rs !! i = Some r →
      ∃ d, objs (registerAll rs emptyData) !! i = Some d
           ∧ defName d = defName r ∧ mod_ d = mod_ r ∧ content d = content r.
Proof.
  induction rs as [|r rs [IHlen IH]] using rev_ind; [done|].
  rewrite registerAll_snoc. cbn [registerDef objs].
  split; [rewrite !length_app, IHlen; done|].
  intros i r' Hi. apply lookup_app_Some in Hi as [Hi|[Hge Hi]].
  - destruct (IH _ _ Hi) as (d & Hd & ?). exists d. split; [|done].
    by apply arena_lookup_old.
  - apply list_lookup_singleton_Some in Hi as [Hi ->].
    assert (i = length (objs (registerAll rs emptyData))) as -> by lia.
    exists (stored (registerAll rs emptyData) r').
    split; [apply arena_lookup_new|].
    pose proof (stored_fields (registerAll rs emptyData) r') as (? & ? & ? & ? & ? & ?).
    done.
Qed.

Lemma holder_choice rs n :
  match omap_get (defs (registerAll rs emptyData)) n with
  | None => ∀ r, r ∈ rs → defName r ≠ n
  | Some id =>
      ∃ r, rs !! id = Some r ∧ defName r = n
           ∧ ∀ j r', rs !! j = Some r' → defName r' = n →
               loadOrder (mod_ r') ≤ loadOrder (mod_ r)
               ∧ (loadOrder (mod_ r') = loadOrder (mod_ r) → (id ≤ j)%nat)
  end.
Proof.
  induction rs as [|r rs IH] using rev_ind; [by intros r ?%elem_of_nil|].
  destruct (registerAll_arena rs) as [Hlen Harena].
  rewrite registerAll_snoc, registerDef_defs_lookup, Hlen.
  set (data := registerAll rs emptyData) in *.
  destruct (decide (defName r = n)) as [Hn|Hn].
  2:{ rewrite bool_decide_eq_false_2, andb_false_r by done.
      destruct (omap_get (defs data) n) as [id|].
      - destruct IH as (w & Hw & Hwn & Hmax). exists w.
        split; [by apply lookup_app_l_Some|]. split; [done|].
        intros j r' [Hj|[_ Hj]]%lookup_app_Some Hr'; [by apply Hmax|].
        apply list_lookup_singleton_Some in Hj as [_ ->]. done.
      - intros r' [Hr'| ->%list_elem_of_singleton]%elem_of_app; [by apply IH|done]. }
  rewrite bool_decide_eq_true_2, andb_true_r by done.
  unfold installs. rewrite Hn.
  destruct (omap_get (defs data) n) as [id|] eqn:Hid.
  - destruct IH as (w & Hw & Hwn & Hmax).
    destruct (Harena _ _ Hw) as (d & Hd & _ & Hdm & _).
    rewrite (existingDef_Some _ _ _ _ Hid Hd), Hdm.
    destruct (loadOrder (mod_ w) <? loadOrder (mod_ r)) eqn:Hlt.
    + apply Z.ltb_lt in Hlt. exists r.
      split; [by rewrite lookup_app_r, Nat.sub_diag|]. split; [done|].
      intros j r' [Hj|[Hge Hj]]%lookup_app_Some Hr'.
      * destruct (Hmax _ _ Hj Hr') as [Hle _]. lia.
      * apply list_lookup_singleton_Some in Hj as [_ ->]. split; [lia|]. intros _. lia.
    + apply Z.ltb_ge in Hlt. exists w.
      split; [by apply lookup_app_l_Some|]. split; [done|].
      intros j r' [Hj|[Hge Hj]]%lookup_app_Some Hr'; [by apply Hmax|].
      apply list_lookup_singleton_Some in Hj as [_ ->]. split; [done|].
      intros _. apply lookup_lt_Some in Hw. lia.
  - rewrite (existingDef_absent _ _ Hid). exists r.
    split; [by rewrite lookup_app_r, Nat.sub_diag|]. split; [done|].
    intros j r' [Hj|[Hge Hj]]%lookup_app_Some Hr'.
    + exfalso. eapply IH; [|done]. by eapply list_elem_of_lookup_2.
    + apply list_lookup_singleton_Some in Hj as [_ ->]. split; [lia|]. intros _. lia.
Qed.

(** X5. After the registrations of any list of definitions into the
    empty registry, a name has a holder exactly when some definition
    of the list has that name, and the holder is then the definition
    of that name whose source has the greatest load order, the first
    registered among equals; the record held is that definition's. *)
Theorem holder_is_first_of_highest_rank rs n :
  match omap_get (defs (registerAll rs emptyData)) n with
  | None => ∀ r, r ∈ rs → defName r ≠ n
  | Some id =>
      ∃ r d, rs !! id = Some r ∧ defName r = n
             ∧ objs (registerAll rs emptyData) !! id = Some d
             ∧ mod_ d = mod_ r ∧ content d = content r
             ∧ ∀ j r', rs !! j = Some r' → defName r' = n →
                 loadOrder (mod_ r') ≤ loadOrder (mod_ r)
                 ∧ (loadOrder (mod_ r') = loadOrder (mod_ r) → (id ≤ j)%nat)
  end.
Proof.
  pose proof (holder_choice rs n) as H.
  destruct (omap_get (defs (registerAll rs emptyData)) n) as [id|]; [|done].
  destruct H as (r & Hr & Hn & Hmax).
  destruct (registerAll_arena rs) as [_ Harena].
  destruct (Harena _ _ Hr) as (d & Hd & _ & Hm & Hc).
  by exists r, d.
Qed.

(** ** Locations and paths *)

Lemma removeWhitespace_chars s :
  Forall (fun a => isWhitespace a = false)
    (list_ascii_of_string (removeWhitespace s)).
Proof.
  induction s as [|a s IH]; simpl; [constructor|].
  destruct (isWhitespace a) eqn:E; [done|]. simpl. by constructor.
Qed.

Lemma removeWhitespace_keeps (P : ascii → Prop) s :
  Forall P (list_ascii_of_string s) →
  Forall P (list_ascii_of_string (removeWhitespace s)).
Proof.
  induction s as [|a s IH]; simpl; [done|].
  intros [Ha Hs]%Forall_cons. destruct (isWhitespace a); simpl; auto.
Qed.

Lemma slashesToDots_chars s :
  Forall (fun a => a ≠ "/"%char) (list_ascii_of_string (slashesToDots s)).
Proof.
  induction s as [|a s IH]; simpl; [constructor|].
  constructor; [|done]. destruct (Ascii.eqb_spec a "/"); [done|done].
Qed.

(** X7. The path computed from a location never contains a slash or a
    white-space character: its only separators are dots. *)
Theorem path_has_no_slash_or_space xp :
  Forall (fun a => a ≠ "/"%char ∧ isWhitespace a = false)
    (list_ascii_of_string (xpathToPath xp)).
Proof.
  unfold xpathToPath. apply Forall_and. split.
  - apply removeWhitespace_keeps, slashesToDots_chars.
  - apply removeWhitespace_chars.
Qed.

(** *** The array marker does not survive the translation *)

Lemma whitespace_is_no_bracket a :
  isWhitespace a = true → Ascii.eqb a "[" = false ∧ Ascii.eqb a "]" = false.
Proof. destruct a as [[] [] [] [] [] [] [] []]; by vm_compute. Qed.

Lemma hasClose_removeBrackets s : ∀ k,
  hasClose (removeBrackets k s) = true → hasClose s = true.
Proof.
  induction s as [|a s IH]; intros k H; simpl in *; [done|].
  destruct k as [|k].
  - destruct (Ascii.eqb a "[") eqn:Ea.
    + destruct (bracketBody s) as [n|].
      * apply IH in H. rewrite H. apply orb_true_r.
      * simpl in H.
        apply orb_prop in H as [H|H]; [by rewrite H|].
        apply IH in H. rewrite H. apply orb_true_r.
    + simpl in H. apply orb_prop in H as [H|H]; [by rewrite H|].
      apply IH in H. rewrite H. apply orb_true_r.
  - apply IH in H. rewrite H. apply orb_true_r.
Qed.

Lemma bracketBody_None s :
  noLineBreak s = true → bracketBody s = None → hasClose s = false.
Proof.
  induction s as [|a s IH]; simpl; [done|].
  intros [Ha Hs]%andb_prop Hb.
  destruct (Ascii.eqb a "]"); [done|]. simpl.
  apply negb_true_iff in Ha. rewrite Ha in Hb.
  destruct (bracketBody s); [done|]. by apply IH.
Qed.

Lemma removeBrackets_closed s :
  noLineBreak s = true → ∀ k, openThenClose (removeBrackets k s) = false.
Proof.
  induction s as [|a s IH]; intros Hs k; simpl in *; [done|].
  apply andb_prop in Hs as [Ha Hs].
  destruct k as [|k]; [|by apply IH].
  destruct (Ascii.eqb a "[") eqn:Ea.
  - destruct (bracketBody s) as [n|] eqn:Hb; [by apply IH|].
    simpl. rewrite Ea, IH by done. simpl.
    destruct (hasClose (removeBrackets 0 s)) eqn:Hc; [|done].
    apply hasClose_removeBrackets in Hc.
    by rewrite (bracketBody_None s Hs Hb) in Hc.
  - simpl. rewrite Ea. simpl. by apply IH.
Qed.

Lemma stripLeadingSlashes_noLineBreak s :
  noLineBreak s = true → noLineBreak (stripLeadingSlashes s) = true.
Proof.
  induction s as [|a s IH]; simpl; [done|].
  intros H. destruct (Ascii.eqb a "/"); [|done].
  apply andb_prop in H as [_ H]. by apply IH.
Qed.

Lemma slashesToDots_hasClose s : hasClose (slashesToDots s) = hasClose s.
Proof.
  induction s as [|a s IH]; simpl; [done|]. rewrite IH. f_equal.
  destruct (Ascii.eqb_spec a "/") as [->|]; done.
Qed.

Lemma slashesToDots_openThenClose s :
  openThenClose (slashesToDots s) = openThenClose s.
Proof.
  induction s as [|a s IH]; simpl; [done|].
  rewrite IH, slashesToDots_hasClose. f_equal. f_equal.
  destruct (Ascii.eqb_spec a "/") as [->|]; done.
Qed.

Lemma removeWhitespace_hasClose s : hasClose (removeWhitespace s) = hasClose s.
Proof.
  induction s as [|a s IH]; simpl; [done|].
  destruct (isWhitespace a) eqn:E; simpl; rewrite IH; [|done].
  by destruct (whitespace_is_no_bracket a E) as [_ ->].
Qed.

Lemma removeWhitespace_openThenClose s :
  openThenClose (removeWhitespace s) = openThenClose s.
Proof.
  induction s as [|a s IH]; simpl; [done|].
  destruct (isWhitespace a) eqn:E; simpl; rewrite IH, ?removeWhitespace_hasClose;
    [|done].
  by destruct (whitespace_is_no_bracket a E) as [-> _].
Qed.

Lemma path_has_no_bracket_pair xp :
  noLineBreak xp = true → openThenClose (xpathToPath xp) = false.
Proof.
  intros H. unfold xpathToPath.
  rewrite removeWhitespace_openThenClose, slashesToDots_openThenClose.
  by apply removeBrackets_closed, stripLeadingSlashes_noLineBreak.
Qed.

Lemma endsWith_marker_cons a s :
  (2 ≤ String.length s)%nat →
  endsWith (String a s) "[]" = endsWith s "[]".
Proof.
  intros H. unfold endsWith. cbn [String.length].
  replace (S (String.length s) - 2)%nat with (S (String.length s - 2)) by lia.
  cbn [String.substring].
  destruct (String.length s) as [|[|n]] eqn:E; [lia..|]. done.
Qed.

Lemma endsWith_marker s : endsWith s "[]" = true → openThenClose s = true.
Proof.
  induction s as [|a s IH]; [done|].
  destruct s as [|b [|c s]].
  - done.
  - unfold endsWith. cbn [String.length Nat.leb Nat.sub String.substring andb].
    intros H. apply String.eqb_eq in H. by simplify_eq.
  - rewrite endsWith_marker_cons by (simpl; lia).
    intros H. apply IH in H. cbn [openThenClose] in *. rewrite H.
    apply orb_true_r.
Qed.

Lemma last_split_hasClose c s :
  hasClose (List.last (split c s) EmptyString) = true → hasClose s = true.
Proof.
  unfold split. induction s as [|a s IH]; [done|].
  cbn [splitOn]. destruct (splitOn c s) as [h t].
  destruct (Ascii.eqb a c).
  - intros H. cbn [hasClose]. rewrite IH; [apply orb_true_r|done].
  - destruct t as [|t0 t].
    + cbn [List.last hasClose] in *. intros [H|H]%orb_prop; [by rewrite H|].
      rewrite IH; [apply orb_true_r|done].
    + intros H. cbn [hasClose]. rewrite IH; [apply orb_true_r|done].
Qed.

Lemma last_split_openThenClose c s :
  openThenClose (List.last (split c s) EmptyString) = true →
  openThenClose s = true.
Proof.
  unfold split. induction s as [|a s IH]; [done|].
  pose proof (last_split_hasClose c s) as Hc. unfold split in Hc.
  cbn [splitOn]. destruct (splitOn c s) as [h t].
  destruct (Ascii.eqb a c).
  - intros H. cbn [openThenClose]. rewrite IH; [apply orb_true_r|done].
  - destruct t as [|t0 t].
    + cbn [List.last openThenClose] in *. intros [H|H]%orb_prop.
      * apply andb_prop in H as [-> H]. by rewrite Hc.
      * rewrite IH; [apply orb_true_r|done].
    + intros H. cbn [openThenClose]. rewrite IH; [apply orb_true_r|done].
Qed.

Lemma walkCreating_ext parts last1 last2 :
  (∀ c, last1 c = last2 c) →
  ∀ c, walkCreating parts last1 c = walkCreating parts last2 c.
Proof.
  intros Hext. induction parts as [|k rest IH]; intros c; simpl; [done|].
  unfold thenS, inside. destruct (ensure k (JObj []) c) as [c1 []]; try done.
  by rewrite IH.
Qed.

(** X8. For a location that contains no line break, [Add] does what
    [Replace] does: the translated path never ends with the array
    marker, so the appending branch of [addToContent] is not taken. *)
Theorem add_is_replace_without_line_break c xp v :
  noLineBreak xp = true →
  endsWith (pathParts (xpathToPath xp)).2 "[]" = false
  ∧ addToContent c xp v = replaceInContent c xp v.
Proof.
  intros Hxp.
  assert (Hend : endsWith (pathParts (xpathToPath xp)).2 "[]" = false).
  { destruct (endsWith _ _) eqn:E; [|done].
    apply endsWith_marker in E. unfold pathParts in E. cbn [snd] in E.
    apply last_split_openThenClose in E.
    by rewrite path_has_no_bracket_pair in E. }
  split; [done|].
  unfold addToContent, replaceInContent.
  destruct (pathParts (xpathToPath xp)) as [parts lastPart]. cbn [snd] in Hend.
  apply walkCreating_ext. intros cur. unfold addLast. by rewrite Hend.
Qed.

Lemma add_is_replace_without_line_break_witness :
  noLineBreak "/comps[]" = true
  ∧ addToContent (content fooWithComps) "/comps[]" (JStr "X")
    = replaceInContent (content fooWithComps) "/comps[]" (JStr "X").
Proof.
  split; [done|].
  apply (add_is_replace_without_line_break (content fooWithComps) "/comps[]"
           (JStr "X") eq_refl).
Defined.

(** ** Reading back what the mutators wrote *)

















(** ** The application order *)

Lemma comesBefore_spec heap x y a b :
  heap !! x = Some a → heap !! y = Some b →
  comesBefore heap x y = true
  ↔ (loadOrder (patch_mod a) < loadOrder (patch_mod b)
     ∨ (loadOrder (patch_mod a) = loadOrder (patch_mod b) ∧ order a < order b)).
Proof.
  intros Hx Hy. unfold comesBefore, patchCompare. rewrite Hx, Hy.
  rewrite Z.ltb_lt.
  destruct (loadOrder (patch_mod a) =? loadOrder (patch_mod b)) eqn:E; simpl.
  - apply Z.eqb_eq in E. lia.
  - apply Z.eqb_neq in E. lia.
Qed.

Lemma insertPatch_perm heap x l : insertPatch heap x l ≡ₚ x :: l.
Proof.
  induction l as [|y l IH]; simpl; [done|].
  destruct (comesBefore heap y x); [|done].
  rewrite IH. apply Permutation_swap.
Qed.

Lemma sortPatches_perm heap pids : sortPatches heap pids ≡ₚ pids.
Proof.
  unfold sortPatches. induction pids as [|x pids IH]; simpl; [done|].
  by rewrite insertPatch_perm, IH.
Qed.

Lemma insertPatch_sorted heap x l :
  is_Some (heap !! x) → Forall (fun y => is_Some (heap !! y)) l →
  StronglySorted (mayPrecede heap) l →
  StronglySorted (mayPrecede heap) (insertPatch heap x l).
Proof.
  intros [a Ha] Hvalid Hsorted.
  induction Hsorted as [|y l Hl IH Hy]; simpl.
  - repeat constructor.
  - apply Forall_cons in Hvalid as [[b Hb] Hvalid].
    destruct (comesBefore heap y x) eqn:E.
    + constructor; [by apply IH|].
      rewrite insertPatch_perm. constructor; [|done].
      exists b, a. split; [done|]. split; [done|].
      apply (comesBefore_spec _ _ _ _ _ Hb Ha) in E. unfold keyLe. lia.
    + assert (Hxy : keyLe a b).
      { unfold keyLe.
        destruct (decide (loadOrder (patch_mod b) < loadOrder (patch_mod a)
                          ∨ (loadOrder (patch_mod b) = loadOrder (patch_mod a)
                             ∧ order b < order a))) as [H|H].
        - apply (comesBefore_spec _ _ _ _ _ Hb Ha) in H. congruence.
        - lia. }
      constructor; [by constructor|]. constructor; [by exists a, b|].
      eapply Forall_impl; [exact Hy|].
      intros z (b' & c & Hb' & Hc & Hbc). simplify_eq.
      exists a, c. split; [done|]. split; [done|]. unfold keyLe in *. lia.
Qed.

(** X12. For patch operations that are all in the arena, the sort of
    [applyPatches] returns a rearrangement of its input in which an
    operation of a source with a lower load order comes first and, for
    equal load orders, the lower declared order comes first. *)
Theorem sort_orders_patches heap pids :
  Forall (fun pid => is_Some (heap !! pid)) pids →
  sortPatches heap pids ≡ₚ pids
  ∧ StronglySorted (mayPrecede heap) (sortPatches heap pids).
Proof.
  intros Hvalid. split; [apply sortPatches_perm|].
  unfold sortPatches. induction Hvalid as [|x pids Hx Hvalid IH]; simpl.
  - constructor.
  - apply insertPatch_sorted; [done| |done].
    fold (sortPatches heap pids).
    by rewrite sortPatches_perm.
Qed.

Lemma sort_orders_patches_witness :
  let heap := [labelPatch modB "one" 1; labelPatch modB "two" 0; labelPatch modA "three" 5] in
  sortPatches heap [0; 1; 2]%nat ≡ₚ [0; 1; 2]%nat
  ∧ StronglySorted (mayPrecede heap) (sortPatches heap [0; 1; 2]%nat).
Proof.
  intros heap. apply sort_orders_patches.
  repeat constructor; by eexists.
Defined.

Lemma insertPatch_split heap x l :
  ∃ l1 l2, l = l1 ++ l2 ∧ insertPatch heap x l = l1 ++ x :: l2
           ∧ Forall (fun z => comesBefore heap z x = true) l1.
Proof.
  induction l as [|y l (l1 & l2 & -> & Hins & Hall)]; simpl.
  - by exists [], [].
  - destruct (comesBefore heap y x) eqn:E.
    + exists (y :: l1), l2. rewrite Hins. split; [done|]. split; [done|].
      by constructor.
    + by exists [], (y :: l1 ++ l2).
Qed.

Lemma lookup_insert_middle {A} (l1 l2 : list A) x i :
  (l1 ++ x :: l2) !! (if decide (i < length l1)%nat then i else S i)
  = (l1 ++ l2) !! i.
Proof.
  case_decide.
  - by rewrite !lookup_app_l.
  - rewrite !lookup_app_r by lia.
    by replace (S i - length l1)%nat with (S (i - length l1)) by lia.
Qed.

Lemma insertPatch_keeps_order heap z x y l :
  occursBefore x y l → occursBefore x y (insertPatch heap z l).
Proof.
  intros (i & j & Hij & Hi & Hj).
  destruct (insertPatch_split heap z l) as (l1 & l2 & -> & -> & _).
  exists (if decide (i < length l1)%nat then i else S i),
         (if decide (j < length l1)%nat then j else S j).
  rewrite !lookup_insert_middle. split; [|done].
  repeat case_decide; lia.
Qed.

(** X13. The sort is stable: of two operations with the same load
    order and the same declared order, the one that came first in the
    list of patches still comes first after the sort. *)
Theorem sort_is_stable heap pids x y :
  occursBefore x y pids → sameKey heap x y →
  occursBefore x y (sortPatches heap pids).
Proof.
  intros (i & j & Hij & Hi & Hj) (a & b & Ha & Hb & Hlo & Hord).
  revert i j Hij Hi Hj.
  induction pids as [|z pids IH]; intros i j Hij Hi Hj; [done|].
  unfold sortPatches. simpl. fold (sortPatches heap pids).
  destruct i as [|i].
  - simpl in Hi. simplify_eq. destruct j as [|j]; [lia|]. simpl in Hj.
    assert (y ∈ sortPatches heap pids) as Hy.
    { rewrite sortPatches_perm. by eapply list_elem_of_lookup_2. }
    destruct (insertPatch_split heap x (sortPatches heap pids))
      as (l1 & l2 & Hl & -> & Hall).
    rewrite Hl in Hy. apply elem_of_app in Hy as [Hy|Hy].
    + rewrite Forall_forall in Hall. apply Hall in Hy.
      apply (comesBefore_spec _ _ _ _ _ Hb Ha) in Hy. lia.
    + apply list_elem_of_lookup in Hy as [k Hk].
      exists (length l1), (S (length l1 + k)). split; [lia|]. split.
      * by rewrite lookup_app_r, Nat.sub_diag by lia.
      * rewrite lookup_app_r by lia.
        by replace (S (length l1 + k) - length l1)%nat with (S k) by lia.
  - destruct j as [|j]; [lia|]. simpl in Hi, Hj.
    apply insertPatch_keeps_order. apply (IH i j); [lia|done|done].
Qed.

Lemma sort_is_stable_witness :
  let heap := [labelPatch modB "one" 1; labelPatch modA "two" 0; labelPatch modB "three" 1] in
  occursBefore 0 2 (sortPatches heap [0; 1; 2]%nat).
Proof.
  intros heap. apply sort_is_stable.
  - exists 0%nat, 2%nat. by repeat split; try lia.
  - by eexists _, _.
Defined.


(** ** The snapshot taken before the first mutation *)

Lemma JsVal_nested_ind (P : JsVal → Prop) :
  P JUndef → P JNull → (∀ s, P (JStr s)) →
  (∀ items, Forall P items → P (JArr items)) →
  (∀ ps, Forall (fun kv => P kv.2) ps → P (JObj ps)) →
  ∀ v, P v.
Proof.
  intros Hu Hn Hs Ha Ho. fix IH 1. intros [| | s |items|ps].
  - exact Hu.
  - exact Hn.
  - apply Hs.
  - apply Ha. induction items as [|v items IHitems]; constructor.
    + apply IH.
    + exact IHitems.
  - apply Ho. induction ps as [|[k v] ps IHps]; constructor.
    + apply IH.
    + exact IHps.
Qed.

(** The JSON round trip used for the snapshot returns a tree in
    which no [undefined] occurs, and it returns the tree itself when
    none occurred in it: the snapshot of parsed content is an equal
    copy. *)
Lemma jsonCopy_spec v :
  defined (jsonCopy v) = true
  ∧ (defined v = true → jsonCopy v = v).
Proof.
  induction v as [| | s |items IH|ps IH] using JsVal_nested_ind; try done.
  - simpl. split.
    + induction IH as [|v items [Hv _] _ IHitems]; simpl; [done|].
      by rewrite Hv, IHitems.
    + intros Hall. f_equal.
      induction IH as [|v items [_ Hv] _ IHitems]; simpl in *; [done|].
      apply andb_prop in Hall as [H1 H2]. by rewrite Hv, IHitems.
  - simpl. split.
    + induction IH as [|[k v] ps [Hv _] _ IHps]; simpl in *; [done|].
      destruct v; simpl in *; rewrite ?Hv, ?IHps; done.
    + intros Hall. f_equal.
      induction IH as [|[k v] ps [_ Hv] _ IHps]; simpl in *; [done|].
      apply andb_prop in Hall as [H1 H2].
      destruct v; simpl in *; try done; rewrite ?IHps; try done;
        by rewrite Hv.
Qed.

(** X14. The JSON round trip used for the snapshot returns a tree in
    which no [undefined] occurs, and it returns the tree itself when
    none occurred in it: the snapshot of parsed content is an equal
    copy. *)
Theorem json_round_trip v :
  defined (jsonCopy v) = true
  ∧ (defined v = true → jsonCopy v = v).
Proof. apply jsonCopy_spec. Qed.

Lemma json_round_trip_witness :
  jsonCopy (content fooWithComps) = content fooWithComps.
Proof.
  destruct (json_round_trip (content fooWithComps)) as [_ H].
  by apply H.
Defined.

Lemma applyPatchToDef_snapshot did pid data d p :
  objs data !! did = Some d → patchObjs data !! pid = Some p →
  isPlainObject (content d) = true →
  ∃ o,
    (∀ o', originalContent d = Some o' → truthy o' = true → o = Some o')
    ∧ (originalContent d = None → o = Some (jsonCopy (content d)))
    ∧ applyPatchToDef did pid data =
      (set_patch pid (patch_with_appliedTo (appliedTo p ∪ {[defName d]}) p)
         (set_obj did
            (def_with_content (mutateContent p (content d)).1
               (def_with_patchHistory (patchHistory d ++ [pid])
                  (def_with_originalContent o d)))
            data),
       (mutateContent p (content d)).2).
Proof.
  intros Hd Hp Hobj. unfold applyPatchToDef. rewrite Hd, Hp.
  destruct (content d) as [| | |?|ps] eqn:Hc; try done.
  destruct (originalContent d) as [o'|] eqn:Ho; [destruct (truthy o') eqn:Hto|];
    simpl; rewrite Hc; destruct (mutateContent p (JObj ps));
    eexists; (split; [|split; [|reflexivity]]); congruence.
Qed.

(** X15. An operation applied to its resolved target leaves a snapshot
    on the definition before it mutates the content, whichever way the
    mutation then ends: a snapshot already there is kept, and on the
    first touch the snapshot is the JSON copy of the content before
    the mutation, equal to that content when no [undefined] occurs in
    it. Every registry the round of the application pass ends with
    holds the definition with that snapshot. *)
Theorem snapshot_is_taken_on_first_touch data pid p t did d :
  patchObjs data !! pid = Some p →
  targetDef p = Some t → nonempty t = true →
  omap_get (defs data) t = Some did → objs data !! did = Some d →
  isPlainObject (content d) = true →
  ∃ data1 d1,
    applyPatch pid data = (data1, (mutateContent p (content d)).2)
    ∧ objs data1 !! did = Some d1
    ∧ (∀ o, originalContent d = Some o → truthy o = true →
            originalContent d1 = Some o)
    ∧ (originalContent d = None →
       originalContent d1 = Some (jsonCopy (content d))
       ∧ (defined (content d) = true → originalContent d1 = Some (content d)))
    ∧ (checkPatchConditions p data = true →
       ∀ data', reached (patchStep pid data) = Some data' →
                objs data' !! did = Some d1).
Proof.
  intros Hp Ht Hne Hdid Hd Hobj.
  assert (Hlt : (did < length (objs data))%nat) by by eapply lookup_lt_Some.
  assert (Hplt : (pid < length (patchObjs data))%nat) by by eapply lookup_lt_Some.
  assert (Happ : applyPatch pid data = applyPatchToDef did pid data).
  { unfold applyPatch. by rewrite Hp, Ht, Hne, Hdid. }
  destruct (applyPatchToDef_snapshot _ _ _ _ _ Hd Hp Hobj)
    as (o & Hkeep & Hfirst & Heq).
  rewrite Heq in Happ. clear Heq.
  eexists _, _. split; [exact Happ|].
  split.
  { cbn [objs set_patch set_obj with_patchObjs with_objs].
    by apply list_lookup_insert_eq. }
  cbn [originalContent def_with_content def_with_patchHistory def_with_originalContent].
  split; [done|]. split.
  { intros Hnone. split; [by apply Hfirst|].
    intros Hdef. rewrite (Hfirst Hnone). f_equal.
    by apply (jsonCopy_spec (content d)). }
  intros Hcond data' Hstep.
  unfold patchStep in Hstep. rewrite Hp, Hcond, Happ in Hstep.
  cbn [negb] in Hstep. unfold markSucceeded, markFailed in Hstep.
  cbn [patchObjs set_patch set_obj with_patchObjs with_objs] in Hstep.
  rewrite list_lookup_insert_eq in Hstep by done.
  cbn [mbind option_bind stepOf] in Hstep.
  destruct (mutateContent p (content d)).2; cbn [reached] in Hstep;
    simplify_eq;
    cbn [objs with_conflicts set_patch set_obj with_patchObjs with_objs];
    by apply list_lookup_insert_eq.
Qed.

Lemma snapshot_is_taken_on_first_touch_witness :
  ∃ data1 d1,
    applyPatch 0 (registryWith fooWithComps [removePatch]) = (data1, Done)
    ∧ objs data1 !! 0%nat = Some d1
    ∧ originalContent d1 = Some (content fooWithComps).
Proof.
  destruct (snapshot_is_taken_on_first_touch
              (registryWith fooWithComps [removePatch]) 0 removePatch "Foo" 0
              fooWithComps eq_refl eq_refl eq_refl eq_refl eq_refl eq_refl)
    as (data1 & d1 & Happ & Hd1 & _ & Hfirst & _).
  exists data1, d1. split; [exact Happ|]. split; [exact Hd1|].
  by apply Hfirst.
Defined.

(** ** Collisions between operations *)

Lemma groupPush_keys {A} (m : list (string * list A)) k x k' :
  k' ∈ (groupPush m k x).*1 ↔ k' = k ∨ k' ∈ m.*1.
Proof.
  induction m as [|[k0 l] rest IH]; cbn [groupPush].
  - cbn. set_solver.
  - destruct (String.eqb k0 k) eqn:E.
    + apply String.eqb_eq in E as ->. rewrite !fmap_cons. cbn [fst]. set_solver.
    + rewrite !fmap_cons. cbn [fst]. set_solver.
Qed.

Lemma groupPush_NoDup {A} (m : list (string * list A)) k x :
  NoDup m.*1 → NoDup (groupPush m k x).*1.
Proof.
  induction m as [|[k0 l] rest IH]; cbn [groupPush]; intros Hnd.
  - cbn. apply NoDup_singleton.
  - rewrite fmap_cons in Hnd. apply NoDup_cons in Hnd as [Hin Hnd].
    destruct (String.eqb k0 k) eqn:E.
    + rewrite fmap_cons. by apply NoDup_cons.
    + apply String.eqb_neq in E. rewrite fmap_cons. apply NoDup_cons. split; [|by apply IH].
      cbn [fst] in *. rewrite groupPush_keys. intros [?|?]; congruence.
Qed.

Lemma groupPush_elem {A} (m : list (string * list A)) k x k' g :
  NoDup m.*1 →
  (k', g) ∈ groupPush m k x ↔
    ((k' ≠ k) ∧ (k', g) ∈ m)
    ∨ (k' = k ∧ ((∃ g0, (k, g0) ∈ m ∧ g = g0 ++ [x]) ∨ ((k ∉ m.*1) ∧ g = [x]))).
Proof.
  induction m as [|[k0 l] rest IH]; cbn [groupPush]; intros Hnd.
  - rewrite list_elem_of_singleton. split.
    + intros [= -> ->]. right. split; [done|]. right. split; [|done]. cbn. set_solver.
    + intros [[_ Hin]|[Hk [(g0 & Hin & _)|[_ Hg]]]].
      * by apply elem_of_nil in Hin.
      * by apply elem_of_nil in Hin.
      * by subst.
  - rewrite fmap_cons in Hnd. apply NoDup_cons in Hnd as [Hin Hnd]. cbn [fst] in Hin.
    specialize (IH Hnd).
    destruct (String.eqb k0 k) eqn:E.
    + apply String.eqb_eq in E as ->. rewrite !elem_of_cons. split.
      * intros [[= -> ->]|Hr].
        -- right. split; [done|]. left. exists l. split; [by apply elem_of_cons; left|done].
        -- left. split; [|by right]. intros ->. apply Hin.
           apply list_elem_of_fmap. by exists (k, g).
      * intros [[Hne [Heq|Hr]]|[-> [(g0 & [[= ->]|Hr]%elem_of_cons & ->)|[Hnot ->]]]].
        -- congruence.
        -- by right.
        -- by left.
        -- exfalso. apply Hin. apply list_elem_of_fmap. by exists (k, g0).
        -- exfalso. apply Hnot. rewrite fmap_cons. by left.
    + apply String.eqb_neq in E. rewrite !elem_of_cons, IH. split.
      * intros [[= -> ->]|[[Hne Hr]|[-> [(g0 & Hr & ->)|[Hnot ->]]]]].
        -- left. split; [done|by left].
        -- left. split; [done|by right].
        -- right. split; [done|]. left. exists g0. split; [by apply elem_of_cons; right|done].
        -- right. split; [done|]. right. split; [|done].
           rewrite fmap_cons. cbn [fst]. intros [?|?]%elem_of_cons; congruence.
      * intros [[Hne [[= -> ->]|Hr]]|[-> [(g0 & [Heq|Hr]%elem_of_cons & ->)|[Hnot ->]]]].
        -- by left.
        -- right. left. done.
        -- congruence.
        -- right. right. split; [done|]. left. by exists g0.
        -- right. right. split; [done|]. right. split; [|done].
           intros ?. apply Hnot. rewrite fmap_cons. by right.
Qed.

(** The groups a pass of [groupPush] builds: one entry per key that
    occurs, holding the elements with that key in their order. *)
Lemma groups_spec {A} (key : A → string) (l : list A) :
  NoDup (foldl (fun m p => groupPush m (key p) p) [] l).*1
  ∧ ∀ k g, (k, g) ∈ foldl (fun m p => groupPush m (key p) p) [] l
           ↔ g = filter (fun p => key p = k) l ∧ g ≠ [].
Proof.
  induction l as [|x l IH] using rev_ind.
  - cbn. split; [apply NoDup_nil_2|]. intros k g. split; [by intros ?%elem_of_nil|].
    by intros [-> ?].
  - rewrite foldl_app. cbn [foldl]. destruct IH as [Hnd IH].
    split; [by apply groupPush_NoDup|]. intros k g.
    rewrite groupPush_elem by done. rewrite filter_app.
    split.
    + intros [[Hne Hin]|[-> [(g0 & Hin & ->)|[Hnot ->]]]].
      * apply IH in Hin as [-> Hg]. rewrite filter_cons_False by (cbn; congruence).
        rewrite filter_nil, app_nil_r. done.
      * apply IH in Hin as [-> Hg]. rewrite filter_cons_True by done.
        split; [done|]. by destruct (filter _ l).
      * rewrite filter_cons_True by done. rewrite filter_nil.
        destruct (filter (fun p => key p = key x) l) as [|y g0] eqn:Hf; [done|].
        exfalso. apply Hnot. apply list_elem_of_fmap. exists (key x, y :: g0).
        split; [done|]. apply IH. by rewrite Hf.
    + intros [-> Hne]. destruct (decide (k = key x)) as [->|Hk].
      * right. split; [done|]. rewrite filter_cons_True by done. rewrite filter_nil.
        destruct (filter (fun p => key p = key x) l) as [|y g0] eqn:Hf.
        -- right. split; [|done]. intros (kg & Hk & Hin)%list_elem_of_fmap.
           destruct kg as [k g]. cbn in Hk. subst k. apply IH in Hin as [-> Hg].
           by rewrite Hf in Hg.
        -- left. exists (y :: g0). split; [|done]. apply IH. by rewrite Hf.
      * left. split; [done|]. rewrite filter_cons_False in * by (cbn; congruence).
        rewrite filter_nil, app_nil_r in *. by apply IH.
Qed.

Lemma filter_two {A} (P : A → Prop) `{∀ x, Decision (P x)} (l : list A) :
  (2 ≤ length (filter P l))%nat
  ↔ ∃ i j x y, (i < j)%nat ∧ l !! i = Some x ∧ l !! j = Some y ∧ P x ∧ P y.
Proof.
  induction l as [|a l IH].
  - cbn. split; [lia|]. by intros (i & j & x & y & _ & Hi & _).
  - destruct (decide (P a)) as [Ha|Ha].
    + rewrite filter_cons_True by done. cbn [length]. split.
      * intros Hlen. destruct (filter P l) as [|b g] eqn:Hf; [cbn in Hlen; lia|].
        assert (Hb : b ∈ filter P l) by (rewrite Hf; by left).
        apply list_elem_of_filter in Hb as [Hb Hin].
        apply list_elem_of_lookup in Hin as [j Hj].
        exists 0%nat, (S j), a, b. repeat split; try done. lia.
      * intros (i & j & x & y & Hij & Hi & Hj & Hx & Hy).
        destruct j as [|j]; [lia|]. cbn in Hj.
        assert (Hin : y ∈ filter P l).
        { apply list_elem_of_filter. split; [done|]. by eapply list_elem_of_lookup_2. }
        destruct (filter P l); [by apply elem_of_nil in Hin|]. cbn. lia.
    + rewrite filter_cons_False by done. rewrite IH. split.
      * intros (i & j & x & y & Hij & Hi & Hj & Hx & Hy).
        exists (S i), (S j), x, y. repeat split; try done. lia.
      * intros (i & j & x & y & Hij & Hi & Hj & Hx & Hy).
        destruct j as [|j]; [lia|]. destruct i as [|i]; [by simplify_eq/=|].
        exists i, j, x, y. repeat split; try done. lia.
Qed.

Lemma collisionConflict_nonempty key g :
  collisionConflict key g ≠ [] ↔ (2 ≤ length g)%nat.
Proof.
  destruct g as [|a [|b g]]; cbn; split; try done; try lia.
Qed.

Lemma collisions_nonempty ps :
  collisions ps ≠ []
  ↔ ∃ k xk,
      (2 ≤ length (filter (fun p => xpathKey p = xk)
                     (filter (fun p => collisionKey p = k)
                        (filter (fun p => success p = Some true) ps))))%nat.
Proof.
  unfold collisions.
  set (successful := filter (fun p => success p = Some true) ps).
  destruct (groups_spec collisionKey successful) as [_ Hgroups].
  split.
  - intros Hne.
    destruct (foldl (fun m p => groupPush m (collisionKey p) p) [] successful ≫= _)
      as [|c cs] eqn:Hb; [done|].
    assert (Hc : c ∈ c :: cs) by by left. rewrite <- Hb in Hc.
    apply list_elem_of_bind in Hc as ([k g] & Hc & Hin).
    apply Hgroups in Hin as [Hg _].
    destruct g as [|a [|b g]]; try by apply elem_of_nil in Hc.
    apply list_elem_of_bind in Hc as ([xk xg] & Hc & Hin).
    destruct (groups_spec xpathKey (a :: b :: g)) as [_ Hx].
    apply Hx in Hin as [Hxg _].
    exists k, xk. rewrite <- Hg, <- Hxg.
    apply (proj1 (collisionConflict_nonempty xk xg)). intros E. rewrite E in Hc.
    by apply elem_of_nil in Hc.
  - intros (k & xk & Hlen) Hnil.
    set (g := filter (fun p => collisionKey p = k) successful) in *.
    set (xg := filter (fun p => xpathKey p = xk) g) in *.
    assert (Hglen : (2 ≤ length g)%nat).
    { etrans; [exact Hlen|]. apply length_filter. }
    assert (Hin : (k, g) ∈ foldl (fun m p => groupPush m (collisionKey p) p) [] successful).
    { apply Hgroups. split; [done|]. intros E. rewrite E in Hglen. cbn in Hglen. lia. }
    destruct (groups_spec xpathKey g) as [_ Hx].
    assert (Hxin : (xk, xg) ∈ foldl (fun m p => groupPush m (xpathKey p) p) [] g).
    { apply Hx. split; [done|]. intros E. rewrite E in Hlen. cbn in Hlen. lia. }
    apply (proj2 (collisionConflict_nonempty xk xg)) in Hlen.
    destruct (collisionConflict xk xg) as [|c cs] eqn:Hcc; [done|].
    assert (Hc : c ∈ @nil DefConflict); [|by apply elem_of_nil in Hc].
    rewrite <- Hnil. apply list_elem_of_bind. exists (k, g). split; [|done].
    destruct g as [|a [|b g']] eqn:Eg; [cbn in Hglen; lia..|].
    apply list_elem_of_bind. exists (xk, xg). split; [|done].
    change (c ∈ collisionConflict xk xg). rewrite Hcc. by left.
Qed.

(** X16. [detectPatchCollisions] adds a conflict exactly when two of
    the operations it walks, at different places of the list, both
    carry [success = true], share the grouping key (the target
    definition, or the selector when there is none) and share the
    selector-and-operation key.  Whether the two come from different
    sources plays no part. *)
Theorem collision_reported_iff data :
  conflicts (detectPatchCollisions data) ≠ conflicts data
  ↔ ∃ i j p q,
      (i < j)%nat
      ∧ patchesInOrder data !! i = Some p
      ∧ patchesInOrder data !! j = Some q
      ∧ (success p = Some true ∧ success q = Some true)
      ∧ collisionKey p = collisionKey q
      ∧ xpathKey p = xpathKey q.
Proof.
  unfold detectPatchCollisions. cbn [conflicts with_conflicts].
  fold (patchesInOrder data). set (ps := patchesInOrder data).
  assert (Happ : conflicts data ++ collisions ps ≠ conflicts data
                 ↔ collisions ps ≠ []).
  { split; intros Hne E; apply Hne.
    - by rewrite E, app_nil_r.
    - rewrite <- (app_nil_r (conflicts data)) in E at 2. by apply app_inv_head in E. }
  rewrite Happ, collisions_nonempty. split.
  - intros (k & xk & Hlen). rewrite !list_filter_filter in Hlen.
    apply filter_two in Hlen as (i & j & p & q & Hij & Hi & Hj & Hp & Hq).
    exists i, j, p, q. cbn beta in Hp, Hq.
    destruct Hp as ((Hp1 & Hp2) & Hp3), Hq as ((Hq1 & Hq2) & Hq3).
    repeat split; try done; congruence.
  - intros (i & j & p & q & Hij & Hi & Hj & [Hp Hq] & Hk & Hx).
    exists (collisionKey p), (xpathKey p). rewrite !list_filter_filter.
    apply filter_two. exists i, j, p, q. repeat split; done.
Qed.

(** ** Operations whose target is not registered *)

(** X17. An operation that names a target no file declared is marked
    as succeeded: the step completes, no definition and no conflict
    changes, and the operation carries [success = true] with nothing
    in [appliedTo] added. *)
Theorem missing_target_counts_as_success data pid p t :
  patchObjs data !! pid = Some p →
  checkPatchConditions p data = true →
  targetDef p = Some t → nonempty t = true →
  omap_get (defs data) t = None →
  ∃ data' p',
    patchStep pid data = Next data'
    ∧ objs data' = objs data
    ∧ conflicts data' = conflicts data
    ∧ patchObjs data' !! pid = Some p'
    ∧ success p' = Some true
    ∧ error p' = error p
    ∧ appliedTo p' = appliedTo p.
Proof.
  intros Hp Hcond Ht Hne Hnone.
  assert (Hplt : (pid < length (patchObjs data))%nat) by by eapply lookup_lt_Some.
  unfold patchStep. rewrite Hp, Hcond. cbn [negb].
  unfold applyPatch. rewrite Hp, Ht, Hne, Hnone. unfold markSucceeded.
  rewrite Hp. cbn [mbind option_bind stepOf].
  eexists _, _. split; [done|]. split; [done|]. split; [done|].
  split; [by apply list_lookup_insert_eq|]. done.
Qed.

Lemma missing_target_counts_as_success_witness :
  ∃ data' p',
    patchStep 0 (registryWith fooWithComps [strayPatch]) = Next data'
    ∧ patchObjs data' !! 0%nat = Some p'
    ∧ success p' = Some true.
Proof.
  destruct (missing_target_counts_as_success
              (registryWith fooWithComps [strayPatch]) 0 strayPatch "Bar")
    as (data' & p' & Hs & _ & _ & Hp & Hok & _); [by vm_compute..|].
  by exists data', p'.
Defined.

(** ** Merging a child into its parent *)






(** ** Inheritance without cycles *)

Lemma lookupDefId_shape data data' n :
  defs data' = defs data → abstractDefs data' = abstractDefs data →
  lookupDefId data' n = lookupDefId data n.
Proof. unfold lookupDefId. by intros -> ->. Qed.









(** ** The cycle detector on any registry *)

Lemma refNames_target data0 n i d ref :
  Registry.existingDef data0 n = Some (i, d) → ref ∈ outgoingRefs d →
  toDef ref ∈ refNames data0.
Proof.
  intros [_ Hd]%existingDef_inv Href. unfold refNames.
  apply elem_of_union_r, elem_of_list_to_set, list_elem_of_bind.
  exists d. split; [|by eapply list_elem_of_lookup_2].
  apply list_elem_of_fmap. by exists ref.
Qed.

Lemma existingDef_sameRegistry data0 d n :
  sameRegistry data0 d → Registry.existingDef d n = Registry.existingDef data0 n.
Proof. intros [Hd Ho]. unfold Registry.existingDef. by rewrite Hd, Ho. Qed.

Lemma unvisited_shrinks (U V : gset string) n :
  n ∈ U → n ∉ V → (size (U ∖ (V ∪ {[n]})) < size (U ∖ V))%nat.
Proof. intros HU HV. apply subset_size. set_solver. Qed.

Lemma unvisited_mono (U V V' : gset string) :
  V ⊆ V' → (size (U ∖ V') ≤ size (U ∖ V))%nat.
Proof. intros H. apply subseteq_size. set_solver. Qed.

(** One call of [hasCycle]: it returns when the allowed nesting exceeds
    the number of names not yet visited. *)
Lemma hasCycle_returns data0 : ∀ fuel n path st,
  sameRegistry data0 (data st) → n ∈ refNames data0 →
  (size (refNames data0 ∖ visited st) < fuel)%nat →
  ∃ st' b,
    hasCycle fuel n path st = Ret (st', b)
    ∧ sameRegistry data0 (data st')
    ∧ visited st ⊆ visited st'.
Proof.
  induction fuel as [|fuel IH]; intros n path st Hsame Hn Hfuel; [lia|].
  cbn [hasCycle].
  case_bool_decide as Hstack.
  { eexists _, _. split; [done|].
    destruct (Registry.existingDef (data st) n) as [[i d]|]; [|done].
    split; [|done]. destruct Hsame as [? ?]. by split. }
  case_bool_decide as Hvisited; [by eexists _, _|].
  set (st1 := {| data := data st; visited := visited st ∪ {[n]};
                 recursionStack := recursionStack st ∪ {[n]};
                 visits := visits st ++ [n] |}).
  assert (Hsame1 : sameRegistry data0 (data st1)) by done.
  assert (Hsub1 : visited st ⊆ visited st1) by (cbn; set_solver).
  assert (Hfuel1 : (size (refNames data0 ∖ visited st1) < fuel)%nat).
  { pose proof (unvisited_shrinks _ _ _ Hn Hvisited). cbn [visited st1]. lia. }
  destruct (Registry.existingDef (data st1) n) as [[i d]|] eqn:He.
  2:{ eexists _, _. split; [done|]. split; [done|]. cbn. set_solver. }
  rewrite (existingDef_sameRegistry _ _ _ Hsame1) in He.
  assert (Hrefs : ∀ ref, ref ∈ outgoingRefs d → toDef ref ∈ refNames data0)
    by (intros ref; by eapply refNames_target).
  revert Hrefs. generalize (outgoingRefs d).
  clearbody st1. clear He Hstack Hvisited Hfuel.
  intros refs. revert st1 Hsame1 Hsub1 Hfuel1.
  induction refs as [|ref rest IHrefs]; intros st1 Hsame1 Hsub1 Hfuel1 Hrefs.
  - eexists _, _. split; [done|]. split; [done|]. cbn. done.
  - destruct (IH (toDef ref) (path ++ [n]) st1 Hsame1) as (st2 & b & -> & Hsame2 & Hsub2).
    { apply Hrefs. by left. }
    { done. }
    destruct b; [eexists _, _; split; [done|]; split; [done|]; set_solver|].
    apply IHrefs; [done|set_solver| |].
    + pose proof (unvisited_mono (refNames data0) _ _ Hsub2). lia.
    + intros r Hr. apply Hrefs. by right.
Qed.

Lemma detectFrom_returns data0 fuel : ∀ keys st,
  sameRegistry data0 (data st) →
  (∀ k, k ∈ keys → k ∈ refNames data0) →
  (size (refNames data0 ∖ visited st) < fuel)%nat →
  ∃ st', detectFrom fuel keys st = Ret st' ∧ sameRegistry data0 (data st').
Proof.
  induction keys as [|k rest IH]; intros st Hsame Hkeys Hfuel; cbn [detectFrom].
  - by exists st.
  - case_bool_decide.
    { apply IH; [done| |done]. intros k' Hk'. apply Hkeys. by right. }
    destruct (hasCycle_returns data0 fuel k [] st Hsame) as (st1 & b & -> & Hsame1 & Hsub1).
    { apply Hkeys. by left. }
    { done. }
    apply IH; [done| |].
    + intros k' Hk'. apply Hkeys. by right.
    + pose proof (unvisited_mono (refNames data0) _ _ Hsub1). lia.
Qed.

(** X20. The cycle detector returns on every registry, cyclic or not,
    once the allowed nesting exceeds the number of names it can meet;
    the definitions it leaves are the ones it was given. *)
Theorem cycle_detection_returns data0 fuel :
  (size (refNames data0) < fuel)%nat →
  ∃ st,
    detectCircularDependencies fuel data0 = Ret st
    ∧ sameRegistry data0 (data st).
Proof.
  intros Hfuel. unfold detectCircularDependencies.
  apply detectFrom_returns; [done| |].
  - intros k Hk. unfold refNames. apply elem_of_union_l. by apply elem_of_list_to_set.
  - cbn [visited]. pose proof (unvisited_mono (refNames data0) ∅ ∅). 
    assert (refNames data0 ∖ ∅ = refNames data0) as -> by set_solver. done.
Qed.

Lemma cycle_detection_returns_witness :
  ∃ st, detectCircularDependencies 4 triangleRegistry = Ret st
        ∧ sameRegistry triangleRegistry (data st).
Proof.
  apply (cycle_detection_returns triangleRegistry 4). vm_compute. lia.
Defined.

(** ** The cycle detector without cycles *)

Lemma hasCycle_acyclic rank data0 :
  refsDescend rank data0 →
  ∀ fuel n path st st' b,
    data st = data0 →
    (∀ m, m ∈ recursionStack st → (rank n < rank m)%nat) →
    hasCycle fuel n path st = Ret (st', b) →
    b = false ∧ data st' = data0 ∧ recursionStack st' = recursionStack st.
Proof.
  intros Hrank. induction fuel as [|fuel IH]; intros n path st st' b Hdata Hstack Hrun;
    [done|].
  cbn [hasCycle] in Hrun.
  case_bool_decide as Hin.
  { apply Hstack in Hin. lia. }
  case_bool_decide as Hvisited; [by simplify_eq|].
  set (st1 := {| data := data st; visited := visited st ∪ {[n]};
                 recursionStack := recursionStack st ∪ {[n]};
                 visits := visits st ++ [n] |}) in *.
  assert (Hleave : recursionStack st1 ∖ {[n]} = recursionStack st)
    by (cbn; set_solver).
  destruct (Registry.existingDef (data st1) n) as [[i d]|] eqn:He.
  2:{ simplify_eq. by cbn [data recursionStack]. }
  cbn [data st1] in He. rewrite Hdata in He.
  assert (Hrefs : ∀ ref, ref ∈ outgoingRefs d →
            ∀ m, m ∈ recursionStack st1 → (rank (toDef ref) < rank m)%nat).
  { intros ref Href m Hm. pose proof (Hrank _ _ _ _ He Href) as Hlt.
    cbn [recursionStack st1] in Hm. apply elem_of_union in Hm as [Hm|Hm].
    - apply Hstack in Hm. lia.
    - apply elem_of_singleton in Hm as ->. done. }
  assert (Hdata1 : data st1 = data0) by done.
  revert Hrun Hrefs. generalize (outgoingRefs d).
  rewrite <- Hleave. clear Hleave He.
  generalize (eq_refl (recursionStack st1)).
  generalize (recursionStack st1) at 2 4 as stack.
  clearbody st1. clear Hin Hvisited Hstack Hdata.
  intros stack Hst refs. revert st1 Hst Hdata1.
  induction refs as [|ref rest IHrefs]; intros st1 Hst Hdata1 Hrun Hrefs.
  - simplify_eq. by cbn [data recursionStack].
  - destruct (hasCycle fuel (toDef ref) (path ++ [n]) st1)
      as [[st2 b2]| |] eqn:Hinner; try done.
    destruct (IH _ _ _ _ _ Hdata1 (Hrefs ref ltac:(by left)) Hinner)
      as (-> & Hdata2 & Hstack2).
    eapply (IHrefs st2); [congruence|done|done|].
    intros r Hr m Hm. rewrite Hstack2 in Hm. eapply Hrefs; [by right|done].
Qed.

Lemma detectFrom_acyclic rank data0 fuel :
  refsDescend rank data0 →
  ∀ keys st st',
    data st = data0 → recursionStack st = ∅ →
    detectFrom fuel keys st = Ret st' →
    data st' = data0.
Proof.
  intros Hrank. induction keys as [|k rest IH]; intros st st' Hdata Hstack Hrun;
    cbn [detectFrom] in Hrun; [by simplify_eq|].
  case_bool_decide; [by eapply IH|].
  destruct (hasCycle fuel k [] st) as [[st1 b]| |] eqn:Hk; try done.
  assert (Hempty : ∀ m, m ∈ recursionStack st → (rank k < rank m)%nat).
  { intros m Hm. rewrite Hstack in Hm. by apply elem_of_empty in Hm. }
  destruct (hasCycle_acyclic rank data0 Hrank _ _ _ _ _ _ Hdata Hempty Hk)
    as (_ & Hdata1 & Hstack1).
  eapply IH; [done| |done]. congruence.
Qed.

(** X21. On a registry whose reference edges form no cycle the cycle
    detector returns and reports nothing: the registry it leaves,
    conflict list included, is the one it was given. *)
Theorem no_cycle_no_report rank data0 fuel :
  refsDescend rank data0 →
  (size (refNames data0) < fuel)%nat →
  ∃ st, detectCircularDependencies fuel data0 = Ret st ∧ data st = data0.
Proof.
  intros Hrank Hfuel.
  assert (Hret : ∃ st, detectCircularDependencies fuel data0 = Ret st).
  { unfold detectCircularDependencies.
    destruct (detectFrom_returns data0 fuel (omap_keys (defs data0))
                {| data := data0; visited := ∅; recursionStack := ∅; visits := [] |})
      as (st & Hst & _); [done| | |by exists st].
    - intros k Hk. unfold refNames. apply elem_of_union_l. by apply elem_of_list_to_set.
    - cbn [visited].
      assert (refNames data0 ∖ ∅ = refNames data0) as -> by set_solver. done. }
  destruct Hret as [st Hst]. exists st. split; [done|].
  by apply (detectFrom_acyclic rank data0 fuel Hrank (omap_keys (defs data0))
              {| data := data0; visited := ∅; recursionStack := ∅; visits := [] |}).
Qed.

Lemma no_cycle_no_report_witness :
  ∃ st, detectCircularDependencies 4 chainRegistry = Ret st
        ∧ data st = chainRegistry.
Proof.
  apply (no_cycle_no_report chainRank chainRegistry 4); [|vm_compute; lia].
  intros n id d ref He Href. apply existingDef_inv in He as [Hg Hd].
  change (defs chainRegistry) with [("A", 0%nat); ("B", 1%nat)] in Hg.
  cbn [omap_get] in Hg.
  destruct (String.eqb "A" n) eqn:E1.
  { apply String.eqb_eq in E1 as <-. simplify_eq. vm_compute in Hd. simplify_eq.
    cbn [outgoingRefs triangleDef] in Href.
    apply list_elem_of_singleton in Href as ->. vm_compute. lia. }
  destruct (String.eqb "B" n) eqn:E2; [|done].
  apply String.eqb_eq in E2 as <-. simplify_eq. vm_compute in Hd. simplify_eq.
  cbn [outgoingRefs triangleDef] in Href.
  apply list_elem_of_singleton in Href as ->. vm_compute. lia.
Defined.

(** ** What ingestion leaves for the later passes *)

Lemma processDef_invariant (P : ServerData → Prop) :
  (∀ m relPath defType defName0 par isAbstract ps data,
     P data →
     P (registerDef (mkRimDef m relPath defType defName0 par isAbstract (JObj ps)) data)) →
  ∀ m relPath defType def data data',
    P data → processDef m relPath defType def data = Some data' → P data'.
Proof.
  intros Hstep m relPath defType def data data' HP H.
  destruct def as [| | s |items|ps]; cbn in H; try by simplify_eq.
  repeat case_match; simplify_eq; try done; by apply Hstep.
Qed.

Lemma processDefArray_invariant (P : ServerData → Prop) :
  (∀ m relPath defType defName0 par isAbstract ps data,
     P data →
     P (registerDef (mkRimDef m relPath defType defName0 par isAbstract (JObj ps)) data)) →
  ∀ m relPath defType defArray data data',
    P data → processDefArray m relPath defType defArray data = Some data' → P data'.
Proof.
  intros Hstep m relPath defType defArray.
  induction defArray as [|def rest IH]; intros data data' HP H; simpl in H;
    [by simplify_eq|].
  destruct (processDef m relPath defType def data) as [data1|] eqn:E; [|done].
  simpl in H. eapply IH; [|done]. by eapply processDef_invariant.
Qed.

Lemma processDefsFile_invariant (P : ServerData → Prop) :
  (∀ m relPath defType defName0 par isAbstract ps data,
     P data →
     P (registerDef (mkRimDef m relPath defType defName0 par isAbstract (JObj ps)) data)) →
  ∀ defsData relPath m data data',
    P data → processDefsFile defsData relPath m data = Some data' → P data'.
Proof.
  intros Hstep defsData relPath m data data' HP H.
  destruct defsData as [| | s |items|entries]; simplify_eq/=; [done|].
  revert data data' HP H.
  induction entries as [|[defType defsV] rest IH]; intros data data' HP H;
    simpl in H; [by simplify_eq|].
  match type of H with (?x ≫= _) = _ => destruct x as [data1|] eqn:E end; [|done].
  simpl in H. eapply IH; [|done].
  destruct defsV as [| | s |items|ps].
  - by simplify_eq.
  - by apply (processDefArray_invariant P Hstep m relPath defType [JNull] data).
  - by simplify_eq.
  - by apply (processDefArray_invariant P Hstep m relPath defType items data).
  - by apply (processDefArray_invariant P Hstep m relPath defType [JObj ps] data).
Qed.

(** What every registration keeps, every run of ingestion keeps. *)
Lemma ingest_invariant (P : ServerData → Prop) :
  (∀ m relPath defType defName0 par isAbstract ps data,
     P data →
     P (registerDef (mkRimDef m relPath defType defName0 par isAbstract (JObj ps)) data)) →
  ∀ files data data', P data → ingest files data = Some data' → P data'.
Proof.
  intros Hstep files.
  induction files as [|[[defsData relPath] m] rest IH]; intros data data' HP H;
    simpl in H; [by simplify_eq|].
  destruct (processDefsFile defsData relPath m data) as [data1|] eqn:E; [|done].
  simpl in H. eapply IH; [|done]. by eapply processDefsFile_invariant.
Qed.

Lemma clashOf_inv data r c :
  clashOf data r = Some c →
  ∃ id e, existingDef data (defName r) = Some (id, e)
          ∧ packageId (mod_ e) ≠ packageId (mod_ r)
          ∧ c = overrideConflict e r.
Proof.
  unfold clashOf. intros H.
  destruct (existingDef data (defName r)) as [[id e]|]; [|done].
  destruct (String.eqb (packageId (mod_ e)) (packageId (mod_ r))) eqn:E; [done|].
  apply String.eqb_neq in E. simplify_eq. by exists id, e.
Qed.

Lemma registerDef_keeps_names r data n :
  is_Some (omap_get (defs data) n) →
  is_Some (omap_get (defs (registerDef r data)) n).
Proof.
  intros H. cbn [defs registerDef]. destruct (installs data r); [|done].
  by apply omap_get_set_is_Some.
Qed.

(** X6. Every conflict a run of ingestion records is an override
    warning that names a registered definition and exactly two
    sources, whose package ids differ. *)
Theorem ingestion_records_overrides_only files data c :
  ingest files emptyData = Some data →
  c ∈ conflicts data →
  conflict_type c = override
  ∧ severity c = sev_warning
  ∧ ∃ m1 m2 n,
      conflict_mods c = [m1; m2]
      ∧ packageId m1 ≠ packageId m2
      ∧ conflict_defName c = Some n
      ∧ is_Some (omap_get (defs data) n).
Proof.
  intros Hrun. revert c.
  apply (ingest_invariant
           (fun data => ∀ c, c ∈ conflicts data →
              conflict_type c = override
              ∧ severity c = sev_warning
              ∧ ∃ m1 m2 n,
                  conflict_mods c = [m1; m2]
                  ∧ packageId m1 ≠ packageId m2
                  ∧ conflict_defName c = Some n
                  ∧ is_Some (omap_get (defs data) n))) with (3 := Hrun).
  - intros m relPath defType defName0 par isAbstract ps data0 IH c Hc.
    set (r := mkRimDef m relPath defType defName0 par isAbstract (JObj ps)) in *.
    assert (Hold : c ∈ conflicts data0 →
              conflict_type c = override ∧ severity c = sev_warning
              ∧ ∃ m1 m2 n, conflict_mods c = [m1; m2]
                  ∧ packageId m1 ≠ packageId m2
                  ∧ conflict_defName c = Some n
                  ∧ is_Some (omap_get (defs (registerDef r data0)) n)).
    { intros Hin. destruct (IH c Hin) as (Ht & Hs & m1 & m2 & n & Hm & Hne & Hn & Hd).
      split; [done|]. split; [done|]. exists m1, m2, n.
      repeat (split; [done|]). by apply registerDef_keeps_names. }
    cbn [conflicts registerDef] in Hc.
    destruct (clashOf data0 r) as [k|] eqn:Hk; [|by apply Hold].
    apply elem_of_app in Hc as [Hc|Hc]; [by apply Hold|].
    apply list_elem_of_singleton in Hc as ->.
    apply clashOf_inv in Hk as (id & e & He & Hne & ->).
    split; [done|]. split; [done|].
    exists (mod_ e), (mod_ r), (defName r). repeat (split; [done|]).
    apply registerDef_keeps_names. apply existingDef_inv in He as [He _].
    by rewrite He.
  - by intros c ?%elem_of_nil.
Qed.

Lemma ingestion_records_overrides_only_witness :
  ∃ data c,
    ingest sampleFiles emptyData = Some data
    ∧ conflicts data = [c]
    ∧ conflict_type c = override
    ∧ conflict_defName c = Some "Foo".
Proof.
  exists (default emptyData (ingest sampleFiles emptyData)).
  eexists. split; [by vm_compute|]. split; [by vm_compute|].
  destruct (ingestion_records_overrides_only sampleFiles
              (default emptyData (ingest sampleFiles emptyData))
              (overrideConflict
                 (mkRimDef modA "Defs/Things.xml" "ThingDef" "Foo" None false
                    (JObj [("defName", JStr "Foo"); ("label", JStr "foo")]))
                 (mkRimDef modB "Defs/Recipes.xml" "RecipeDef" "Foo" None false
                    (JObj [("defName", JStr "Foo"); ("label", JStr "make foo")]))))
    as (Ht & _); [by vm_compute|by vm_compute; left|].
  split; [exact Ht|done].
Defined.

Lemma registerDef_allObjects r data :
  isPlainObject (content r) = true → allObjects data = true →
  allObjects (registerDef r data) = true.
Proof.
  intros Hr Hall. unfold allObjects in *. cbn [objs registerDef].
  rewrite forallb_app, Hall. cbn [forallb]. 
  destruct (stored_fields data r) as (_ & _ & _ & _ & -> & _). by rewrite Hr.
Qed.

(** X22. A registry built by ingestion meets what the later passes
    rely on: every record holds an object as content, and every name
    the registry answers leads to a record. *)
Theorem ingestion_leaves_closed_registry files data :
  ingest files emptyData = Some data →
  allObjects data = true ∧ closedArena data.
Proof.
  intros Hrun. split.
  - apply (ingest_invariant (fun data => allObjects data = true)) with (3 := Hrun);
      [|done].
    intros. by apply registerDef_allObjects.
  - pose proof (ingest_ok _ _ _ emptyData_ok Hrun) as Hok.
    intros n did Hn. unfold lookupDefId in Hn.
    destruct (omap_get (defs data) n) as [id|] eqn:Hg.
    + simplify_eq. destruct (holder_named _ Hok _ _ Hg) as (d & -> & _). done.
    + destruct (abstract_named _ Hok _ _ Hn) as (d & -> & _). done.
Qed.

Lemma ingestion_leaves_closed_registry_witness :
  ∃ data, ingest sampleFiles emptyData = Some data ∧ allObjects data = true.
Proof.
  exists (default emptyData (ingest sampleFiles emptyData)).
  split; [by vm_compute|].
  apply (ingestion_leaves_closed_registry sampleFiles). by vm_compute.
Defined.

(** ** Conflict queries *)

Lemma orZero_count (n : nat) :
  orZero (if (n =? 0)%nat then None else Some (Z.of_nat n)) = Z.of_nat n.
Proof.
  destruct n as [|n]; [done|]. cbn [Nat.eqb orZero].
  destruct (Z.of_nat (S n) =? 0) eqn:E; [|done]. apply Z.eqb_eq in E. lia.
Qed.

Lemma stats_count (cs : list DefConflict) k :
  foldl (fun (stats : gmap string Z) c =>
           let k := conflictTypeName (conflict_type c) in
           <[k := orZero (stats !! k) + 1]> stats) ∅ cs !! k
  = let n := length (filter (fun c => conflictTypeName (conflict_type c) = k) cs) in
    if (n =? 0)%nat then None else Some (Z.of_nat n).
Proof.
  revert k. induction cs as [|c cs IH] using rev_ind; intros k; [done|].
  rewrite foldl_app. cbn [foldl]. cbv zeta. rewrite filter_app, length_app.
  destruct (decide (conflictTypeName (conflict_type c) = k)) as [Hk|Hk].
  - rewrite Hk, lookup_insert_eq, IH. cbv zeta. rewrite orZero_count.
    rewrite filter_cons_True by done. rewrite filter_nil. cbn [length].
    destruct (length _ + 1)%nat eqn:E; [lia|]. cbn [Nat.eqb]. f_equal. lia.
  - rewrite lookup_insert_ne by done. rewrite IH. cbv zeta.
    rewrite filter_cons_False by done. rewrite filter_nil. cbn [length].
    by rewrite Nat.add_0_r.
Qed.

(** X23. The statistics agree with the type filter: under a type name
    the record of counts holds the number of conflicts
    [getConflictsByType] returns for that name, and it has no entry
    for a name the filter returns nothing for. *)
Theorem stats_agree_with_type_filter data k :
  nonempty k = true →
  getConflictStats data !! k
  = if (length (getConflictsByType data (Some k)) =? 0)%nat then None
    else Some (Z.of_nat (length (getConflictsByType data (Some k)))).
Proof.
  intros Hk. unfold getConflictStats, getConflictsByType. rewrite Hk.
  apply stats_count.
Qed.

Lemma stats_agree_with_type_filter_witness :
  getConflictStats (default emptyData (ingest sampleFiles emptyData)) !! "override"
  = Some 1.
Proof.
  rewrite (stats_agree_with_type_filter _ "override"); [|done]. by vm_compute.
Defined.

(** ** The dependency chain *)

Lemma traverse_spec data params : ∀ fuel n depth V C,
  (Z.to_nat (depthLimit params + 1 - depth) < fuel)%nat →
  ∃ V' added,
    traverse fuel data params n depth (V, C) = Ret (V', C ++ added)
    ∧ V ⊆ V'
    ∧ NoDup (node_defName <$> added)
    ∧ ∀ node, node ∈ added →
        (node_defName node ∉ V) ∧ node_defName node ∈ V'
        ∧ depth ≤ node_depth node ≤ depthLimit params
        ∧ is_Some (handleGetDef data (node_defName node)).
Proof.
  induction fuel as [|fuel IH]; intros n depth V C Hfuel; [lia|].
  cbn [traverse].
  assert (Hstop : ∃ V' added,
            @Ret (gset string * list ChainNode) (V, C) = Ret (V', C ++ added)
            ∧ V ⊆ V' ∧ NoDup (node_defName <$> added)
            ∧ ∀ node, node ∈ added →
                (node_defName node ∉ V) ∧ node_defName node ∈ V'
                ∧ depth ≤ node_depth node ≤ depthLimit params
                ∧ is_Some (handleGetDef data (node_defName node))).
  { exists V, []. rewrite app_nil_r. split; [done|]. split; [done|].
    split; [apply NoDup_nil_2|]. by intros node ?%elem_of_nil. }
  case_bool_decide as Hvis; [done|]. cbn [orb].
  destruct (depthLimit params <? depth) eqn:Hdepth; [done|]. clear Hstop.
  apply Z.ltb_ge in Hdepth.
  destruct (handleGetDef data n) as [def|] eqn:Hdef.
  2:{ exists (V ∪ {[n]}), []. rewrite app_nil_r. split; [done|].
      split; [set_solver|]. split; [apply NoDup_nil_2|]. by intros node ?%elem_of_nil. }
  assert (Hfuel' : (Z.to_nat (depthLimit params + 1 - (depth + 1)) < fuel)%nat) by lia.
  set (node := fun deps => {| node_defName := n; node_mod := name (mod_ def);
                              node_type := type def; node_depth := depth;
                              dependencies := deps |}).
  enough (Hloop : ∀ refs deps V1 added1,
            V ∪ {[n]} ⊆ V1 →
            NoDup (node_defName <$> added1) →
            (∀ x, x ∈ added1 →
               (node_defName x ∉ V ∪ {[n]}) ∧ node_defName x ∈ V1
               ∧ depth + 1 ≤ node_depth x ≤ depthLimit params
               ∧ is_Some (handleGetDef data (node_defName x))) →
            ∃ V' added,
              eachRef (fun n st => traverse fuel data params n (depth + 1) st)
                params node refs deps (V1, C ++ added1) = Ret (V', C ++ added)
              ∧ V ⊆ V'
              ∧ NoDup (node_defName <$> added)
              ∧ ∀ x, x ∈ added →
                  (node_defName x ∉ V) ∧ node_defName x ∈ V'
                  ∧ depth ≤ node_depth x ≤ depthLimit params
                  ∧ is_Some (handleGetDef data (node_defName x))).
  { specialize (Hloop (outgoingRefs def) [] (V ∪ {[n]}) []).
    rewrite app_nil_r in Hloop. apply Hloop; [done|apply NoDup_nil_2|].
    by intros x ?%elem_of_nil. }
  intros refs. induction refs as [|ref rest IHrefs];
    intros deps V1 added1 Hsub Hnd1 Hnodes1; cbn [eachRef].
  - exists V1, (added1 ++ [node deps]).
    cbn [fst snd]. rewrite app_assoc. split; [done|]. split; [set_solver|]. split.
    + rewrite fmap_app. apply NoDup_app. split; [done|]. split; [|apply NoDup_singleton].
      intros x Hx Hx'. cbn in Hx'. apply list_elem_of_singleton in Hx' as ->.
      apply list_elem_of_fmap in Hx as (y & Hn & Hin).
      destruct (Hnodes1 y Hin) as (Hnot & _). apply Hnot. rewrite <- Hn. set_solver.
    + intros x [Hin|Hin]%elem_of_app.
      * destruct (Hnodes1 x Hin) as (Hnot & Hin1 & Hd & Hsome).
        split; [set_solver|]. split; [done|]. split; [lia|done].
      * apply list_elem_of_singleton in Hin as ->. cbn.
        split; [done|]. split; [set_solver|]. split; [lia|]. by rewrite Hdef.
  - destruct (wanted params ref); [|by apply IHrefs].
    destruct (IH (toDef ref) (depth + 1) V1 (C ++ added1) Hfuel')
      as (V2 & added2 & -> & Hsub2 & Hnd2 & Hnodes2).
    rewrite <- app_assoc. apply IHrefs; [set_solver| |].
    + rewrite fmap_app. apply NoDup_app. split; [done|]. split; [|done].
      intros x Hx Hx'.
      apply list_elem_of_fmap in Hx as (node1 & Hn1 & Hin1).
      apply list_elem_of_fmap in Hx' as (node2 & Hn2 & Hin2).
      destruct (Hnodes1 node1 Hin1) as (_ & HV1 & _).
      destruct (Hnodes2 node2 Hin2) as (HnV1 & _). congruence.
    + intros x [Hin|Hin]%elem_of_app.
      * destruct (Hnodes1 x Hin) as (Hnot & Hin1 & Hd & Hsome).
        split; [done|]. split; [set_solver|]. done.
      * destruct (Hnodes2 x Hin) as (Hnot & Hin2 & Hd & Hsome).
        split; [set_solver|]. done.
Qed.

(** X24. The dependency chain is produced for every registry and
    every reference graph, cyclic or not, once the allowed nesting is
    more than the depth limit plus one; it lists a definition at most
    once, lists registered definitions only, and no entry lies deeper
    than the limit, which is [maxDepth], or ten when [maxDepth] is
    omitted or zero. *)
Theorem dependency_chain_is_bounded data params fuel :
  (Z.to_nat (depthLimit params + 1) < fuel)%nat →
  ∃ chain,
    handleGetDependencyChain fuel data params = Ret chain
    ∧ NoDup (node_defName <$> chain)
    ∧ ∀ node, node ∈ chain →
        0 ≤ node_depth node ≤ depthLimit params
        ∧ is_Some (handleGetDef data (node_defName node)).
Proof.
  intros Hfuel. unfold handleGetDependencyChain.
  destruct (traverse_spec data params fuel (chain_defName params) 0 ∅ [])
    as (V' & chain & -> & _ & Hnd & Hnodes).
  { by rewrite Z.sub_0_r. }
  exists chain. split; [done|]. split; [done|].
  intros node Hin. by destruct (Hnodes node Hin) as (_ & _ & ? & ?).
Qed.

Lemma dependency_chain_is_bounded_witness :
  ∃ chain,
    handleGetDependencyChain 12 triangleRegistry chainFromA = Ret chain
    ∧ node_defName <$> chain = ["C"; "B"; "A"].
Proof.
  destruct (dependency_chain_is_bounded triangleRegistry chainFromA 12)
    as (chain & Hrun & _); [vm_compute; lia|].
  exists chain. split; [done|].
  vm_compute in Hrun. by simplify_eq.
Defined.

(** ** The reference graph *)

Lemma keeps_refl d : keeps d d.
Proof. by repeat split. Qed.

Lemma keeps_trans d1 d2 d3 : keeps d1 d2 → keeps d2 d3 → keeps d1 d3.
Proof.
  intros (? & ? & ? & ? & ?) (? & ? & ? & ? & ?).
  repeat split; try congruence; by etrans.
Qed.

Lemma grows_refl data : grows data data.
Proof. repeat split. intros id d Hd. exists d. split; [done|apply keeps_refl]. Qed.

Lemma grows_trans d1 d2 d3 : grows d1 d2 → grows d2 d3 → grows d1 d3.
Proof.
  intros (? & ? & ? & H12) (? & ? & ? & H23). repeat split; try congruence.
  intros id d Hd. destruct (H12 _ _ Hd) as (d' & Hd' & Hk).
  destruct (H23 _ _ Hd') as (d'' & Hd'' & Hk'). exists d''. split; [done|].
  by eapply keeps_trans.
Qed.

Lemma set_obj_grows data id d d' :
  objs data !! id = Some d → keeps d d' → grows data (PatchManager.set_obj id d' data).
Proof.
  intros Hd Hk. repeat split. intros i x Hx.
  cbn [objs PatchManager.set_obj with_objs].
  destruct (decide (i = id)) as [->|Hne].
  - exists d'. split; [|by simplify_eq].
    apply list_lookup_insert_eq. by eapply lookup_lt_Some.
  - exists x. split; [|apply keeps_refl]. by rewrite list_lookup_insert_ne.
Qed.

Lemma existingDef_grows data data' n id d :
  grows data data' → existingDef data n = Some (id, d) →
  ∃ d', existingDef data' n = Some (id, d') ∧ keeps d d'.
Proof.
  intros (Hd & _ & _ & Hobjs) [Hn Hid]%existingDef_inv.
  destruct (Hobjs _ _ Hid) as (d' & Hd' & Hk). exists d'. split; [|done].
  unfold existingDef. rewrite Hd, Hn. cbn. by rewrite Hd'.
Qed.

Lemma registered_grows data data' s :
  grows data data' → registered data' s = registered data s.
Proof. intros (Hd & Ha & _). unfold registered. by rewrite Hd, Ha. Qed.

(** The two writes of [addReference]. *)
Lemma addReference_source f t ty p st :
  grows (rs_data st)
    match existingDef (rs_data st) f with
    | Some (id, sourceDef) =>
        PatchManager.set_obj id
          (def_with_outgoingRefs
             (outgoingRefs sourceDef
                ++ [{| fromDef := f; toDef := t; referenceType := ty; ref_path := p |}])
             sourceDef) (rs_data st)
    | None => rs_data st
    end.
Proof.
  destruct (existingDef (rs_data st) f) as [[id d]|] eqn:He; [|apply grows_refl].
  apply existingDef_inv in He as [_ Hd]. eapply set_obj_grows; [done|].
  repeat split; try done. cbn. set_solver.
Qed.

Lemma addReference_grows f t ty p st :
  grows (rs_data st) (rs_data (addReference f t ty p st)).
Proof.
  unfold addReference. cbn [rs_data].
  eapply grows_trans; [apply (addReference_source f t ty p)|].
  match goal with |- grows ?d _ => generalize d end. intros data1.
  destruct (lookupDefId data1 t) as [id|]; [|apply grows_refl].
  destruct (objs data1 !! id) as [d|] eqn:Hd; [|apply grows_refl].
  eapply set_obj_grows; [done|]. repeat split; try done. cbn. set_solver.
Qed.

Lemma addReference_outgoing f t ty p st id d :
  existingDef (rs_data st) f = Some (id, d) →
  ∃ d', objs (rs_data (addReference f t ty p st)) !! id = Some d'
        ∧ {| fromDef := f; toDef := t; referenceType := ty; ref_path := p |}
            ∈ outgoingRefs d'.
Proof.
  intros He. unfold addReference. cbn [rs_data]. rewrite He.
  pose proof He as [_ Hd]%existingDef_inv.
  set (ref := {| fromDef := f; toDef := t; referenceType := ty; ref_path := p |}).
  set (data1 := PatchManager.set_obj id _ (rs_data st)).
  assert (H1 : objs data1 !! id
               = Some (def_with_outgoingRefs (outgoingRefs d ++ [ref]) d)).
  { cbn [objs data1 PatchManager.set_obj with_objs].
    apply list_lookup_insert_eq. by eapply lookup_lt_Some. }
  assert (Hg : grows data1
            match lookupDefId data1 t with
            | Some id0 =>
                match objs data1 !! id0 with
                | Some targetDef =>
                    PatchManager.set_obj id0
                      (def_with_incomingRefs (incomingRefs targetDef ++ [ref]) targetDef)
                      data1
                | None => data1
                end
            | None => data1
            end).
  { destruct (lookupDefId data1 t) as [id0|]; [|apply grows_refl].
    destruct (objs data1 !! id0) as [d0|] eqn:Hd0; [|apply grows_refl].
    eapply set_obj_grows; [done|]. repeat split; try done. cbn. set_solver. }
  destruct Hg as (_ & _ & _ & Hobjs).
  destruct (Hobjs _ _ H1) as (d' & Hd' & _ & _ & _ & Hout & _).
  exists d'. split; [done|]. apply Hout. cbn. set_solver.
Qed.

Lemma addReference_incoming f t ty p st id d :
  lookupDefId (rs_data st) t = Some id → objs (rs_data st) !! id = Some d →
  ∃ d', objs (rs_data (addReference f t ty p st)) !! id = Some d'
        ∧ {| fromDef := f; toDef := t; referenceType := ty; ref_path := p |}
            ∈ incomingRefs d'.
Proof.
  intros Ht Hd. unfold addReference. cbn [rs_data].
  pose proof (addReference_source f t ty p st) as Hg.
  revert Hg. match goal with |- grows _ ?d → _ => generalize d end.
  intros data1 (Hdefs & Habs & _ & Hobjs).
  rewrite (lookupDefId_shape _ _ t Hdefs Habs), Ht.
  destruct (Hobjs _ _ Hd) as (d1 & Hd1 & _). rewrite Hd1.
  eexists. split.
  - cbn [objs PatchManager.set_obj with_objs].
    apply list_lookup_insert_eq. by eapply lookup_lt_Some.
  - cbn. set_solver.
Qed.

(** What every [addReference] keeps, the scan keeps. *)
Section Scan.
Context (R : RefState → RefState → Prop).
Hypothesis R_refl : ∀ st, R st st.
Hypothesis R_trans : ∀ st1 st2 st3, R st1 st2 → R st2 st3 → R st1 st3.
Hypothesis R_add : ∀ f t ty p st, R st (addReference f t ty p st).

Lemma scanLi_rel from cp liArray : ∀ st, R st (scanLi liArray from cp st).
Proof.
  induction liArray as [|item rest IH]; intros st; cbn [scanLi]; [done|].
  eapply R_trans; [|apply IH]. destruct item; try done. by destruct (registered _ _).
Qed.

Lemma scanItems_rel rec from cp items :
  Forall (fun item => ∀ f p st, R st (rec item f p st)) items →
  ∀ i st, R st (scanItems rec from cp items i st).
Proof.
  induction 1 as [|item rest Hitem _ IH]; intros i st; cbn [scanItems]; [done|].
  eapply R_trans; [|apply IH]. destruct item; try done. by destruct (registered _ _).
Qed.

Lemma scanEntry_rel rec from path key value :
  (∀ f p st, R st (rec value f p st)) →
  match value with
  | JArr items => Forall (fun item => ∀ f p st, R st (rec item f p st)) items
  | _ => True
  end →
  ∀ st, R st (scanEntry rec from path key value st).
Proof.
  intros Hrec Hitems st. unfold scanEntry. destruct value as [| | s |items|ps]; try done.
  - by destruct (nonempty s && registered _ _).
  - by apply scanItems_rel.
  - destruct (String.eqb key "li"); [apply scanLi_rel|apply Hrec].
Qed.

Lemma scan_rel_both obj :
  (∀ from path st, R st (scanObjectForReferences obj from path st))
  ∧ match obj with
    | JArr items =>
        Forall (fun item => ∀ f p st, R st (scanObjectForReferences item f p st)) items
    | _ => True
    end.
Proof.
  induction obj as [| | s |items IH|ps IH] using JsVal_nested_ind; try done.
  - assert (Hitems : Forall (fun item => ∀ f p st,
                        R st (scanObjectForReferences item f p st)) items).
    { eapply Forall_impl; [exact IH|]. by intros item [? _]. }
    split; [|done]. intros from path st. cbn [scanObjectForReferences].
    generalize 0%nat. revert st.
    induction IH as [|item rest [Hitem Hsub] _ IHrest]; intros st i;
      cbn [scanIndexed]; [done|].
    apply Forall_cons in Hitems as [_ Hrest].
    eapply R_trans; [|by apply IHrest]. by apply scanEntry_rel.
  - split; [|done]. intros from path st. cbn [scanObjectForReferences].
    revert st. induction IH as [|[key value] rest [Hv Hsub] _ IHrest]; intros st;
      cbn [scanEntries]; [done|].
    eapply R_trans; [|by apply IHrest]. by apply scanEntry_rel.
Qed.

Lemma scan_rel obj from path st : R st (scanObjectForReferences obj from path st).
Proof. apply scan_rel_both. Qed.

Lemma scanEntries_rel from path ps st :
  R st (scanEntries scanObjectForReferences from path ps st).
Proof. apply (scan_rel (JObj ps)). Qed.

Lemma extractFrom_rel id st : R st (extractFrom id st).
Proof.
  unfold extractFrom. destruct (objs (rs_data st) !! id) as [def|]; [|done].
  eapply R_trans; [|apply scan_rel]. by destruct (present (parent def)).
Qed.

Lemma extractAll_rel (entries : list (string * nat)) : ∀ st,
  R st (foldl (fun st kv => extractFrom kv.2 st) st entries).
Proof.
  induction entries as [|kv rest IH]; intros st; cbn [foldl]; [done|].
  eapply R_trans; [apply extractFrom_rel|apply IH].
Qed.

End Scan.

Lemma scan_grows obj from path st :
  grows (rs_data st) (rs_data (scanObjectForReferences obj from path st)).
Proof.
  apply (scan_rel (fun st st' => grows (rs_data st) (rs_data st'))).
  - intros ?. apply grows_refl.
  - intros ? ? ?. apply grows_trans.
  - intros. apply addReference_grows.
Qed.

Lemma grows_refl_st (st : RefState) : grows (rs_data st) (rs_data st).
Proof. apply grows_refl. Qed.

Lemma grows_trans_st (st1 st2 st3 : RefState) :
  grows (rs_data st1) (rs_data st2) → grows (rs_data st2) (rs_data st3) →
  grows (rs_data st1) (rs_data st3).
Proof. apply grows_trans. Qed.

Lemma addReference_grows_st f t ty p st :
  grows (rs_data st) (rs_data (addReference f t ty p st)).
Proof. apply addReference_grows. Qed.

Lemma extractFrom_grows id st : grows (rs_data st) (rs_data (extractFrom id st)).
Proof.
  apply (extractFrom_rel (fun st st' => grows (rs_data st) (rs_data st'))).
  - intros ?. apply grows_refl.
  - intros ? ? ?. apply grows_trans.
  - intros. apply addReference_grows.
Qed.

Lemma extractAll_grows (entries : list (string * nat)) st :
  grows (rs_data st) (rs_data (foldl (fun st kv => extractFrom kv.2 st) st entries)).
Proof.
  apply (extractAll_rel (fun st st' => grows (rs_data st) (rs_data st'))).
  - intros ?. apply grows_refl.
  - intros ? ? ?. apply grows_trans.
  - intros. apply addReference_grows.
Qed.

(** An entry that holds a registered name adds the edge; the entries
    after it keep it. *)
Lemma scanEntries_adds from path k s : ∀ ps st id d,
  (k, JStr s) ∈ ps → nonempty s = true →
  existingDef (rs_data st) from = Some (id, d) →
  registered (rs_data st) s = true →
  ∃ d',
    objs (rs_data (scanEntries scanObjectForReferences from path ps st)) !! id = Some d'
    ∧ {| fromDef := from; toDef := s; referenceType := referenceTypeOf k;
         ref_path := joinPath path k |} ∈ outgoingRefs d'
    ∧ ∀ tid td, lookupDefId (rs_data st) s = Some tid →
        objs (rs_data st) !! tid = Some td →
        ∃ td', objs (rs_data (scanEntries scanObjectForReferences from path ps st)) !! tid
                 = Some td'
               ∧ {| fromDef := from; toDef := s; referenceType := referenceTypeOf k;
                    ref_path := joinPath path k |} ∈ incomingRefs td'.
Proof.
  induction ps as [|[key value] rest IH]; intros st id d Hin Hs He Hreg;
    [by apply elem_of_nil in Hin|].
  cbn [scanEntries]. apply elem_of_cons in Hin as [[= <- <-]|Hin].
  - set (st1 := scanEntry scanObjectForReferences from path k (JStr s) st).
    assert (Hst1 : st1 = addReference from s (referenceTypeOf k) (joinPath path k) st).
    { unfold st1, scanEntry. by rewrite Hs, Hreg. }
    pose proof (scanEntries_rel (fun st st' => grows (rs_data st) (rs_data st'))
                  grows_refl_st grows_trans_st addReference_grows_st from path rest st1)
      as (_ & _ & _ & Hobjs).
    destruct (addReference_outgoing from s (referenceTypeOf k) (joinPath path k) st id d He)
      as (d1 & Hd1 & Hout). rewrite <- Hst1 in Hd1.
    destruct (Hobjs _ _ Hd1) as (d' & Hd' & _ & _ & _ & Hsub & _).
    exists d'. split; [done|]. split; [by apply Hsub|].
    intros tid td Ht Htd.
    destruct (addReference_incoming from s (referenceTypeOf k) (joinPath path k) st
                tid td Ht Htd) as (td1 & Htd1 & Hinc). rewrite <- Hst1 in Htd1.
    destruct (Hobjs _ _ Htd1) as (td' & Htd' & _ & _ & _ & _ & Hsub').
    exists td'. split; [done|]. by apply Hsub'.
  - set (st1 := scanEntry scanObjectForReferences from path key value st).
    assert (Hg : grows (rs_data st) (rs_data st1)).
    { apply (scanEntry_rel (fun st st' => grows (rs_data st) (rs_data st'))
               grows_refl_st grows_trans_st addReference_grows_st).
      - intros. apply scan_grows.
      - destruct value as [| | |items|]; try done.
        apply Forall_forall. intros. apply scan_grows. }
    destruct (existingDef_grows _ _ _ _ _ Hg He) as (d1 & He1 & _).
    rewrite <- (registered_grows _ _ s Hg) in Hreg.
    destruct (IH st1 id d1 Hin Hs He1 Hreg) as (d' & Hd' & Hout & Hinc).
    exists d'. split; [done|]. split; [done|].
    intros tid td Ht Htd. destruct Hg as (Hdefs & Habs & _ & Hobjs).
    destruct (Hobjs _ _ Htd) as (td1 & Htd1 & _).
    apply (Hinc tid td1); [|done]. by rewrite (lookupDefId_shape _ _ s Hdefs Habs).
Qed.

(** The edge a definition gets for holding its own name. *)
Lemma own_name_edge st n did d ps k :
  omap_get (defs (rs_data st)) n = Some did →
  objs (rs_data st) !! did = Some d →
  defName d = n → nonempty n = true →
  content d = JObj ps → (k, JStr n) ∈ ps →
  ∃ d',
    objs (rs_data (extractReferences st)) !! did = Some d'
    ∧ {| fromDef := n; toDef := n; referenceType := referenceTypeOf k;
         ref_path := k |} ∈ outgoingRefs d'
    ∧ {| fromDef := n; toDef := n; referenceType := referenceTypeOf k;
         ref_path := k |} ∈ incomingRefs d'.
Proof.
  intros Hn Hd Hname Hne Hc Hk. unfold extractReferences.
  destruct (list_elem_of_split _ _ (omap_get_elem _ _ _ Hn)) as (l1 & l2 & Hsplit).
  rewrite Hsplit, foldl_app. cbn [foldl snd].
  set (st1 := foldl (fun st kv => extractFrom kv.2 st) st l1).
  pose proof (extractAll_grows l1 st) as Hg1. fold st1 in Hg1.
  destruct Hg1 as (Hdefs1 & Habs1 & _ & Hobjs1).
  destruct (Hobjs1 _ _ Hd) as (d1 & Hd1 & Hn1 & Hc1 & _).
  set (st3 := extractFrom did st1).
  assert (H3 : ∃ d3,
            objs (rs_data st3) !! did = Some d3
            ∧ {| fromDef := n; toDef := n; referenceType := referenceTypeOf k;
                 ref_path := k |} ∈ outgoingRefs d3
            ∧ {| fromDef := n; toDef := n; referenceType := referenceTypeOf k;
                 ref_path := k |} ∈ incomingRefs d3).
  { unfold st3, extractFrom. rewrite Hd1, Hc1, Hc, Hn1, Hname.
    set (st2 := if present (parent d1) then _ else st1).
    assert (Hg2 : grows (rs_data st1) (rs_data st2)).
    { unfold st2. destruct (present (parent d1)); [apply addReference_grows|apply grows_refl]. }
    destruct Hg2 as (Hdefs2 & Habs2 & _ & Hobjs2).
    destruct (Hobjs2 _ _ Hd1) as (d2 & Hd2 & _).
    assert (Hn2 : omap_get (defs (rs_data st2)) n = Some did) by congruence.
    assert (He2 : existingDef (rs_data st2) n = Some (did, d2)).
    { unfold existingDef. rewrite Hn2. cbn. by rewrite Hd2. }
    assert (Hreg : registered (rs_data st2) n = true).
    { unfold registered. rewrite Hn2. by rewrite bool_decide_eq_true_2. }
    cbn [scanObjectForReferences].
    destruct (scanEntries_adds n "" k n ps st2 did d2 Hk Hne He2 Hreg)
      as (d3 & Hd3 & Hout & Hinc).
    exists d3. split; [done|]. split; [done|].
    destruct (Hinc did d2) as (td & Htd & Hin); [|done|].
    { unfold lookupDefId. by rewrite Hn2. }
    rewrite Hd3 in Htd. by simplify_eq. }
  destruct H3 as (d3 & Hd3 & Hout & Hinc).
  pose proof (extractAll_grows l2 st3) as (_ & _ & _ & Hobjs).
  destruct (Hobjs _ _ Hd3) as (d' & Hd' & _ & _ & _ & Hsub1 & Hsub2).
  exists d'. split; [done|]. split; [by apply Hsub1|by apply Hsub2].
Qed.

(** X25. A definition that holds the name it is registered under as
    text under one of its own keys, as every definition declared with
    a [defName] element does, comes out of [extractReferences] with a
    reference to itself: the edge from the name to the name, with the
    key as path, is among its outgoing and among its incoming
    references. *)
Theorem own_name_is_a_reference st n did d ps k :
  omap_get (defs (rs_data st)) n = Some did →
  objs (rs_data st) !! did = Some d →
  defName d = n → nonempty n = true →
  content d = JObj ps → (k, JStr n) ∈ ps →
  ∃ d',
    objs (rs_data (extractReferences st)) !! did = Some d'
    ∧ {| fromDef := n; toDef := n; referenceType := referenceTypeOf k;
         ref_path := k |} ∈ outgoingRefs d'
    ∧ {| fromDef := n; toDef := n; referenceType := referenceTypeOf k;
         ref_path := k |} ∈ incomingRefs d'.
Proof. apply own_name_edge. Qed.


Lemma own_name_is_a_reference_witness :
  ∃ d',
    objs (rs_data (extractReferences (afterIngestion sampleFiles))) !! 1%nat = Some d'
    ∧ {| fromDef := "Foo"; toDef := "Foo"; referenceType := RefOther;
         ref_path := "defName" |} ∈ outgoingRefs d'.
Proof.
  destruct (own_name_is_a_reference (afterIngestion sampleFiles) "Foo" 1
              (default fooWithComps (objs (rs_data (afterIngestion sampleFiles)) !! 1%nat))
              [("defName", JStr "Foo"); ("label", JStr "make foo")] "defName")
    as (d' & Hd' & Hout & _).
  - vm_compute. reflexivity.
  - vm_compute. reflexivity.
  - vm_compute. reflexivity.
  - vm_compute. reflexivity.
  - vm_compute. reflexivity.
  - left.
  - exists d'. split; [exact Hd'|].
    vm_compute (referenceTypeOf "defName") in Hout. exact Hout.
Defined.

(** ** Self-references and the cycle detector *)

Lemma reportsMore_refl d : reportsMore false d d.
Proof. exists []. rewrite app_nil_r. by repeat split. Qed.

Lemma reportsMore_weaken s d d' : reportsMore s d d' → reportsMore false d d'.
Proof. intros (added & ? & ? & _). exists added. by repeat split. Qed.

Lemma reportsMore_trans s1 s2 d1 d2 d3 :
  reportsMore s1 d1 d2 → reportsMore s2 d2 d3 → reportsMore (s1 || s2) d1 d3.
Proof.
  intros (a1 & H1 & F1 & N1) (a2 & H2 & F2 & N2). exists (a1 ++ a2).
  split; [by rewrite H2, H1, app_assoc|]. split; [by apply Forall_app|].
  intros [Hs|Hs]%orb_prop E; apply app_eq_nil in E as [E1 E2].
  - by apply N1.
  - by apply N2.
Qed.

Lemma reportsMore_then_strict s d1 d2 d3 :
  reportsMore s d1 d2 → reportsMore true d2 d3 → reportsMore true d1 d3.
Proof.
  intros H1 H2. pose proof (reportsMore_trans _ _ _ _ _ H1 H2) as H.
  by rewrite orb_true_r in H.
Qed.

Lemma reportsMore_strict_then s d1 d2 d3 :
  reportsMore true d1 d2 → reportsMore s d2 d3 → reportsMore true d1 d3.
Proof. intros H1 H2. apply (reportsMore_trans _ _ _ _ _ H1 H2). Qed.

Section SelfReference.
Context (data0 : ServerData) (n : string) (id : nat) (d : RimWorldDef)
  (ref : DefReference).
Hypothesis Hholder : existingDef data0 n = Some (id, d).
Hypothesis Href : ref ∈ outgoingRefs d.
Hypothesis Hself : toDef ref = n.

(** What one call of [hasCycle] does to the conflict list. *)
Lemma hasCycle_reports : ∀ fuel m path st st' b,
  stackOk data0 st →
  hasCycle fuel m path st = Ret (st', b) →
  stackOk data0 st'
  ∧ visited st ⊆ visited st'
  ∧ m ∈ visited st'
  ∧ reportsMore false (data st) (data st')
  ∧ (b = true → reportsMore true (data st) (data st'))
  ∧ (b = false → recursionStack st' = recursionStack st)
  ∧ ((n ∉ visited st) → n ∈ visited st' → reportsMore true (data st) (data st')).
Proof.
  induction fuel as [|fuel IH]; intros m path st st' b Hok Hrun; [done|].
  cbn [hasCycle] in Hrun. destruct Hok as (Hsame & Hstack & Hsub).
  case_bool_decide as Hin.
  { destruct (Hstack _ Hin) as [[i dm] Hdm].
    rewrite (existingDef_sameRegistry _ _ _ Hsame), Hdm in Hrun. simplify_eq.
    cbn [data visited recursionStack].
    assert (Hstrict : reportsMore true (ConflictDetector.data st)
              (with_conflicts
                 (fun cs => cs ++ [cycleConflict dm m (sliceFromIndexOf path m ++ [m])])
                 (ConflictDetector.data st))).
    { eexists. split; [done|]. split; [|done]. by repeat constructor. }
    split; [|split; [done|]; split; [by apply Hsub|]; split;
             [by eapply reportsMore_weaken|done]].
    split; [|done]. destruct Hsame as [? ?]. by split. }
  case_bool_decide as Hvisited.
  { simplify_eq. repeat split; try done; try apply Hsame. apply reportsMore_refl. }
  set (st1 := {| data := data st; visited := visited st ∪ {[m]};
                 recursionStack := recursionStack st ∪ {[m]};
                 visits := visits st ++ [m] |}) in *.
  assert (Hleave : recursionStack st1 ∖ {[m]} = recursionStack st)
    by (cbn; set_solver).
  rewrite (existingDef_sameRegistry data0 (data st1) m Hsame) in Hrun.
  destruct (existingDef data0 m) as [[i dm]|] eqn:Hdm.
  2:{ simplify_eq. cbn [data visited recursionStack st1].
      split.
      { split; [done|]. split; [|set_solver].
        intros x Hx. apply Hstack. set_solver. }
      split; [set_solver|]. split; [set_solver|]. split; [apply reportsMore_refl|].
      split; [done|]. split; [intros _; set_solver|].
      intros Hn [Hn'|Hn']%elem_of_union; [done|].
      apply elem_of_singleton in Hn'. rewrite <- Hn', Hholder in Hdm. done. }
  assert (Hok1 : stackOk data0 st1).
  { split; [done|]. split; [|cbn; set_solver].
    intros x [Hx|Hx]%elem_of_union; [by apply Hstack|].
    apply elem_of_singleton in Hx as ->. by rewrite Hdm. }
  assert (Hfront : m = n → ref ∈ outgoingRefs dm).
  { intros ->. rewrite Hholder in Hdm. by simplify_eq. }
  enough (Hloop : ∀ refs st2,
            stackOk data0 st2 →
            (fix each (refs : list DefReference) (st : DfsState) : run (DfsState * bool) :=
               match refs with
               | [] => Ret ({| data := data st; visited := visited st;
                               recursionStack := recursionStack st ∖ {[m]};
                               visits := visits st |}, false)
               | ref :: rest =>
                   match hasCycle fuel (toDef ref) (path ++ [m]) st with
                   | Ret (st', true) => Ret (st', true)
                   | Ret (st', false) => each rest st'
                   | Starved => Starved
                   | Outside => Outside
                   end
               end) refs st2 = Ret (st', b) →
            stackOk data0 st'
            ∧ visited st2 ⊆ visited st'
            ∧ reportsMore false (data st2) (data st')
            ∧ (b = true → reportsMore true (data st2) (data st'))
            ∧ (b = false → recursionStack st' = recursionStack st2 ∖ {[m]})
            ∧ ((n ∉ visited st2) → n ∈ visited st' → reportsMore true (data st2) (data st'))
            ∧ (m = n → ref ∈ refs → m ∈ recursionStack st2 →
               reportsMore true (data st2) (data st'))).
  { destruct (Hloop _ _ Hok1 Hrun) as (Hok' & Hv & Hr & Ht & Hf & Hfirst & Hown).
    split; [done|]. split; [cbn in Hv; set_solver|]. split; [cbn in Hv; set_solver|].
    split; [done|]. split; [done|]. split; [intros ->; by rewrite Hf|].
    intros Hn Hn'. destruct (decide (m = n)) as [Hmn|Hmn].
    - apply Hown; [done|by apply Hfront|cbn; set_solver].
    - apply Hfirst; [cbn; set_solver|done]. }
  clear Hrun Hok1 Hleave Hfront. clearbody st1. clear dependent st.
  intros refs. induction refs as [|r rest IHrefs]; intros st2 Hok2 Hrun.
  - simplify_eq. cbn [data visited recursionStack].
    destruct Hok2 as (Hsame2 & Hstack2 & Hsub2).
    split; [split; [done|]; split; [|set_solver]; intros x Hx; apply Hstack2; set_solver|].
    split; [done|]. split; [apply reportsMore_refl|]. split; [done|]. split; [done|].
    split; [done|]. by intros _ ?%elem_of_nil.
  - destruct (hasCycle fuel (toDef r) (path ++ [m]) st2) as [[st3 b3]| |] eqn:Hchild;
      try done.
    destruct (IH _ _ _ _ _ Hok2 Hchild) as (Hok3 & Hv3 & _ & Hr3 & Ht3 & Hf3 & Hfirst3).
    destruct b3.
    + simplify_eq. specialize (Ht3 eq_refl).
      split; [done|]. split; [done|]. split; [done|]. split; [done|].
      split; [done|]. split; done.
    + specialize (Hf3 eq_refl).
      destruct (IHrefs _ Hok3 Hrun) as (Hok' & Hv & Hr & Ht & Hf & Hfirst & Hown).
      split; [done|]. split; [set_solver|].
      split; [apply (reportsMore_trans _ _ _ _ _ Hr3 Hr)|].
      split; [intros Hb; by eapply reportsMore_then_strict; [|apply Ht]|].
      split; [intros Hb; by rewrite Hf, Hf3|].
      split.
      * intros Hn Hn'. destruct (decide (n ∈ visited st3)) as [Hn3|Hn3].
        -- eapply reportsMore_strict_then; [by apply Hfirst3|done].
        -- eapply reportsMore_then_strict; [done|by apply Hfirst].
      * intros Hmn [->|Hrest]%elem_of_cons Hstk.
        -- exfalso. rewrite Hself, <- Hmn in Hchild.
           destruct fuel as [|fuel']; [done|]. cbn [hasCycle] in Hchild.
           rewrite bool_decide_eq_true_2 in Hchild by done. by simplify_eq.
        -- eapply reportsMore_then_strict; [done|].
           apply Hown; [done|done|by rewrite Hf3].
Qed.

Lemma detectFrom_reports fuel : ∀ keys st st',
  stackOk data0 st →
  detectFrom fuel keys st = Ret st' →
  stackOk data0 st'
  ∧ reportsMore false (data st) (data st')
  ∧ ((n ∉ visited st) → n ∈ keys → reportsMore true (data st) (data st')).
Proof.
  induction keys as [|k rest IH]; intros st st' Hok Hrun; cbn [detectFrom] in Hrun.
  - simplify_eq. split; [done|]. split; [apply reportsMore_refl|].
    by intros _ ?%elem_of_nil.
  - case_bool_decide as Hk.
    + destruct (IH _ _ Hok Hrun) as (Hok' & Hr & Hn). split; [done|]. split; [done|].
      intros Hv [->|Hin]%elem_of_cons; [done|]. by apply Hn.
    + destruct (hasCycle fuel k [] st) as [[st1 b]| |] eqn:Hcall; try done.
      destruct (hasCycle_reports _ _ _ _ _ _ Hok Hcall)
        as (Hok1 & Hv1 & Hk1 & Hr1 & _ & _ & Hfirst1).
      destruct (IH _ _ Hok1 Hrun) as (Hok' & Hr & Hn). split; [done|].
      split; [apply (reportsMore_trans _ _ _ _ _ Hr1 Hr)|].
      intros Hv Hin. destruct (decide (n ∈ visited st1)) as [Hn1|Hn1].
      * eapply reportsMore_strict_then; [by apply Hfirst1|done].
      * apply elem_of_cons in Hin as [->|Hin]; [done|].
        eapply reportsMore_then_strict; [done|by apply Hn].
Qed.

End SelfReference.

(** A self-edge makes the detector report. *)
Lemma self_edge_reported data0 n id d ref fuel :
  existingDef data0 n = Some (id, d) →
  ref ∈ outgoingRefs d → toDef ref = n →
  (size (refNames data0) < fuel)%nat →
  ∃ st added,
    detectCircularDependencies fuel data0 = Ret st
    ∧ conflicts (data st) = conflicts data0 ++ added
    ∧ added ≠ []
    ∧ Forall (fun c => conflict_type c = circular_dependency
                       ∧ severity c = sev_error) added.
Proof.
  intros Hholder Href Hself Hfuel.
  destruct (detectFrom_returns data0 fuel (omap_keys (defs data0))
              {| data := data0; visited := ∅; recursionStack := ∅; visits := [] |})
    as (st & Hrun & _); [done| | |].
  { intros k Hk. unfold refNames. apply elem_of_union_l. by apply elem_of_list_to_set. }
  { cbn [visited].
    assert (refNames data0 ∖ ∅ = refNames data0) as -> by set_solver. done. }
  assert (Hok : stackOk data0
            {| data := data0; visited := ∅; recursionStack := ∅; visits := [] |}).
  { split; [done|]. split; [|done]. by intros x ?%elem_of_empty. }
  destruct (detectFrom_reports data0 n id d ref Hholder Href Hself fuel _ _ _ Hok Hrun)
    as (_ & _ & Hstrict).
  destruct Hstrict as (added & Hc & Hall & Hne).
  - cbn. set_solver.
  - apply existingDef_inv in Hholder as [Hn _]. apply omap_get_elem in Hn.
    unfold omap_keys. apply list_elem_of_fmap. by exists (n, id).
  - exists st, added. split; [done|]. split; [done|]. split; [by apply Hne|done].
Qed.

(** X26. When some registered definition has a reference to itself,
    the cycle detector returns and adds at least one conflict; all the
    conflicts it adds are circular-dependency errors, after the ones
    that were there. *)
Theorem self_reference_is_reported data0 n id d ref fuel :
  existingDef data0 n = Some (id, d) →
  ref ∈ outgoingRefs d → toDef ref = n →
  (size (refNames data0) < fuel)%nat →
  ∃ st added,
    detectCircularDependencies fuel data0 = Ret st
    ∧ conflicts (data st) = conflicts data0 ++ added
    ∧ added ≠ []
    ∧ Forall (fun c => conflict_type c = circular_dependency
                       ∧ severity c = sev_error) added.
Proof. apply self_edge_reported. Qed.

Lemma self_reference_is_reported_witness :
  ∃ st added,
    detectCircularDependencies 5 sampleWithReferences = Ret st
    ∧ conflicts (data st) = conflicts sampleWithReferences ++ added
    ∧ added ≠ [].
Proof.
  destruct (self_reference_is_reported sampleWithReferences "Foo" 1
              (default fooWithComps (objs sampleWithReferences !! 1%nat))
              {| fromDef := "Foo"; toDef := "Foo"; referenceType := RefOther;
                 ref_path := "defName" |} 5)
    as (st & added & Hrun & Hc & Hne & _).
  - vm_compute. reflexivity.
  - vm_compute. left.
  - reflexivity.
  - vm_compute. lia.
  - exists st, added. split; [exact Hrun|]. split; [exact Hc|exact Hne].
Defined.

(** X27. Extraction followed by detection: when a registered
    definition holds its own name as text under one of its keys, the
    two passes run one after the other return and add at least one
    circular-dependency error to the conflicts that were there. *)
Theorem declared_name_is_reported_as_cycle st n did d ps k fuel :
  omap_get (defs (rs_data st)) n = Some did →
  objs (rs_data st) !! did = Some d →
  defName d = n → nonempty n = true →
  content d = JObj ps → (k, JStr n) ∈ ps →
  (size (refNames (rs_data (extractReferences st))) < fuel)%nat →
  ∃ dst added,
    detectCircularDependencies fuel (rs_data (extractReferences st)) = Ret dst
    ∧ conflicts (data dst) = conflicts (rs_data st) ++ added
    ∧ added ≠ []
    ∧ Forall (fun c => conflict_type c = circular_dependency
                       ∧ severity c = sev_error) added.
Proof.
  intros Hn Hd Hname Hne Hc Hk Hfuel.
  destruct (own_name_edge st n did d ps k Hn Hd Hname Hne Hc Hk)
    as (d' & Hd' & Hout & _).
  pose proof (extractAll_grows (defs (rs_data st)) st) as (Hdefs & _ & Hconf & _).
  fold (extractReferences st) in Hdefs, Hconf.
  destruct (self_edge_reported (rs_data (extractReferences st)) n did d'
              {| fromDef := n; toDef := n; referenceType := referenceTypeOf k;
                 ref_path := k |} fuel)
    as (dst & added & Hrun & Hadd & Hnil & Hall); [|done|done|done|].
  { unfold existingDef. rewrite Hdefs, Hn. cbn. by rewrite Hd'. }
  exists dst, added. by rewrite <- Hconf.
Qed.

Lemma declared_name_is_reported_as_cycle_witness :
  ∃ dst added,
    detectCircularDependencies 5 (rs_data (extractReferences (afterIngestion sampleFiles)))
    = Ret dst
    ∧ conflicts (data dst)
      = conflicts (rs_data (afterIngestion sampleFiles)) ++ added
    ∧ added ≠ [].
Proof.
  destruct (declared_name_is_reported_as_cycle (afterIngestion sampleFiles) "Foo" 1
              (default fooWithComps (objs (rs_data (afterIngestion sampleFiles)) !! 1%nat))
              [("defName", JStr "Foo"); ("label", JStr "make foo")] "defName" 5)
    as (dst & added & Hrun & Hc & Hne & _).
  - vm_compute. reflexivity.
  - vm_compute. reflexivity.
  - vm_compute. reflexivity.
  - vm_compute. reflexivity.
  - vm_compute. reflexivity.
  - left.
  - vm_compute. lia.
  - exists dst, added. split; [exact Hrun|]. split; [exact Hc|exact Hne].
Defined.

(** ** Edges the extraction finds, and one it does not *)

(** X28. A declared parent becomes a reference: after
    [extractReferences] the definition has the edge to its parent,
    of type [parent] and with path [@ParentName], among its outgoing
    references, and a registered parent has it among its incoming
    ones. *)
Theorem parent_is_a_reference st n did d p :
  omap_get (defs (rs_data st)) n = Some did →
  objs (rs_data st) !! did = Some d →
  defName d = n → parent d = Some p → nonempty p = true →
  ∃ d',
    objs (rs_data (extractReferences st)) !! did = Some d'
    ∧ {| fromDef := n; toDef := p; referenceType := RefParent;
         ref_path := "@ParentName" |} ∈ outgoingRefs d'
    ∧ ∀ pid pd,
        lookupDefId (rs_data st) p = Some pid → objs (rs_data st) !! pid = Some pd →
        ∃ pd',
          objs (rs_data (extractReferences st)) !! pid = Some pd'
          ∧ {| fromDef := n; toDef := p; referenceType := RefParent;
               ref_path := "@ParentName" |} ∈ incomingRefs pd'.
Proof.
  intros Hn Hd Hname Hp Hne. unfold extractReferences.
  destruct (list_elem_of_split _ _ (omap_get_elem _ _ _ Hn)) as (l1 & l2 & Hsplit).
  rewrite Hsplit, foldl_app. cbn [foldl snd].
  set (st1 := foldl (fun st kv => extractFrom kv.2 st) st l1).
  pose proof (extractAll_grows l1 st) as Hg1. fold st1 in Hg1.
  destruct Hg1 as (Hdefs1 & Habs1 & _ & Hobjs1).
  destruct (Hobjs1 _ _ Hd) as (d1 & Hd1 & Hn1 & _ & Hp1 & _).
  set (st2 := addReference n p RefParent "@ParentName" st1).
  assert (Hst3 : extractFrom did st1
                 = scanObjectForReferences (content d1) n "" st2).
  { unfold extractFrom. rewrite Hd1, Hp1, Hp, Hn1, Hname. cbn [present default].
    by rewrite Hne. }
  rewrite Hst3.
  assert (He1 : existingDef (rs_data st1) n = Some (did, d1)).
  { unfold existingDef. rewrite Hdefs1, Hn. cbn. by rewrite Hd1. }
  destruct (addReference_outgoing n p RefParent "@ParentName" st1 did d1 He1)
    as (d2 & Hd2 & Hout2). fold st2 in Hd2.
  pose proof (scan_grows (content d1) n "" st2) as Hg3.
  pose proof (extractAll_grows l2 (scanObjectForReferences (content d1) n "" st2)) as Hg4.
  pose proof (grows_trans _ _ _ Hg3 Hg4) as (_ & _ & _ & Hobjs).
  destruct (Hobjs _ _ Hd2) as (d' & Hd' & _ & _ & _ & Hsub & _).
  exists d'. split; [done|]. split; [by apply Hsub|].
  intros pid pd Hpid Hpd.
  destruct (Hobjs1 _ _ Hpd) as (pd1 & Hpd1 & _).
  rewrite <- (lookupDefId_shape _ _ p Hdefs1 Habs1) in Hpid.
  destruct (addReference_incoming n p RefParent "@ParentName" st1 pid pd1 Hpid Hpd1)
    as (pd2 & Hpd2 & Hinc2). fold st2 in Hpd2.
  destruct (Hobjs _ _ Hpd2) as (pd' & Hpd' & _ & _ & _ & _ & Hsub').
  exists pd'. split; [done|]. by apply Hsub'.
Qed.

Lemma parent_is_a_reference_witness :
  ∃ d',
    objs (rs_data (extractReferences (afterIngestion withBar))) !! 3%nat = Some d'
    ∧ {| fromDef := "Bar"; toDef := "BaseThing"; referenceType := RefParent;
         ref_path := "@ParentName" |} ∈ outgoingRefs d'.
Proof.
  destruct (parent_is_a_reference (afterIngestion withBar) "Bar" 3
              (default fooWithComps (objs (rs_data (afterIngestion withBar)) !! 3%nat))
              "BaseThing")
    as (d' & Hd' & Hout & _).
  - vm_compute. reflexivity.
  - vm_compute. reflexivity.
  - vm_compute. reflexivity.
  - vm_compute. reflexivity.
  - vm_compute. reflexivity.
  - exists d'. split; [exact Hd'|exact Hout].
Defined.

(** X29. What lies under a key [li] that holds an object, as a list
    with a single element does after parsing, is not scanned: the
    scan of an object with such an entry is the scan of the object
    without it. *)
Theorem single_list_element_is_not_scanned pre sub post from path st :
  scanObjectForReferences (JObj (pre ++ ("li", JObj sub) :: post)) from path st
  = scanObjectForReferences (JObj (pre ++ post)) from path st.
Proof.
  cbn [scanObjectForReferences]. revert st.
  induction pre as [|[key value] pre IH]; intros st; cbn [app scanEntries].
  - done.
  - apply IH.
Qed.
